(** * evm-node-check: a shallow embedding of the consistency checker

    The development follows the three Go packages of the repository:
    [config] (internal/config/config.go), [checker]
    (internal/checker/checker.go) and [main] (cmd/evm-node-check/main.go).

    Conventions of the embedding.
    - A Go [uint64] is a [Z] together with its wrap-around ([wrap64],
      [sub64]); a Go [int] is a [Z].
    - A Go [error] is [option string]: [None] is [nil], [Some msg] carries
      the text that [%v] prints.
    - [*big.Int] is [option Z], [None] being the nil pointer.
    - [common.Hash] (32 bytes) is the natural number those bytes denote.
    - A Go [map] is a [gmap]; every [range] over a map visits its entries in
      an order chosen by a [RangeOrder], one order per loop site.
    - Remote calls are answered by an [Endpoint], the behaviour of the node
      behind an address; [checkNode] also returns the calls it issued.
    - A nil-pointer dereference aborts the program: functions that can reach
      one return [option], [None] being the panic. *)

From Stdlib Require Import ZArith Lia Ascii String.
From stdpp Require Import gmap strings list fin_maps pretty.

Local Open Scope Z_scope.

(** Go's [error] interface value. *)
Abbreviation error := (option string) (only parsing).

(** [common.Hash]. *)
Abbreviation Hash := N (only parsing).

(** ** Package config *)

Module config.

Record Connector := mkConnector {
  Type_ : string;
  URL : string;
}.

Record Upstream := mkUpstream {
  ID : string;
  Chain : string;
  Connectors : list Connector;
}.

Record UpstreamConfig := mkUpstreamConfig {
  Upstreams : list Upstream;
}.

Record Config := mkConfig {
  UpstreamConfig_ : UpstreamConfig;
}.

(** NodeInfo is a flattened representation for the checker. *)
Module NodeInfo.
Record t := mk {
  ID : string;
  Chain : string;
  Address : string;
}.
End NodeInfo.

(** What [os.ReadFile] followed by [yaml.Unmarshal] yield for a path: both
    are outside the repository, so [Load] is given their outcome. *)
Inductive FileContent :=
| ReadFailure (err : string)
| ParseFailure (err : string)
| Parsed (cfg : Config).

(** The inner loop of the duplicate check: the connectors of one upstream.
    [inl] is the error returned from inside the loop. *)
Fixpoint checkConnectors (upstreamID : string) (seen : gmap string bool)
    (cs : list Connector) : string + gmap string bool :=
  match cs with
  | [] => inr seen
  | connector :: rest =>
      if decide (URL connector = "") then
        inl ("upstream " +:+ upstreamID +:+ " has empty connector URL")
      else if default false (seen !! URL connector) then
        inl ("duplicate connector URL: " +:+ URL connector)
      else checkConnectors upstreamID (<[URL connector := true]> seen) rest
  end.

(** The outer loop of the duplicate check. *)
Fixpoint checkUpstreams (seen : gmap string bool) (us : list Upstream)
    : string + gmap string bool :=
  match us with
  | [] => inr seen
  | upstream :: rest =>
      match checkConnectors (ID upstream) seen (Connectors upstream) with
      | inl err => inl err
      | inr seen' => checkUpstreams seen' rest
      end
  end.

Definition Load (file : FileContent) : string + Config :=
  match file with
  | ReadFailure err => inl ("failed to read config file: " +:+ err)
  | ParseFailure err => inl ("failed to parse config file: " +:+ err)
  | Parsed cfg =>
      if decide (length (Upstreams (UpstreamConfig_ cfg)) = 0%nat) then
        inl "no upstreams configured in config file"
      else
        match checkUpstreams ∅ (Upstreams (UpstreamConfig_ cfg)) with
        | inl err => inl err
        | inr _ => inr cfg
        end
  end.

(** [result[chain] = append(result[chain], node)]: reading a missing key
    yields the nil slice. *)
Definition appendNode (result : gmap string (list NodeInfo.t))
    (upstream : Upstream) (connector : Connector)
    : gmap string (list NodeInfo.t) :=
  if decide (Type_ connector = "json-rpc") then
    <[Chain upstream :=
        default [] (result !! Chain upstream)
          ++ [NodeInfo.mk (ID upstream) (Chain upstream) (URL connector)]]>
      result
  else result.

(** GetNodesByChain returns all nodes grouped by chain. *)
Definition GetNodesByChain (c : Config) : gmap string (list NodeInfo.t) :=
  foldl (fun result upstream =>
           foldl (fun result connector => appendNode result upstream connector)
                 result (Connectors upstream))
        ∅ (Upstreams (UpstreamConfig_ c)).

(** GetAllNodes returns all nodes as a flat list. *)
Definition GetAllNodes (c : Config) : list NodeInfo.t :=
  foldl (fun result upstream =>
           foldl (fun result connector =>
                    if decide (Type_ connector = "json-rpc") then
                      result ++ [NodeInfo.mk (ID upstream) (Chain upstream)
                                             (URL connector)]
                    else result)
                 result (Connectors upstream))
        [] (Upstreams (UpstreamConfig_ c)).

End config.

(** ** Package checker *)

Module checker.

Import config.

(** *** Machine integers *)

Definition wrap64 (z : Z) : Z := z mod 2 ^ 64.

(** Subtraction of two [uint64] values. *)
Definition sub64 (a b : Z) : Z := wrap64 (a - b).

(** The values a [uint64] can hold. *)
Definition is_uint64 (z : Z) : Prop := 0 <= z < 2 ^ 64.

(** *** Formatting *)

Definition hex_digit (d : N) : ascii :=
  match d with
  | 0 => "0" | 1 => "1" | 2 => "2" | 3 => "3" | 4 => "4" | 5 => "5"
  | 6 => "6" | 7 => "7" | 8 => "8" | 9 => "9" | 10 => "a" | 11 => "b"
  | 12 => "c" | 13 => "d" | 14 => "e" | _ => "f"
  end%char%N.

(** The [n] least significant hexadecimal digits of [v], most significant
    first. *)
Fixpoint hex_fixed (n : nat) (v : N) (acc : string) : string :=
  match n with
  | O => acc
  | S k => hex_fixed k (v `div` 16)%N (String (hex_digit (v `mod` 16)%N) acc)
  end.

(** [common.Hash.Hex]: "0x" and the 32 bytes in hexadecimal. *)
Definition Hex (h : Hash) : string := "0x" +:+ hex_fixed 64 h "".

(** *** Data *)

Record Options := mkOptions {
  MaxBlockGap : Z;       (* uint64 *)
  BlockHashCount : Z;    (* int *)
  CheckDebugMode : bool;
}.

Definition DefaultOptions : Options :=
  {| MaxBlockGap := 10; BlockHashCount := 5; CheckDebugMode := true |}.

Module NodeResult.
Record t := mk {
  ID : string;
  Chain : string;
  Address : string;
  ChainID : option Z;
  BlockNumber : Z;
  BlockHashes : gmap Z Hash;
  DebugOK : bool;
  Error : error;
}.
End NodeResult.

Module FailedNode.
Record t := mk {
  ID : string;
  Chain : string;
  Address : string;
  Reason : string;
}.
End FailedNode.

Module ChainResult.
Record t := mk {
  Chain : string;
  Nodes : list NodeResult.t;
  ExpectedChainID : option Z;
  MaxBlockNumber : Z;
  FailedNodes : list FailedNode.t;
  Passed : bool;
}.
End ChainResult.

Module CheckResult.
Record t := mk {
  ChainResults : list ChainResult.t;
  FailedNodes : list FailedNode.t;
  Passed : bool;
}.
End CheckResult.

(** *** The node behind an address *)

(** The outcomes of one [eth_getBlockByNumber] call that [checkNode]
    distinguishes. *)
Inductive BlockReply :=
| BlockCallError (err : string)
| BlockNull
| BlockBadHeader (err : string)
| BlockHeader (hash : Hash).

(** Every call [checkNode] issues has its own method and arguments, so a
    function from requests to replies describes any behaviour of the node
    during one probe. *)
Record Endpoint := mkEndpoint {
  dial : error;
  eth_chainId : string + Z;
  eth_blockNumber : string + Z;
  eth_getBlockByNumber : Z -> BlockReply;
  debug_traceBlockByNumber : Z -> error;
}.

(** The remote operations of one probe, in the order they are issued. *)
Inductive RpcCall :=
| CallDial
| CallChainID
| CallBlockNumber
| CallGetBlock (target : Z)
| CallTrace (target : Z)
| CallClose.

(** *** Map iteration *)

(** The [range] loops over maps of this package. *)
Inductive Site :=
| SiteChains
| SiteNodeHashes (chain : string) (idx : nat)
| SiteBlocks (chain : string)
| SiteMajority (chain : string) (blockNum : Z)
| SiteReport (chain : string) (blockNum : Z).

(** Go leaves the iteration order of a map unspecified, and promises that
    each entry is produced once. *)
Record RangeOrder := mkRangeOrder {
  range : Site -> forall A : Type, list A -> list A;
  range_perm : forall site A (l : list A), range site A l ≡ₚ l;
}.

(** The order of [map_to_list] itself. *)
Definition inorder : RangeOrder :=
  {| range := fun _ _ l => l;
     range_perm := fun _ _ l => reflexivity l |}.

(** The opposite order. *)
Definition backwards : RangeOrder :=
  {| range := fun _ _ l => reverse l;
     range_perm := fun _ _ l => reverse_Permutation l |}.

(** *** The checker *)

(** The logger of the Go struct only emits diagnostics and is left out. *)
Record Checker := mkChecker {
  cfg : Config;
  opts : Options;
}.

Definition New (cfg : Config) (opts : Options) : Checker :=
  {| cfg := cfg; opts := opts |}.

(** *** checkNode *)

(** The loop over the last [BlockHashCount] blocks. [fuel] bounds the
    number of iterations; [Z.to_nat (BlockHashCount (opts c))] is never
    exhausted before [i] reaches the count. The call carries the target as
    a hexadecimal string; the endpoint is indexed by the number it denotes.
    The warnings logged on the three [continue] paths are left out. *)
Fixpoint fetchHashes (c : Checker) (ep : Endpoint) (blockNumber : Z)
    (fuel : nat) (i : Z) (hashes : gmap Z Hash) (log : list RpcCall)
    : gmap Z Hash * list RpcCall :=
  match fuel with
  | O => (hashes, log)
  | S fuel' =>
      if negb (i <? BlockHashCount (opts c)) then (hashes, log)
      else if blockNumber <? wrap64 i then (hashes, log)          (* break *)
      else
        let targetBlock := sub64 blockNumber (wrap64 i) in
        let log' := log ++ [CallGetBlock targetBlock] in
        match eth_getBlockByNumber ep targetBlock with
        | BlockHeader hash =>
            fetchHashes c ep blockNumber fuel' (i + 1)
                        (<[targetBlock := hash]> hashes) log'
        | _ =>                                                    (* continue *)
            fetchHashes c ep blockNumber fuel' (i + 1) hashes log'
        end
  end.

Definition checkNode (c : Checker) (ep : Endpoint) (n : NodeInfo.t)
    : NodeResult.t * list RpcCall :=
  let info err chainID blockNumber hashes debugOK :=
    NodeResult.mk (NodeInfo.ID n) (NodeInfo.Chain n) (NodeInfo.Address n)
                  chainID blockNumber hashes debugOK err in
  match dial ep with
  | Some err =>
      (info (Some ("failed to connect: " +:+ err)) None 0 ∅ false, [CallDial])
  | None =>
      match eth_chainId ep with
      | inl err =>
          (info (Some ("failed to get chain ID: " +:+ err)) None 0 ∅ false,
           [CallDial; CallChainID; CallClose])
      | inr chainID =>
          match eth_blockNumber ep with
          | inl err =>
              (info (Some ("failed to get block number: " +:+ err))
                    (Some chainID) 0 ∅ false,
               [CallDial; CallChainID; CallBlockNumber; CallClose])
          | inr blockNumber =>
              let '(hashes, log) :=
                fetchHashes c ep blockNumber
                            (Z.to_nat (BlockHashCount (opts c))) 0 ∅
                            [CallDial; CallChainID; CallBlockNumber] in
              if CheckDebugMode (opts c) then
                match debug_traceBlockByNumber ep blockNumber with
                | None =>
                    (info None (Some chainID) blockNumber hashes true,
                     log ++ [CallTrace blockNumber; CallClose])
                | Some _ =>
                    (info None (Some chainID) blockNumber hashes false,
                     log ++ [CallTrace blockNumber; CallClose])
                end
              else                                          (* Skip check *)
                (info None (Some chainID) blockNumber hashes true,
                 log ++ [CallClose])
          end
      end
  end.

(** *** checkChain *)

(** Determine expected chain ID (from first successful node). *)
Fixpoint expectedChainID (nodes : list NodeResult.t) : option Z :=
  match nodes with
  | [] => None
  | node :: rest =>
      match NodeResult.Error node, NodeResult.ChainID node with
      | None, Some chainID => Some chainID                           (* break *)
      | _, _ => expectedChainID rest
      end
  end.

(** Find max block number. *)
Definition maxBlockNumber (nodes : list NodeResult.t) : Z :=
  foldl (fun maxBlock node =>
           match NodeResult.Error node with
           | None =>
               if maxBlock <? NodeResult.BlockNumber node
               then NodeResult.BlockNumber node else maxBlock
           | Some _ => maxBlock
           end)
        0 nodes.

(** [result.FailedNodes = append(result.FailedNodes, FailedNode{...})]
    followed by [result.Passed = false]. *)
Definition failNode (result : ChainResult.t) (id chain address reason : string)
    : ChainResult.t :=
  ChainResult.mk (ChainResult.Chain result) (ChainResult.Nodes result)
                 (ChainResult.ExpectedChainID result)
                 (ChainResult.MaxBlockNumber result)
                 (ChainResult.FailedNodes result
                    ++ [FailedNode.mk id chain address reason])
                 false.

Definition connectionReason (err : string) : string :=
  "connection error: " +:+ err.

Definition chainIDReason (expected got : Z) : string :=
  "chain ID mismatch: expected " +:+ pretty expected +:+ ", got " +:+ pretty got.

Definition blockGapReason (gap maxGap : Z) : string :=
  "block gap too large: " +:+ pretty gap +:+ " blocks behind (max allowed: "
    +:+ pretty maxGap +:+ ")".

Definition debugReason : string :=
  "debug mode not available (debug_traceBlockByNumber not supported)".

(** The block-gap and debug-mode checks of the validation loop. *)
Definition validateGapDebug (c : Checker) (result : ChainResult.t)
    (node : NodeResult.t) : ChainResult.t :=
  let fail := failNode result (NodeResult.ID node) (NodeResult.Chain node)
                       (NodeResult.Address node) in
  let gap := sub64 (ChainResult.MaxBlockNumber result)
                   (NodeResult.BlockNumber node) in
  if MaxBlockGap (opts c) <? gap then
    fail (blockGapReason gap (MaxBlockGap (opts c)))
  else if CheckDebugMode (opts c) && negb (NodeResult.DebugOK node) then
    fail debugReason
  else result.

(** One iteration of the validation loop. [None]: [node.ChainID.Cmp] was
    called on a nil [node.ChainID]. *)
Definition validateNode (c : Checker) (result : ChainResult.t)
    (node : NodeResult.t) : option ChainResult.t :=
  let fail := failNode result (NodeResult.ID node) (NodeResult.Chain node)
                       (NodeResult.Address node) in
  match NodeResult.Error node with
  | Some err => Some (fail (connectionReason err))
  | None =>
      match ChainResult.ExpectedChainID result with
      | None => Some (validateGapDebug c result node)
      | Some expected =>
          match NodeResult.ChainID node with
          | None => None
          | Some chainID =>
              if negb (chainID =? expected)
              then Some (fail (chainIDReason expected chainID))
              else Some (validateGapDebug c result node)
          end
      end
  end.

(** Validate all nodes. *)
Fixpoint validateNodes (c : Checker) (result : ChainResult.t)
    (nodes : list NodeResult.t) : option ChainResult.t :=
  match nodes with
  | [] => Some result
  | node :: rest =>
      result' ← validateNode c result node;
      validateNodes c result' rest
  end.

(** *** checkBlockHashes *)

(** [blockHashNodes[blockNum][hash] = append(..., node.ID)], creating the
    inner map when it is nil. *)
Definition addHash (id : string) (blockHashNodes : gmap Z (gmap Hash (list string)))
    (entry : Z * Hash) : gmap Z (gmap Hash (list string)) :=
  let hashMap := default ∅ (blockHashNodes !! entry.1) in
  <[entry.1 := <[entry.2 := default [] (hashMap !! entry.2) ++ [id]]> hashMap]>
    blockHashNodes.

(** Build map of block number -> hash -> nodes that have this hash. *)
Fixpoint buildBlockHashNodes (ro : RangeOrder) (chain : string) (idx : nat)
    (nodes : list NodeResult.t)
    (blockHashNodes : gmap Z (gmap Hash (list string)))
    : gmap Z (gmap Hash (list string)) :=
  match nodes with
  | [] => blockHashNodes
  | node :: rest =>
      buildBlockHashNodes ro chain (S idx) rest
        match NodeResult.Error node with
        | Some _ => blockHashNodes                               (* continue *)
        | None =>
            foldl (addHash (NodeResult.ID node)) blockHashNodes
                  (range ro (SiteNodeHashes chain idx) _
                         (map_to_list (NodeResult.BlockHashes node)))
        end
  end.

(** Find majority hash: the pair of [majorityHash] and [maxCount] after the
    loop over [entries]. *)
Definition findMajority (entries : list (Hash * list string)) : Hash * Z :=
  foldl (fun acc entry =>
           if acc.2 <? Z.of_nat (length entry.2)
           then (entry.1, Z.of_nat (length entry.2)) else acc)
        (0%N, 0) entries.

(** Find node info: address and chain of the first node with this ID. *)
Fixpoint findNode (nodes : list NodeResult.t) (nodeID : string)
    : string * string :=
  match nodes with
  | [] => ("", "")
  | n :: rest =>
      if decide (NodeResult.ID n = nodeID)
      then (NodeResult.Address n, NodeResult.Chain n)              (* break *)
      else findNode rest nodeID
  end.

Definition hashReason (blockNum : Z) (hash majorityHash : Hash) : string :=
  "block hash mismatch at block " +:+ pretty blockNum +:+ ": got "
    +:+ Hex hash +:+ ", expected " +:+ Hex majorityHash.

Definition reportNode (blockNum : Z) (hash majorityHash : Hash)
    (result : ChainResult.t) (nodeID : string) : ChainResult.t :=
  let found := findNode (ChainResult.Nodes result) nodeID in
  failNode result nodeID found.2 found.1 (hashReason blockNum hash majorityHash).

(** Report nodes with different hashes. *)
Definition reportHash (blockNum : Z) (majorityHash : Hash)
    (result : ChainResult.t) (entry : Hash * list string) : ChainResult.t :=
  if decide (entry.1 = majorityHash) then result                  (* continue *)
  else foldl (reportNode blockNum entry.1 majorityHash) result entry.2.

(** For each block, find the majority hash and report nodes with different
    hashes. *)
Definition checkBlock (ro : RangeOrder) (result : ChainResult.t)
    (entry : Z * gmap Hash (list string)) : ChainResult.t :=
  let chain := ChainResult.Chain result in
  if decide (size entry.2 ≤ 1)%nat then result              (* All nodes agree *)
  else
    let majorityHash :=
      (findMajority (range ro (SiteMajority chain entry.1) _
                           (map_to_list entry.2))).1 in
    foldl (reportHash entry.1 majorityHash) result
          (range ro (SiteReport chain entry.1) _ (map_to_list entry.2)).

Definition checkBlockHashes (ro : RangeOrder) (result : ChainResult.t)
    : ChainResult.t :=
  let chain := ChainResult.Chain result in
  let blockHashNodes :=
    buildBlockHashNodes ro chain 0 (ChainResult.Nodes result) ∅ in
  foldl (checkBlock ro) result
        (range ro (SiteBlocks chain) _ (map_to_list blockHashNodes)).

(** The goroutines write disjoint slots of [result.Nodes], and the loops
    below start after [wg.Wait()]: the outcome is that of probing the nodes
    one by one. [net] gives the node behind each address. *)
Definition checkChain (c : Checker) (ro : RangeOrder) (net : string -> Endpoint)
    (chain : string) (nodes : list NodeInfo.t) : option ChainResult.t :=
  let probed :=
    (fun n => (checkNode c (net (NodeInfo.Address n)) n).1) <$> nodes in
  let result :=
    ChainResult.mk chain probed (expectedChainID probed)
                   (maxBlockNumber probed) [] true in
  result' ← validateNodes c result probed;
  Some (checkBlockHashes ro result').

(** *** Check *)

(** One iteration of the loop over the chains. *)
Definition checkOne (c : Checker) (ro : RangeOrder) (net : string -> Endpoint)
    (result : CheckResult.t) (entry : string * list NodeInfo.t)
    : option CheckResult.t :=
  chainResult ← checkChain c ro net entry.1 entry.2;
  Some (CheckResult.mk
          (CheckResult.ChainResults result ++ [chainResult])
          (CheckResult.FailedNodes result ++ ChainResult.FailedNodes chainResult)
          (if negb (ChainResult.Passed chainResult) then false
           else CheckResult.Passed result)).

Fixpoint checkAll (c : Checker) (ro : RangeOrder) (net : string -> Endpoint)
    (result : CheckResult.t) (entries : list (string * list NodeInfo.t))
    : option CheckResult.t :=
  match entries with
  | [] => Some result
  | entry :: rest =>
      result' ← checkOne c ro net result entry;
      checkAll c ro net result' rest
  end.

(** The pair that [Check] returns: the result and the (always nil) error. *)
Definition Check (c : Checker) (ro : RangeOrder) (net : string -> Endpoint)
    : option (CheckResult.t * error) :=
  let nodesByChain := GetNodesByChain (cfg c) in
  result ← checkAll c ro net (CheckResult.mk [] [] true)
                    (range ro SiteChains _ (map_to_list nodesByChain));
  Some (result, None).

End checker.

(** ** Package main *)

Module main.

Import config checker.

(** The flags of the command line that reach the checker. *)
Record Flags := mkFlags {
  max_block_gap : Z;
  block_hash_count : Z;
  skip_debug_check : bool;
}.

(** What [run] leaves behind: the result handed to [printResults], if
    [Check] was reached, and the error it returns. *)
Record Outcome := mkOutcome {
  report : option CheckResult.t;
  err : error;
}.

Definition run (ro : RangeOrder) (net : string -> Endpoint)
    (file : FileContent) (flags : Flags) : option Outcome :=
  match Load file with
  | inl e => Some (mkOutcome None (Some ("failed to load config: " +:+ e)))
  | inr cfg =>
      let opts :=
        {| MaxBlockGap := wrap64 (max_block_gap flags);
           BlockHashCount := block_hash_count flags;
           CheckDebugMode := negb (skip_debug_check flags) |} in
      let c := New cfg opts in
      checked ← Check c ro net;
      match checked.2 with
      | Some e => Some (mkOutcome None (Some ("check failed: " +:+ e)))
      | None =>
          if negb (CheckResult.Passed checked.1)
          then Some (mkOutcome (Some checked.1) (Some "some nodes failed checks"))
          else Some (mkOutcome (Some checked.1) None)
      end
  end.

(** *** printResults *)

(** The records that [printResults] hands to the logger, with their
    attributes: "chain results", "node OK", "failed nodes detected" and
    "node FAILED". *)
Inductive LogLine :=
| ChainResultsLine (chain : string) (chain_id : option Z)
                   (max_block_number total_nodes failed_nodes : Z)
| NodeOKLine (id chain : string) (block_number : Z) (debug_ok : bool)
| FailedNodesDetectedLine
| NodeFailedLine (id chain address reason : string).

(** Check if this node is in failed list. *)
Fixpoint inFailedList (failedNodes : list FailedNode.t) (address : string)
    : bool :=
  match failedNodes with
  | [] => false
  | fn :: rest =>
      if decide (FailedNode.Address fn = address) then true          (* break *)
      else inFailedList rest address
  end.

(** One iteration of the loop over the nodes of a chain result. *)
Definition printNode (chainResult : ChainResult.t) (node : NodeResult.t)
    : list LogLine :=
  match NodeResult.Error node with
  | Some _ => []                                                  (* continue *)
  | None =>
      if negb (inFailedList (ChainResult.FailedNodes chainResult)
                            (NodeResult.Address node))
      then [NodeOKLine (NodeResult.ID node) (NodeResult.Chain node)
                       (NodeResult.BlockNumber node) (NodeResult.DebugOK node)]
      else []
  end.

(** One iteration of the loop over the chain results. *)
Definition printChain (chainResult : ChainResult.t) : list LogLine :=
  ChainResultsLine (ChainResult.Chain chainResult)
                   (ChainResult.ExpectedChainID chainResult)
                   (ChainResult.MaxBlockNumber chainResult)
                   (Z.of_nat (length (ChainResult.Nodes chainResult)))
                   (Z.of_nat (length (ChainResult.FailedNodes chainResult)))
  :: (ChainResult.Nodes chainResult ≫= printNode chainResult).

Definition printFailed (fn : FailedNode.t) : LogLine :=
  NodeFailedLine (FailedNode.ID fn) (FailedNode.Chain fn)
                 (FailedNode.Address fn) (FailedNode.Reason fn).

(** The lines logged, in order. *)
Definition printResults (result : CheckResult.t) : list LogLine :=
  (CheckResult.ChainResults result ≫= printChain)
  ++ (if 0 <? Z.of_nat (length (CheckResult.FailedNodes result))
      then FailedNodesDetectedLine
             :: (printFailed <$> CheckResult.FailedNodes result)
      else []).

End main.

(** ** Vocabulary of the properties *)

Module props.

Import config checker main.

(** The kinds of failure records, told apart by how [Reason] starts. *)
Definition isConnection (fn : FailedNode.t) : bool :=
  String.prefix "connection error: " (FailedNode.Reason fn).

Definition isChainIDMismatch (fn : FailedNode.t) : bool :=
  String.prefix "chain ID mismatch: " (FailedNode.Reason fn).

Definition isBlockGap (fn : FailedNode.t) : bool :=
  String.prefix "block gap too large: " (FailedNode.Reason fn).

Definition isDebug (fn : FailedNode.t) : bool :=
  String.prefix debugReason (FailedNode.Reason fn).

Definition isHashMismatch (fn : FailedNode.t) : bool :=
  String.prefix "block hash mismatch at block " (FailedNode.Reason fn).

(** A hash-mismatch record that refers to the height [blockNum]. *)
Definition isHashMismatchAt (blockNum : Z) (fn : FailedNode.t) : bool :=
  String.prefix ("block hash mismatch at block " +:+ pretty blockNum +:+ ":")
                (FailedNode.Reason fn).

(** The hash a node contributes for a height: none when it failed. *)
Definition reports (node : NodeResult.t) (blockNum : Z) : option Hash :=
  match NodeResult.Error node with
  | None => NodeResult.BlockHashes node !! blockNum
  | Some _ => None
  end.

(** The IDs, in input order, of the nodes that report [hash] at [blockNum]. *)
Definition reporters (nodes : list NodeResult.t) (blockNum : Z) (hash : Hash)
    : list string :=
  NodeResult.ID <$> filter (fun n => reports n blockNum = Some hash) nodes.

(** The entry of [blockHashNodes[blockNum][hash]], nil when it is missing. *)
Definition voters (blockHashNodes : gmap Z (gmap Hash (list string)))
    (blockNum : Z) (hash : Hash) : list string :=
  default [] (default ∅ (blockHashNodes !! blockNum) !! hash).

(** [result] after the records [l] were appended to [FailedNodes], each
    append being followed by [Passed = false]. *)
Definition appendFailures (result : ChainResult.t) (l : list FailedNode.t)
    : ChainResult.t :=
  ChainResult.mk (ChainResult.Chain result) (ChainResult.Nodes result)
                 (ChainResult.ExpectedChainID result)
                 (ChainResult.MaxBlockNumber result)
                 (ChainResult.FailedNodes result ++ l)
                 (match l with [] => ChainResult.Passed result | _ => false end).

Definition failureOf (node : NodeResult.t) (reason : string) : FailedNode.t :=
  FailedNode.mk (NodeResult.ID node) (NodeResult.Chain node)
                (NodeResult.Address node) reason.

(** The records that the block-gap and debug-mode checks append. *)
Definition gapDebugFailure (c : Checker) (maxBlock : Z) (node : NodeResult.t)
    : list FailedNode.t :=
  let gap := sub64 maxBlock (NodeResult.BlockNumber node) in
  if MaxBlockGap (opts c) <? gap then
    [failureOf node (blockGapReason gap (MaxBlockGap (opts c)))]
  else if CheckDebugMode (opts c) && negb (NodeResult.DebugOK node) then
    [failureOf node debugReason]
  else [].

(** The records that one iteration of the validation loop appends. *)
Definition nodeFailure (c : Checker) (expected : option Z) (maxBlock : Z)
    (node : NodeResult.t) : list FailedNode.t :=
  match NodeResult.Error node with
  | Some err => [failureOf node (connectionReason err)]
  | None =>
      match expected, NodeResult.ChainID node with
      | Some expected, Some chainID =>
          if negb (chainID =? expected)
          then [failureOf node (chainIDReason expected chainID)]
          else gapDebugFailure c maxBlock node
      | _, _ => gapDebugFailure c maxBlock node
      end
  end.

(** The record that [reportNode] appends. *)
Definition mismatchRecord (nodes : list NodeResult.t) (blockNum : Z)
    (hash majorityHash : Hash) (nodeID : string) : FailedNode.t :=
  FailedNode.mk nodeID (findNode nodes nodeID).2 (findNode nodes nodeID).1
                (hashReason blockNum hash majorityHash).

(** The records that [reportHash] appends. *)
Definition entryRecords (nodes : list NodeResult.t) (blockNum : Z)
    (majorityHash : Hash) (entry : Hash * list string) : list FailedNode.t :=
  if decide (entry.1 = majorityHash) then []
  else mismatchRecord nodes blockNum entry.1 majorityHash <$> entry.2.

(** The records that [checkBlock] appends. *)
Definition blockRecords (ro : RangeOrder) (chain : string)
    (nodes : list NodeResult.t) (entry : Z * gmap Hash (list string))
    : list FailedNode.t :=
  if decide (size entry.2 ≤ 1)%nat then []
  else
    range ro (SiteReport chain entry.1) _ (map_to_list entry.2)
      ≫= entryRecords nodes entry.1
           (findMajority (range ro (SiteMajority chain entry.1) _
                                (map_to_list entry.2))).1.

(** The records that [checkBlockHashes] appends. *)
Definition hashRecords (ro : RangeOrder) (chain : string)
    (nodes : list NodeResult.t) : list FailedNode.t :=
  range ro (SiteBlocks chain) _
        (map_to_list (buildBlockHashNodes ro chain 0 nodes ∅))
    ≫= blockRecords ro chain nodes.

(** The results of probing the nodes of a chain. *)
Definition probe (c : Checker) (net : string -> Endpoint)
    (nodes : list NodeInfo.t) : list NodeResult.t :=
  (fun n => (checkNode c (net (NodeInfo.Address n)) n).1) <$> nodes.

(** What [checkNode] guarantees of a node without error. *)
Definition probed_ok (node : NodeResult.t) : Prop :=
  NodeResult.Error node = None → is_Some (NodeResult.ChainID node).

(** No hash of [blockHashNodes] is stored with an empty list of nodes. *)
Definition votes_wf (blockHashNodes : gmap Z (gmap Hash (list string))) : Prop :=
  ∀ blockNum hashMap hash ids,
    blockHashNodes !! blockNum = Some hashMap →
    hashMap !! hash = Some ids → ids ≠ [].

(** A node that completed without failure. *)
Definition succeeded (node : NodeResult.t) : Prop :=
  NodeResult.Error node = None.

Global Instance succeeded_dec node : Decision (succeeded node).
Proof. unfold succeeded. apply _. Defined.

(** The maximum height over the nodes without failure, 0 if there is none. *)
Definition spec_maxHeight (nodes : list NodeResult.t) : Z :=
  foldr Z.max 0 (NodeResult.BlockNumber <$> filter succeeded nodes).

(** The network identity of the first node, in input order, among those
    that completed without failure. *)
Definition spec_baseline (nodes : list NodeResult.t) : option Z :=
  head (filter succeeded nodes) ≫= NodeResult.ChainID.

(** A node that answers [eth_blockNumber] with a [uint64]. *)
Definition endpoint_uint64 (ep : Endpoint) : Prop :=
  ∀ blockNumber, eth_blockNumber ep = inr blockNumber → is_uint64 blockNumber.

(** The rules of the classification, as the specification words them. *)
Inductive Rule := RuleA | RuleB | RuleC | RuleD.

(** a. failure present. *)
Definition spec_rule_a (node : NodeResult.t) : bool :=
  bool_decide (NodeResult.Error node ≠ None).

(** b. baseline identity present and the node's identity differs. *)
Definition spec_rule_b (baseline : option Z) (node : NodeResult.t) : bool :=
  match baseline with
  | Some expected => bool_decide (NodeResult.ChainID node ≠ Some expected)
  | None => false
  end.

(** c. baseline height minus the node's height exceeds the maximum gap. *)
Definition spec_rule_c (c : Checker) (maxHeight : Z) (node : NodeResult.t)
    : bool :=
  bool_decide (maxHeight - NodeResult.BlockNumber node > MaxBlockGap (opts c)).

(** d. the trace check is enabled and the node is not trace capable. *)
Definition spec_rule_d (c : Checker) (node : NodeResult.t) : bool :=
  CheckDebugMode (opts c) && negb (NodeResult.DebugOK node).

(** The first rule, in the order a, b, c, d, that a node fails. *)
Definition spec_first_rule (c : Checker) (baseline : option Z) (maxHeight : Z)
    (node : NodeResult.t) : option Rule :=
  if spec_rule_a node then Some RuleA
  else if spec_rule_b baseline node then Some RuleB
  else if spec_rule_c c maxHeight node then Some RuleC
  else if spec_rule_d c node then Some RuleD
  else None.

(** [fn] is the record of [node] for [rule]. *)
Definition spec_record (rule : Rule) (node : NodeResult.t) (fn : FailedNode.t)
    : Prop :=
  (match rule with
   | RuleA => isConnection fn
   | RuleB => isChainIDMismatch fn
   | RuleC => isBlockGap fn
   | RuleD => isDebug fn
   end) = true
  ∧ FailedNode.ID fn = NodeResult.ID node
  ∧ FailedNode.Chain fn = NodeResult.Chain node
  ∧ FailedNode.Address fn = NodeResult.Address node.

(** The hash that a fetch of the block [target] contributes, if any. *)
Definition fetched (ep : Endpoint) (target : Z) : option Hash :=
  match eth_getBlockByNumber ep target with
  | BlockHeader hash => Some hash
  | _ => None
  end.

(** The values a Go [int] can hold. *)
Definition is_int (z : Z) : Prop := - 2 ^ 63 ≤ z < 2 ^ 63.

(** The connector URLs of a configuration, in the order of the file. *)
Definition allURLs (us : list Upstream) : list string :=
  us ≫= λ upstream, URL <$> Connectors upstream.

(** The configurations that [Load] accepts. *)
Definition well_formed (cfg : Config) : Prop :=
  Upstreams (UpstreamConfig_ cfg) ≠ []
  ∧ ("" ∉ allURLs (Upstreams (UpstreamConfig_ cfg)))
  ∧ NoDup (allURLs (Upstreams (UpstreamConfig_ cfg))).

(** The addresses of every chain of [result] occur, in order, in [urls]. *)
Definition grouped (result : gmap string (list NodeInfo.t))
    (urls : list string) : Prop :=
  ∀ chain nodes,
    result !! chain = Some nodes → NodeInfo.Address <$> nodes `sublist_of` urls.

(** [seen] holds exactly the URLs of [urls]. *)
Definition seen_of (seen : gmap string bool) (urls : list string) : Prop :=
  ∀ url, default false (seen !! url) = true ↔ url ∈ urls.

(** The nodes of the upstreams [us]: one per connector of type "json-rpc",
    in the order of the file. *)
Definition jsonRpcNodes (us : list Upstream) : list NodeInfo.t :=
  us ≫= λ upstream,
    (λ connector,
       NodeInfo.mk (ID upstream) (Chain upstream) (URL connector))
      <$> filter (λ connector, Type_ connector = "json-rpc")
                 (Connectors upstream).

(** The nodes of [nodes] that belong to [chain]. *)
Definition ofChain (chain : string) (nodes : list NodeInfo.t)
    : list NodeInfo.t :=
  filter (λ n, NodeInfo.Chain n = chain) nodes.

(** [result] holds, under every chain, the nodes of [nodes] of this chain,
    and no empty list. *)
Definition groups (result : gmap string (list NodeInfo.t))
    (nodes : list NodeInfo.t) : Prop :=
  ∀ chain,
    result !! chain
    = if decide (ofChain chain nodes = []) then None
      else Some (ofChain chain nodes).

(** Two nodes without failure report different hashes at [blockNum]. *)
Definition disagree (nodes : list NodeResult.t) (blockNum : Z) : Prop :=
  ∃ n1 n2 x y,
    n1 ∈ nodes ∧ n2 ∈ nodes
    ∧ reports n1 blockNum = Some x ∧ reports n2 blockNum = Some y ∧ x ≠ y.

(** No height of [blockHashNodes] is stored with an empty inner map. *)
Definition votes_inhabited (blockHashNodes : gmap Z (gmap Hash (list string)))
    : Prop :=
  ∀ blockNum hashMap, blockHashNodes !! blockNum = Some hashMap → hashMap ≠ ∅.

(** [url] occurs at two places of [urls]. *)
Definition twice (url : string) (urls : list string) : Prop :=
  ∃ l1 l2 l3, urls = l1 ++ url :: l2 ++ url :: l3.

(** A string without the character that ends the block number in a
    hash-mismatch reason. *)
Fixpoint colon_free (s : string) : Prop :=
  match s with
  | EmptyString => True
  | String a s' => a ≠ ":"%char ∧ colon_free s'
  end.

End props.

(** ** Concrete chains *)

Module examples.

Import config checker main.

(** A node that answers every call: chain ID [chainID], height
    [blockNumber], and [hashOf] for the hash of each block. *)
Definition healthy (chainID blockNumber : Z) (hashOf : Z -> Hash) : Endpoint :=
  {| dial := None;
     eth_chainId := inr chainID;
     eth_blockNumber := inr blockNumber;
     eth_getBlockByNumber := fun target => BlockHeader (hashOf target);
     debug_traceBlockByNumber := fun _ => None |}.

(** A node that refuses the connection. *)
Definition unreachable : Endpoint :=
  {| dial := Some "connection refused";
     eth_chainId := inl "closed";
     eth_blockNumber := inl "closed";
     eth_getBlockByNumber := fun _ => BlockCallError "closed";
     debug_traceBlockByNumber := fun _ => Some "closed" |}.

(** A node that answers the chain ID and then fails. *)
Definition stalling : Endpoint :=
  {| dial := None;
     eth_chainId := inr 5;
     eth_blockNumber := inl "timeout";
     eth_getBlockByNumber := fun _ => BlockCallError "timeout";
     debug_traceBlockByNumber := fun _ => Some "timeout" |}.

Definition canonical (target : Z) : Hash := Z.to_N target.
Definition forked (target : Z) : Hash :=
  if decide (target = 100) then 1100%N else Z.to_N target.

(** Three nodes at height 100; the node at address "b" has its own block
    100. *)
Definition forkNet (address : string) : Endpoint :=
  if decide (address = "b") then healthy 1 100 forked
  else healthy 1 100 canonical.

(** The node at "b" is on another network and has no blocks. *)
Definition strayNet (address : string) : Endpoint :=
  if decide (address = "b") then healthy 2 0 canonical
  else healthy 1 100 canonical.

(** The node at "b" is 20 blocks behind. *)
Definition lagNet (address : string) : Endpoint :=
  if decide (address = "b") then healthy 1 80 canonical
  else healthy 1 100 canonical.

(** No node can be reached. *)
Definition deadNet (address : string) : Endpoint := unreachable.

(** The node at "b" cannot be reached. *)
Definition downNet (address : string) : Endpoint :=
  if decide (address = "b") then unreachable
  else healthy 1 100 canonical.

(** The node at "b" is on a fork and has no debug API. *)
Definition forkNoDebugNet (address : string) : Endpoint :=
  if decide (address = "b") then
    {| dial := None; eth_chainId := inr 1; eth_blockNumber := inr 100;
       eth_getBlockByNumber := fun target => BlockHeader (forked target);
       debug_traceBlockByNumber := fun _ => Some "method not found" |}
  else healthy 1 100 canonical.

Definition threeNodes : list NodeInfo.t :=
  [NodeInfo.mk "n1" "eth" "a"; NodeInfo.mk "n2" "eth" "b";
   NodeInfo.mk "n3" "eth" "c"].

Definition twoNodes : list NodeInfo.t :=
  [NodeInfo.mk "n1" "eth" "a"; NodeInfo.mk "n2" "eth" "b"].

(** One upstream with two connectors, and a second upstream. *)
Definition sharedID : Config :=
  mkConfig (mkUpstreamConfig
    [mkUpstream "u1" "eth" [mkConnector "json-rpc" "a"; mkConnector "json-rpc" "b"];
     mkUpstream "u2" "eth" [mkConnector "json-rpc" "c"]]).

(** Two upstreams of different chains whose connectors share a URL. *)
Definition repeatedURL : Config :=
  mkConfig (mkUpstreamConfig
    [mkUpstream "u1" "eth" [mkConnector "json-rpc" "a"];
     mkUpstream "u2" "bsc" [mkConnector "ws" "a"]]).

(** An upstream whose only connector is not of the supported type. *)
Definition websocketOnly : Config :=
  mkConfig (mkUpstreamConfig [mkUpstream "u1" "eth" [mkConnector "ws" "a"]]).

Definition emptyConfig : Config := mkConfig (mkUpstreamConfig []).

Definition opts1 : Options :=
  {| MaxBlockGap := 10; BlockHashCount := 2; CheckDebugMode := true |}.

Definition checker1 : Checker := New emptyConfig opts1.

Definition defaultFlags : Flags :=
  {| max_block_gap := 10; block_hash_count := 5; skip_debug_check := false |}.

End examples.

(** ** Strings *)

Import config checker main props examples.

Section strings.

Lemma prefix_nil s : String.prefix "" s = true.
Proof. by destruct s. Qed.

Lemma prefix_cons a s1 b s2 :
  String.prefix (String a s1) (String b s2)
  = bool_decide (a = b) && String.prefix s1 s2.
Proof.
  cbn [String.prefix]. destruct (ascii_dec a b); case_bool_decide; done.
Qed.

(** Two prefixes of one string: one is a prefix of the other. *)
Lemma prefix_comparable p q s :
  String.prefix p s = true → String.prefix q s = true →
  String.prefix p q = true ∨ String.prefix q p = true.
Proof.
  revert q s. induction p as [|a p IH]; intros q s.
  { left. apply prefix_nil. }
  destruct q as [|b q]; [right; apply prefix_nil|].
  destruct s as [|ch s]; [done|].
  rewrite !prefix_cons, !andb_true_iff, !bool_decide_eq_true.
  intros [-> Hp] [-> Hq]. destruct (IH q s Hp Hq); auto.
Qed.

Lemma append_cons a s t : String a s +:+ t = String a (s +:+ t).
Proof. reflexivity. Qed.

Lemma prefix_app_same p a b :
  String.prefix (p +:+ a) (p +:+ b) = String.prefix a b.
Proof.
  induction p as [|ch p IH]; [done|]; rewrite !append_cons.
  rewrite prefix_cons, IH. by rewrite bool_decide_eq_true_2.
Qed.

Lemma prefix_app_intro p s : String.prefix p (p +:+ s) = true.
Proof.
  induction p as [|ch p IH]; [apply prefix_nil|].
  rewrite append_cons, prefix_cons, IH. by rewrite bool_decide_eq_true_2.
Qed.

Lemma prefix_app_weaken p q s :
  String.prefix (p +:+ q) s = true → String.prefix p s = true.
Proof.
  revert s. induction p as [|ch p IH]; intros s; [by rewrite prefix_nil|].
  destruct s as [|b s]; [done|]. rewrite append_cons.
  rewrite !prefix_cons, !andb_true_iff. intros [? ?]. split; [done|by apply IH].
Qed.

Lemma pretty_N_go_colon_free x s :
  colon_free s → colon_free (pretty_N_go x s).
Proof.
  revert s. induction (N.lt_wf_0 x) as [x _ IH]; intros s Hs.
  destruct (decide (0 < x)%N) as [Hx|Hx].
  - rewrite pretty_N_go_step by done.
    apply IH; [by apply N.div_lt|].
    split; [|done]. unfold pretty_N_char. by repeat case_match.
  - assert (x = 0%N) as -> by lia. by rewrite pretty_N_go_0.
Qed.

Lemma pretty_N_colon_free (x : N) : colon_free (pretty x).
Proof.
  unfold pretty, pretty_N. case_decide.
  - by split.
  - by apply pretty_N_go_colon_free.
Qed.

Lemma pretty_Z_colon_free (z : Z) : colon_free (pretty z).
Proof.
  destruct z as [|p|p]; unfold pretty, pretty_Z.
  - by split.
  - apply pretty_N_colon_free.
  - split; [done|]. apply pretty_N_colon_free.
Qed.

Lemma colon_free_prefix s1 s2 a b :
  colon_free s1 → colon_free s2 →
  String.prefix (s1 +:+ String ":" a) (s2 +:+ String ":" b) = true →
  s1 = s2.
Proof.
  revert s2. induction s1 as [|c1 s1 IH]; intros [|c2 s2] H1 H2;
    rewrite ?append_cons; change ("" +:+ String ":" ?x) with (String ":" x);
    rewrite ?prefix_cons, ?andb_true_iff, ?bool_decide_eq_true.
  - done.
  - destruct H2 as [Hc _]. intros [? _]. congruence.
  - destruct H1 as [Hc _]. intros [? _]. congruence.
  - destruct H1 as [_ H1], H2 as [_ H2].
    intros [-> Hp]. f_equal. by apply IH.
Qed.

(** A hash-mismatch reason refers to one height only. *)
Lemma hashReason_at h h' hash majorityHash fn :
  FailedNode.Reason fn = hashReason h' hash majorityHash →
  isHashMismatchAt h fn = bool_decide (h = h').
Proof.
  intros Hr. unfold isHashMismatchAt, hashReason in *. rewrite Hr.
  rewrite prefix_app_same.
  case_bool_decide as Hh.
  - subst h'. change (": got " +:+ ?s) with (":" +:+ (" got " +:+ s)).
    rewrite prefix_app_same. done.
  - apply not_true_is_false. intros Hp. apply Hh.
    apply (inj (pretty : Z → string)).
    eapply (colon_free_prefix _ _ "" _); [apply pretty_Z_colon_free..|].
    exact Hp.
Qed.

Lemma isHashMismatchAt_weaken h fn :
  isHashMismatchAt h fn = true → isHashMismatch fn = true.
Proof. apply prefix_app_weaken. Qed.

Lemma hashReason_isHashMismatch h hash majorityHash fn :
  FailedNode.Reason fn = hashReason h hash majorityHash →
  isHashMismatch fn = true.
Proof.
  intros Hr. apply (isHashMismatchAt_weaken h).
  rewrite (hashReason_at h h hash majorityHash) by done.
  by apply bool_decide_eq_true.
Qed.

End strings.

(** ** The validation loop *)

Section validation.

Context (c : Checker).

Lemma appendFailures_nil r : appendFailures r [] = r.
Proof. destruct r. unfold appendFailures. simpl. by rewrite app_nil_r. Qed.

Lemma appendFailures_app r l1 l2 :
  appendFailures (appendFailures r l1) l2 = appendFailures r (l1 ++ l2).
Proof.
  unfold appendFailures. simpl. rewrite app_assoc.
  by destruct l1, l2.
Qed.

Lemma failNode_append r node reason :
  failNode r (NodeResult.ID node) (NodeResult.Chain node)
           (NodeResult.Address node) reason
  = appendFailures r [failureOf node reason].
Proof. reflexivity. Qed.

(** A loop whose body only appends records appends their concatenation. *)
Lemma foldl_appendFailures {E} (f : ChainResult.t → E → ChainResult.t)
    (g : string → list NodeResult.t → E → list FailedNode.t) :
  (∀ r e, f r e
          = appendFailures r (g (ChainResult.Chain r) (ChainResult.Nodes r) e)) →
  ∀ l r, foldl f r l
         = appendFailures r
             (l ≫= g (ChainResult.Chain r) (ChainResult.Nodes r)).
Proof.
  intros Hf. induction l as [|e l IH]; intros r; simpl.
  - by rewrite appendFailures_nil.
  - rewrite IH, Hf, appendFailures_app. done.
Qed.

Lemma validateGapDebug_append r node :
  validateGapDebug c r node
  = appendFailures r (gapDebugFailure c (ChainResult.MaxBlockNumber r) node).
Proof.
  unfold validateGapDebug, gapDebugFailure.
  repeat case_match; rewrite ?failNode_append, ?appendFailures_nil; done.
Qed.

Lemma validateNode_append r node :
  probed_ok node →
  validateNode c r node
  = Some (appendFailures r
            (nodeFailure c (ChainResult.ExpectedChainID r)
                         (ChainResult.MaxBlockNumber r) node)).
Proof.
  intros Hok. unfold validateNode, nodeFailure.
  destruct (NodeResult.Error node) as [err|] eqn:He.
  - by rewrite failNode_append.
  - destruct (Hok He) as [chainID ->].
    destruct (ChainResult.ExpectedChainID r) as [expected|].
    + case_match; by rewrite ?failNode_append, ?validateGapDebug_append.
    + by rewrite validateGapDebug_append.
Qed.

Lemma validateNodes_append r nodes :
  Forall probed_ok nodes →
  validateNodes c r nodes
  = Some (appendFailures r
            (nodes ≫= nodeFailure c (ChainResult.ExpectedChainID r)
                                   (ChainResult.MaxBlockNumber r))).
Proof.
  intros Hok. revert r.
  induction Hok as [|node nodes Hnode _ IH]; intros r; simpl.
  - by rewrite appendFailures_nil.
  - rewrite validateNode_append by done. simpl.
    rewrite IH, appendFailures_app. done.
Qed.

End validation.

(** ** The probe *)

Section probing.

Context (c : Checker).

Lemma checkNode_ok ep n : probed_ok (checkNode c ep n).1.
Proof.
  unfold probed_ok, checkNode.
  repeat case_match; simpl; try done; by eauto.
Qed.

Lemma probe_ok net nodes : Forall probed_ok (probe c net nodes).
Proof.
  unfold probe. apply Forall_fmap, Forall_true. intros n.
  apply checkNode_ok.
Qed.

Lemma checkNode_descriptor ep n :
  NodeResult.ID (checkNode c ep n).1 = NodeInfo.ID n
  ∧ NodeResult.Chain (checkNode c ep n).1 = NodeInfo.Chain n
  ∧ NodeResult.Address (checkNode c ep n).1 = NodeInfo.Address n.
Proof. unfold checkNode. repeat case_match; done. Qed.

End probing.

(** ** The second pass *)

Section reconciliation.

Context (ro : RangeOrder).

Lemma reportNode_append blockNum hash majorityHash r nodeID :
  reportNode blockNum hash majorityHash r nodeID
  = appendFailures r
      [mismatchRecord (ChainResult.Nodes r) blockNum hash majorityHash nodeID].
Proof. reflexivity. Qed.

Lemma reportHash_append blockNum majorityHash r entry :
  reportHash blockNum majorityHash r entry
  = appendFailures r
      (entryRecords (ChainResult.Nodes r) blockNum majorityHash entry).
Proof.
  unfold reportHash, entryRecords. case_decide.
  - by rewrite appendFailures_nil.
  - rewrite (foldl_appendFailures _
      (λ _ nodes id, [mismatchRecord nodes blockNum entry.1 majorityHash id]))
      by (intros; apply reportNode_append).
    reflexivity.
Qed.

Lemma checkBlock_append r entry :
  checkBlock ro r entry
  = appendFailures r
      (blockRecords ro (ChainResult.Chain r) (ChainResult.Nodes r) entry).
Proof.
  unfold checkBlock, blockRecords. case_decide.
  - by rewrite appendFailures_nil.
  - by rewrite (foldl_appendFailures _
      (λ _ nodes e, entryRecords nodes entry.1
         (findMajority (range ro (SiteMajority (ChainResult.Chain r) entry.1) _
                              (map_to_list entry.2))).1 e))
      by (intros; apply reportHash_append).
Qed.

Lemma checkBlockHashes_append r :
  checkBlockHashes ro r
  = appendFailures r
      (hashRecords ro (ChainResult.Chain r) (ChainResult.Nodes r)).
Proof.
  unfold checkBlockHashes, hashRecords.
  by rewrite (foldl_appendFailures _ (blockRecords ro))
    by (intros; apply checkBlock_append).
Qed.

(** [checkChain] always returns: the records of the validation loop,
    followed by those of [checkBlockHashes]. *)
Lemma checkChain_shape c net chain nodes :
  checkChain c ro net chain nodes
  = Some (appendFailures
            (ChainResult.mk chain (probe c net nodes)
               (expectedChainID (probe c net nodes))
               (maxBlockNumber (probe c net nodes)) [] true)
            ((probe c net nodes
                ≫= nodeFailure c (expectedChainID (probe c net nodes))
                                 (maxBlockNumber (probe c net nodes)))
             ++ hashRecords ro chain (probe c net nodes))).
Proof.
  unfold checkChain. fold (probe c net nodes).
  rewrite validateNodes_append by apply probe_ok. simpl.
  rewrite checkBlockHashes_append, appendFailures_app. done.
Qed.

End reconciliation.

(** ** The map of votes *)

Section votes.

Context (ro : RangeOrder).

Lemma addHash_voters id M entry h x :
  voters (addHash id M entry) h x
  = voters M h x ++ (if decide (entry = (h, x)) then [id] else []).
Proof.
  destruct entry as [h' x']. unfold voters, addHash. simpl.
  destruct (decide (h' = h)) as [->|Hh].
  - rewrite lookup_insert_eq. simpl.
    destruct (decide (x' = x)) as [->|Hx].
    + rewrite lookup_insert_eq. simpl. by rewrite decide_True.
    + rewrite lookup_insert_ne by done.
      rewrite decide_False by congruence. by rewrite app_nil_r.
  - rewrite lookup_insert_ne by done.
    rewrite decide_False by congruence. by rewrite app_nil_r.
Qed.

Lemma addHash_wf id M entry : votes_wf M → votes_wf (addHash id M entry).
Proof.
  intros Hwf h hm x l. unfold addHash.
  destruct (decide (entry.1 = h)) as [<-|Hh].
  - rewrite lookup_insert_eq. intros [= <-].
    destruct (decide (entry.2 = x)) as [<-|Hx].
    + rewrite lookup_insert_eq. intros [= <-]. by destruct (default [] _).
    + rewrite lookup_insert_ne by done.
      destruct (M !! entry.1) as [hm|] eqn:HM; simpl; [|done].
      by apply (Hwf entry.1).
  - rewrite lookup_insert_ne by done. apply Hwf.
Qed.

Lemma foldl_addHash_wf id l M :
  votes_wf M → votes_wf (foldl (addHash id) M l).
Proof.
  revert M. induction l as [|e l IH]; intros M HM; simpl; [done|].
  by apply IH, addHash_wf.
Qed.

Lemma foldl_addHash_voters id (l : list (Z * Hash)) M h x :
  NoDup l.*1 →
  voters (foldl (addHash id) M l) h x
  = voters M h x ++ (if decide ((h, x) ∈ l) then [id] else []).
Proof.
  revert M. induction l as [|e l IH]; intros M Hnd.
  - simpl. by rewrite app_nil_r.
  - change (foldl (addHash id) M (e :: l))
      with (foldl (addHash id) (addHash id M e) l).
    rewrite fmap_cons in Hnd. apply NoDup_cons in Hnd as [Hfresh Hnd].
    rewrite IH, addHash_voters, <-app_assoc by done. f_equal.
    assert (e = (h, x) → (h, x) ∉ l) as Hfresh'.
    { intros -> Hin. apply Hfresh. apply list_elem_of_fmap. by exists (h, x). }
    destruct (decide (e = (h, x))) as [He|He];
      destruct (decide ((h, x) ∈ l)) as [Hin|Hin];
      destruct (decide ((h, x) ∈ e :: l)) as [Hin'|Hin'];
      try done; exfalso.
    + by apply Hfresh'.
    + by apply Hfresh'.
    + apply Hin'. subst e. apply list_elem_of_here.
    + apply Hin'. by apply list_elem_of_further.
    + apply elem_of_cons in Hin' as [?|?]; congruence.
Qed.

(** The entries a [range] over a map visits. *)
Lemma range_map_to_list `{Countable K} {A} site (m : gmap K A) :
  NoDup (range ro site _ (map_to_list m)).*1
  ∧ ∀ k v, (k, v) ∈ range ro site _ (map_to_list m) ↔ m !! k = Some v.
Proof.
  split.
  - rewrite (range_perm ro site _ (map_to_list m)).
    apply NoDup_fst_map_to_list.
  - intros k v. rewrite (range_perm ro site _ (map_to_list m)).
    apply elem_of_map_to_list.
Qed.

Lemma build_wf chain nodes idx M :
  votes_wf M → votes_wf (buildBlockHashNodes ro chain idx nodes M).
Proof.
  revert idx M. induction nodes as [|node nodes IH]; intros idx M HM; simpl.
  - done.
  - apply IH. case_match; [done|]. by apply foldl_addHash_wf.
Qed.

(** After the first loop of [checkBlockHashes], the nodes stored under a
    height and a hash are the successful nodes that reported this hash at
    this height, in input order. *)
Lemma build_voters chain nodes idx M h x :
  voters (buildBlockHashNodes ro chain idx nodes M) h x
  = voters M h x ++ reporters nodes h x.
Proof.
  revert idx M. induction nodes as [|node nodes IH]; intros idx M; simpl.
  - unfold reporters. simpl. by rewrite app_nil_r.
  - rewrite IH. unfold reporters at 2. rewrite filter_cons.
    fold (reporters nodes h x).
    destruct (NodeResult.Error node) as [err|] eqn:He.
    + rewrite decide_False; [done|]. unfold reports. by rewrite He.
    + destruct (range_map_to_list (SiteNodeHashes chain idx)
                  (NodeResult.BlockHashes node)) as [Hnd Hin].
      rewrite foldl_addHash_voters, <-app_assoc by done. f_equal.
      assert (reports node h = NodeResult.BlockHashes node !! h) as Hrep
        by (unfold reports; by rewrite He).
      destruct (decide (reports node h = Some x)) as [Hr|Hr];
        rewrite Hrep, <-Hin in Hr.
      * by rewrite decide_True.
      * by rewrite decide_False.
Qed.

Lemma empty_wf : votes_wf ∅.
Proof. intros h hm x l. by rewrite lookup_empty. Qed.

(** The inner map of a height, in terms of the reporting nodes. *)
Lemma build_lookup chain nodes h hm x :
  buildBlockHashNodes ro chain 0 nodes ∅ !! h = Some hm →
  hm !! x = (if decide (reporters nodes h x = []) then None
             else Some (reporters nodes h x)).
Proof.
  intros HM.
  pose proof (build_voters chain nodes 0 ∅ h x) as Hv.
  pose proof (build_wf chain nodes 0 ∅ empty_wf h hm x) as Hwf.
  unfold voters in Hv. rewrite HM, lookup_empty in Hv. simpl in Hv.
  rewrite lookup_empty in Hv. simpl in Hv. rewrite <-Hv.
  destruct (hm !! x) as [l|] eqn:Hl.
  - rewrite decide_False; [done|]. by eapply Hwf.
  - by rewrite decide_True.
Qed.

End votes.

(** ** The records of one height *)

Section heights.

Context (ro : RangeOrder) (chain : string) (nodes : list NodeResult.t).

Lemma filter_Forall_all {A} (P : A → Prop) `{∀ x, Decision (P x)} l :
  Forall P l → filter P l = l.
Proof.
  induction 1 as [|x l Hx _ IH]; [done|].
  by rewrite filter_cons_True, IH.
Qed.

Lemma filter_Forall_none {A} (P : A → Prop) `{∀ x, Decision (P x)} l :
  Forall (λ x, ¬P x) l → filter P l = [].
Proof.
  induction 1 as [|x l Hx _ IH]; [done|].
  by rewrite filter_cons_False, IH.
Qed.

(** Where a record of [checkBlock] comes from. *)
Lemma blockRecords_inv entry fn :
  fn ∈ blockRecords ro chain nodes entry →
  ∃ hash ids majorityHash id,
    entry.2 !! hash = Some ids ∧ id ∈ ids ∧ hash ≠ majorityHash
    ∧ fn = mismatchRecord nodes entry.1 hash majorityHash id.
Proof.
  unfold blockRecords. case_decide; [by intros ?%not_elem_of_nil|].
  intros [[hash ids] [Hfn He]]%list_elem_of_bind.
  unfold entryRecords in Hfn. simpl in Hfn.
  case_decide; [by apply not_elem_of_nil in Hfn|].
  apply list_elem_of_fmap in Hfn as [id [-> Hid]].
  eexists hash, ids, _, id. split_and!; [|done|done|done].
  by apply (range_map_to_list ro) in He.
Qed.

Lemma blockRecords_filter h entry :
  filter (λ fn, isHashMismatchAt h fn) (blockRecords ro chain nodes entry)
  = if decide (h = entry.1) then blockRecords ro chain nodes entry else [].
Proof.
  case_decide as Hh.
  - apply filter_Forall_all, Forall_forall. intros fn Hfn.
    apply blockRecords_inv in Hfn as (hash & ids & maj & id & _ & _ & _ & ->).
    rewrite (hashReason_at h entry.1 hash maj) by reflexivity.
    by rewrite bool_decide_eq_true_2.
  - apply filter_Forall_none, Forall_forall. intros fn Hfn.
    apply blockRecords_inv in Hfn as (hash & ids & maj & id & _ & _ & _ & ->).
    rewrite (hashReason_at h entry.1 hash maj) by reflexivity.
    rewrite bool_decide_eq_false_2 by done. intros [].
Qed.

Lemma bind_filter_absent h (l : list (Z * gmap Hash (list string))) :
  h ∉ l.*1 →
  filter (λ fn, isHashMismatchAt h fn) (l ≫= blockRecords ro chain nodes) = [].
Proof.
  induction l as [|e l IH]; [done|].
  rewrite fmap_cons, not_elem_of_cons. intros [Hne Hl].
  rewrite bind_cons, filter_app, blockRecords_filter, IH by done.
  by rewrite decide_False.
Qed.

Lemma bind_filter_present h hm (l : list (Z * gmap Hash (list string))) :
  NoDup l.*1 → (h, hm) ∈ l →
  filter (λ fn, isHashMismatchAt h fn) (l ≫= blockRecords ro chain nodes)
  = blockRecords ro chain nodes (h, hm).
Proof.
  induction l as [|e l IH]; [by intros _ ?%not_elem_of_nil|].
  rewrite fmap_cons, NoDup_cons. intros [Hfresh Hnd] Hin.
  rewrite bind_cons, filter_app, blockRecords_filter.
  apply elem_of_cons in Hin as [<-|Hin].
  - rewrite decide_True by done.
    rewrite bind_filter_absent by done. by rewrite app_nil_r.
  - rewrite decide_False, IH; [done..|].
    intros ->. apply Hfresh. apply list_elem_of_fmap. by exists (e.1, hm).
Qed.

(** The hash-mismatch records of a height are those of its own entry of
    [blockHashNodes]. *)
Lemma hashRecords_filter h :
  filter (λ fn, isHashMismatchAt h fn) (hashRecords ro chain nodes)
  = match buildBlockHashNodes ro chain 0 nodes ∅ !! h with
    | Some hm => blockRecords ro chain nodes (h, hm)
    | None => []
    end.
Proof.
  unfold hashRecords.
  destruct (range_map_to_list ro (SiteBlocks chain)
              (buildBlockHashNodes ro chain 0 nodes ∅)) as [Hnd Hin].
  destruct (buildBlockHashNodes ro chain 0 nodes ∅ !! h) as [hm|] eqn:HM.
  - apply bind_filter_present; [done|]. by apply Hin.
  - apply bind_filter_absent.
    intros [[k hm] [-> Hk]]%list_elem_of_fmap. apply Hin in Hk. simpl in HM.
    congruence.
Qed.

(** The records of the validation loop are no hash-mismatch records. *)
Lemma nodeFailure_kind c expected maxBlock node fn :
  fn ∈ nodeFailure c expected maxBlock node →
  isHashMismatch fn = false
  ∧ FailedNode.ID fn = NodeResult.ID node
  ∧ FailedNode.Chain fn = NodeResult.Chain node
  ∧ FailedNode.Address fn = NodeResult.Address node.
Proof.
  unfold nodeFailure, gapDebugFailure.
  repeat case_match; try (by intros ?%not_elem_of_nil);
    intros ->%list_elem_of_singleton; by split_and!.
Qed.

Lemma hashRecords_kind fn :
  fn ∈ hashRecords ro chain nodes → isHashMismatch fn = true.
Proof.
  intros [entry [Hfn _]]%list_elem_of_bind.
  apply blockRecords_inv in Hfn as (hash & ids & maj & id & _ & _ & _ & ->).
  by eapply hashReason_isHashMismatch.
Qed.

End heights.

(** ** Agreement and dissent at one height *)

Section voting.

Context (ro : RangeOrder) (chain : string) (nodes : list NodeResult.t).

Lemma reporters_nonempty h x :
  reporters nodes h x ≠ [] → ∃ n, n ∈ nodes ∧ reports n h = Some x.
Proof.
  unfold reporters.
  destruct (filter _ nodes) as [|n l] eqn:Hf; [done|]. intros _.
  assert (n ∈ filter (λ n, reports n h = Some x) nodes) as Hn
    by (rewrite Hf; apply list_elem_of_here).
  apply list_elem_of_filter in Hn as [? ?]. by exists n.
Qed.

Lemma size_le_1 {A} (hm : gmap Hash A) x0 :
  (∀ x, is_Some (hm !! x) → x = x0) → (size hm ≤ 1)%nat.
Proof.
  intros Hkeys.
  assert (∀ x, x ≠ x0 → hm !! x = None) as Hnone.
  { intros x Hx. destruct (hm !! x) eqn:Hl; [|done].
    destruct Hx. apply Hkeys. by rewrite Hl. }
  destruct (hm !! x0) as [l|] eqn:H0.
  - assert (hm = {[x0 := l]}) as ->; [|by rewrite map_size_singleton].
    apply map_eq. intros x. destruct (decide (x = x0)) as [->|Hx].
    + by rewrite lookup_singleton_eq.
    + rewrite lookup_singleton_ne by done. by apply Hnone.
  - assert (hm = ∅) as ->; [|rewrite map_size_empty; lia].
    apply map_eq. intros x. rewrite lookup_empty.
    destruct (decide (x = x0)) as [->|Hx]; [done|by apply Hnone].
Qed.

(** All reporting nodes agree: nothing is recorded for the height. *)
Lemma unanimous_records h x0 :
  (∀ n y, n ∈ nodes → reports n h = Some y → y = x0) →
  filter (λ fn, isHashMismatchAt h fn) (hashRecords ro chain nodes) = [].
Proof.
  intros Hall. rewrite hashRecords_filter.
  destruct (buildBlockHashNodes ro chain 0 nodes ∅ !! h) as [hm|] eqn:HM;
    [|done].
  unfold blockRecords. rewrite decide_True; [done|]. simpl.
  apply (size_le_1 _ x0). intros x [ids Hx].
  rewrite (build_lookup ro chain nodes h hm x HM) in Hx.
  case_decide as Hr; [done|].
  apply reporters_nonempty in Hr as (n & Hn & Hrep). by eapply Hall.
Qed.

Lemma findMajority_clear d m (id : string) (ids : list string) :
  (2 ≤ length ids)%nat →
  (findMajority [(d, [id]); (m, ids)]).1 = m
  ∧ (findMajority [(m, ids); (d, [id])]).1 = m.
Proof.
  intros Hlen. unfold findMajority. simpl.
  destruct (Z.ltb_spec (Z.of_nat 1) (Z.of_nat (length ids))); [|lia].
  destruct (Z.ltb_spec 0 (Z.of_nat (length ids))); [|lia]. simpl.
  destruct (Z.ltb_spec (Z.of_nat (length ids)) (Z.of_nat 1)); [lia|done].
Qed.

(** With equal counts the hash visited first stays the majority. *)
Lemma findMajority_tie d m (id id' : string) :
  (findMajority [(d, [id]); (m, [id'])]).1 = d
  ∧ (findMajority [(m, [id']); (d, [id])]).1 = m.
Proof. by split. Qed.

(** The reporters of each hash when the node at position [i] is the only
    one that does not report [m]. *)
Lemma dissent_reporters i dn d m h :
  nodes !! i = Some dn → reports dn h = Some d → d ≠ m →
  (∀ j n y, nodes !! j = Some n → j ≠ i → reports n h = Some y → y = m) →
  reporters nodes h d = [NodeResult.ID dn]
  ∧ ∀ x, x ≠ d → x ≠ m → reporters nodes h x = [].
Proof.
  intros Hi Hd Hdm Hrest. split.
  - unfold reporters. rewrite <-(take_drop_middle nodes i dn Hi).
    rewrite filter_app, filter_cons_True by done.
    rewrite !filter_Forall_none; [done|..].
    + apply Forall_lookup. intros j n Hj Hrep. rewrite lookup_drop in Hj.
      apply Hdm. eapply (Hrest _ n); [done|lia|done].
    + apply Forall_lookup. intros j n Hj Hrep.
      apply lookup_take_Some in Hj as [Hj Hlt].
      apply Hdm. eapply (Hrest _ n); [done|lia|done].
  - intros x Hxd Hxm. unfold reporters.
    rewrite filter_Forall_none; [done|].
    apply Forall_lookup. intros j n Hj Hrep.
    destruct (decide (j = i)) as [->|Hji].
    + rewrite Hi in Hj. injection Hj as <-. congruence.
    + apply Hxm. by eapply (Hrest j n).
Qed.

(** The inner map of a height with one dissenting node. *)
Lemma dissent_hashMap i dn d m h :
  nodes !! i = Some dn → reports dn h = Some d → d ≠ m →
  (∀ j n y, nodes !! j = Some n → j ≠ i → reports n h = Some y → y = m) →
  reporters nodes h m ≠ [] →
  buildBlockHashNodes ro chain 0 nodes ∅ !! h
  = Some (<[d := [NodeResult.ID dn]]> {[m := reporters nodes h m]}).
Proof.
  intros Hi Hd Hdm Hrest Hm.
  destruct (dissent_reporters i dn d m h Hi Hd Hdm Hrest) as [Hrd Hrx].
  destruct (buildBlockHashNodes ro chain 0 nodes ∅ !! h) as [hm|] eqn:HM.
  - f_equal. apply map_eq. intros x.
    rewrite (build_lookup ro chain nodes h hm x HM).
    destruct (decide (x = d)) as [->|Hxd].
    + rewrite lookup_insert_eq, Hrd. by rewrite decide_False.
    + rewrite lookup_insert_ne by done.
      destruct (decide (x = m)) as [->|Hxm].
      * rewrite lookup_singleton_eq. by rewrite decide_False.
      * rewrite lookup_singleton_ne by done.
        rewrite decide_True; [done|]. by apply Hrx.
  - pose proof (build_voters ro chain nodes 0 ∅ h d) as Hv.
    unfold voters in Hv. rewrite HM, Hrd in Hv. simpl in Hv.
    rewrite !lookup_empty in Hv. done.
Qed.

(** The entries of that map, as any [range] visits them. *)
Lemma dissent_range site (d m : Hash) (id : string) (ids : list string) :
  d ≠ m →
  let l := range ro site _
             (map_to_list (<[d := [id]]> ({[m := ids]}
                             : gmap Hash (list string)))) in
  l = [(d, [id]); (m, ids)] ∨ l = [(m, ids); (d, [id])].
Proof.
  intros Hdm l. apply Permutation_length_2_inv. symmetry. subst l.
  rewrite range_perm.
  rewrite map_to_list_insert by (by rewrite lookup_singleton_ne).
  by rewrite map_to_list_singleton.
Qed.

Lemma dissent_size (d m : Hash) (id : string) (ids : list string) :
  d ≠ m → size (<[d := [id]]> ({[m := ids]} : gmap Hash (list string))) = 2%nat.
Proof.
  intros Hdm. rewrite map_size_insert_None by (by rewrite lookup_singleton_ne).
  by rewrite map_size_singleton.
Qed.

(** One node dissents and at least two agree: the dissenting node, and no
    other, is recorded for the height. *)
Lemma dissent_records i dn d m h :
  nodes !! i = Some dn → reports dn h = Some d → d ≠ m →
  (∀ j n y, nodes !! j = Some n → j ≠ i → reports n h = Some y → y = m) →
  (2 ≤ length (reporters nodes h m))%nat →
  filter (λ fn, isHashMismatchAt h fn) (hashRecords ro chain nodes)
  = [mismatchRecord nodes h d m (NodeResult.ID dn)].
Proof.
  intros Hi Hd Hdm Hrest Hlen. rewrite hashRecords_filter.
  rewrite (dissent_hashMap i dn d m h)
    by (try done; intros Heq; rewrite Heq in Hlen; simpl in Hlen; lia).
  unfold blockRecords. simpl.
  rewrite dissent_size, decide_False by (done || lia).
  destruct (findMajority_clear d m (NodeResult.ID dn) _ Hlen) as [Hm1 Hm2].
  assert ((findMajority (range ro (SiteMajority chain h) _
             (map_to_list (<[d := [NodeResult.ID dn]]>
                             {[m := reporters nodes h m]})))).1 = m) as ->.
  { by destruct (dissent_range (SiteMajority chain h) d m (NodeResult.ID dn)
                   (reporters nodes h m) Hdm) as [-> | ->]. }
  destruct (dissent_range (SiteReport chain h) d m (NodeResult.ID dn)
              (reporters nodes h m) Hdm) as [-> | ->];
    simpl; unfold entryRecords; simpl;
    destruct (decide (d = m)); try done;
    destruct (decide (m = m)); try done.
Qed.

End voting.

Section ties.

Context (ro : RangeOrder) (chain : string) (nodes : list NodeResult.t).

(** One node reports [d] and one other node reports [m]: the majority is
    the hash visited first, and the node of the other hash is recorded. *)
Lemma tie_records i dn d m h id' :
  nodes !! i = Some dn → reports dn h = Some d → d ≠ m →
  (∀ j n y, nodes !! j = Some n → j ≠ i → reports n h = Some y → y = m) →
  reporters nodes h m = [id'] →
  filter (λ fn, isHashMismatchAt h fn) (hashRecords ro chain nodes)
    = [mismatchRecord nodes h d m (NodeResult.ID dn)]
  ∨ filter (λ fn, isHashMismatchAt h fn) (hashRecords ro chain nodes)
    = [mismatchRecord nodes h m d id'].
Proof.
  intros Hi Hd Hdm Hrest Hm. rewrite hashRecords_filter.
  rewrite (dissent_hashMap ro chain nodes i dn d m h)
    by (try done; by rewrite Hm).
  unfold blockRecords. simpl.
  rewrite dissent_size, decide_False by (done || lia). rewrite Hm.
  destruct (dissent_range ro (SiteMajority chain h) d m (NodeResult.ID dn)
              [id'] Hdm) as [-> | ->];
    destruct (dissent_range ro (SiteReport chain h) d m (NodeResult.ID dn)
                [id'] Hdm) as [-> | ->];
    simpl; unfold entryRecords; simpl;
    destruct (decide (d = m)); try done;
    destruct (decide (m = m)); try done;
    destruct (decide (d = d)); try done;
    destruct (decide (m = d)); try done; auto.
Qed.

(** The validation loop records nothing for a height. *)
Lemma nodeFailure_filter c expected maxBlock h :
  filter (λ fn, isHashMismatchAt h fn)
         (nodes ≫= nodeFailure c expected maxBlock) = [].
Proof.
  apply filter_Forall_none, Forall_forall.
  intros fn [node [Hfn _]]%list_elem_of_bind Hat.
  apply nodeFailure_kind in Hfn as [Hkind _].
  apply Is_true_true, isHashMismatchAt_weaken in Hat. congruence.
Qed.

End ties.

(** ** The baselines *)

Section baselines.

Lemma maxBlockNumber_foldl acc nodes :
  0 ≤ acc →
  foldl (λ maxBlock node,
           match NodeResult.Error node with
           | None =>
               if maxBlock <? NodeResult.BlockNumber node
               then NodeResult.BlockNumber node else maxBlock
           | Some _ => maxBlock
           end) acc nodes
  = Z.max acc (spec_maxHeight nodes).
Proof.
  revert acc. unfold spec_maxHeight.
  induction nodes as [|node nodes IH]; intros acc Hacc; simpl; [lia|].
  rewrite filter_cons.
  destruct (NodeResult.Error node) as [err|] eqn:He.
  - rewrite decide_False by (unfold succeeded; congruence). by apply IH.
  - rewrite decide_True by done. rewrite fmap_cons. simpl.
    destruct (Z.ltb_spec acc (NodeResult.BlockNumber node));
      rewrite IH by lia; lia.
Qed.

(** The loop that finds the max block number computes the maximum over the
    nodes without error. *)
Lemma maxBlockNumber_spec nodes : maxBlockNumber nodes = spec_maxHeight nodes.
Proof.
  unfold maxBlockNumber. rewrite maxBlockNumber_foldl by done.
  unfold spec_maxHeight.
  induction (NodeResult.BlockNumber <$> filter succeeded nodes); simpl; lia.
Qed.

Lemma spec_maxHeight_nonneg nodes : 0 ≤ spec_maxHeight nodes.
Proof.
  unfold spec_maxHeight.
  induction (NodeResult.BlockNumber <$> filter succeeded nodes); simpl; lia.
Qed.

Lemma spec_maxHeight_upper nodes node :
  node ∈ nodes → succeeded node →
  NodeResult.BlockNumber node ≤ spec_maxHeight nodes.
Proof.
  intros Hin Hok. unfold spec_maxHeight.
  assert (NodeResult.BlockNumber node
          ∈ NodeResult.BlockNumber <$> filter succeeded nodes) as Hb.
  { apply list_elem_of_fmap. exists node. split; [done|].
    by apply list_elem_of_filter. }
  induction Hb as [b l|b b' l _ IH]; simpl; lia.
Qed.

Lemma spec_maxHeight_bound nodes bound :
  0 < bound →
  (∀ node, node ∈ nodes → NodeResult.BlockNumber node < bound) →
  spec_maxHeight nodes < bound.
Proof.
  intros Hpos Hall. unfold spec_maxHeight.
  assert (Forall (λ b, b < bound)
            (NodeResult.BlockNumber <$> filter succeeded nodes)) as Hb.
  { apply Forall_fmap, Forall_forall. intros node Hin.
    apply list_elem_of_filter in Hin as [_ Hin]. by apply Hall. }
  induction Hb; simpl; lia.
Qed.

(** The loop that picks the expected chain ID picks the chain ID of the
    first node without error, provided such nodes carry a chain ID. *)
Lemma expectedChainID_spec nodes :
  Forall probed_ok nodes → expectedChainID nodes = spec_baseline nodes.
Proof.
  unfold spec_baseline. induction 1 as [|node nodes Hok _ IH]; [done|].
  simpl. rewrite filter_cons.
  destruct (NodeResult.Error node) as [err|] eqn:He.
  - rewrite decide_False by (unfold succeeded; congruence). done.
  - rewrite decide_True by done. simpl.
    by destruct (Hok He) as [chainID ->].
Qed.

Lemma checkNode_height c ep n :
  endpoint_uint64 ep → is_uint64 (NodeResult.BlockNumber (checkNode c ep n).1).
Proof.
  intros Hep. unfold checkNode.
  repeat case_match; simpl; try (unfold is_uint64; lia); by apply Hep.
Qed.

Lemma probe_heights c net nodes node :
  (∀ n, n ∈ nodes → endpoint_uint64 (net (NodeInfo.Address n))) →
  node ∈ probe c net nodes → is_uint64 (NodeResult.BlockNumber node).
Proof.
  intros Hnet [n [-> Hn]]%list_elem_of_fmap.
  by apply checkNode_height, Hnet.
Qed.

Lemma probe_addresses c net nodes :
  NodeResult.Address <$> probe c net nodes = NodeInfo.Address <$> nodes.
Proof.
  unfold probe. rewrite <-list_fmap_compose. apply list_fmap_ext.
  intros _ n _. simpl. apply checkNode_descriptor.
Qed.

Lemma NoDup_fmap_eq {A B} (f : A → B) l x y :
  NoDup (f <$> l) → x ∈ l → y ∈ l → f x = f y → x = y.
Proof.
  induction l as [|a l IH]; [by intros _ ?%not_elem_of_nil|].
  rewrite fmap_cons, NoDup_cons. intros [Hfresh Hnd] Hx Hy Hf.
  apply elem_of_cons in Hx as [->|Hx]; apply elem_of_cons in Hy as [->|Hy].
  - done.
  - destruct Hfresh. rewrite Hf. by apply list_elem_of_fmap_2.
  - destruct Hfresh. rewrite <-Hf. by apply list_elem_of_fmap_2.
  - by apply IH.
Qed.

(** For a node without error the subtraction of the block-gap check does
    not wrap around. *)
Lemma gap_exact c net nodes node :
  (∀ n, n ∈ nodes → endpoint_uint64 (net (NodeInfo.Address n))) →
  node ∈ probe c net nodes → succeeded node →
  0 ≤ maxBlockNumber (probe c net nodes) - NodeResult.BlockNumber node
  ∧ sub64 (maxBlockNumber (probe c net nodes)) (NodeResult.BlockNumber node)
    = maxBlockNumber (probe c net nodes) - NodeResult.BlockNumber node.
Proof.
  intros Hnet Hin Hok. rewrite maxBlockNumber_spec.
  pose proof (spec_maxHeight_upper _ _ Hin Hok) as Hle.
  pose proof (probe_heights c net nodes node Hnet Hin) as [Hlo Hhi].
  assert (spec_maxHeight (probe c net nodes) < 2 ^ 64) as Hmax.
  { apply spec_maxHeight_bound; [done|]. intros n' Hn'.
    by apply (probe_heights c net nodes n' Hnet). }
  split; [lia|]. unfold sub64, wrap64. apply Z.mod_small. lia.
Qed.

End baselines.

(** ** Kinds of records *)

Section kinds.

(** A block-gap reason is no hash-mismatch reason. *)
Lemma isBlockGap_not_hash fn :
  isBlockGap fn = true → isHashMismatch fn = true → False.
Proof.
  unfold isBlockGap, isHashMismatch. intros Hg Hh.
  by destruct (prefix_comparable _ _ _ Hg Hh).
Qed.

(** A chain-ID reason is no hash-mismatch reason. *)
Lemma isChainIDMismatch_not_hash fn :
  isChainIDMismatch fn = true → isHashMismatch fn = true → False.
Proof.
  unfold isChainIDMismatch, isHashMismatch. intros Hg Hh.
  by destruct (prefix_comparable _ _ _ Hg Hh).
Qed.

Lemma gapDebugFailure_gap c maxBlock node fn :
  fn ∈ gapDebugFailure c maxBlock node → isBlockGap fn = true →
  MaxBlockGap (opts c) < sub64 maxBlock (NodeResult.BlockNumber node).
Proof.
  unfold gapDebugFailure.
  destruct (Z.ltb_spec (MaxBlockGap (opts c))
              (sub64 maxBlock (NodeResult.BlockNumber node))); [done|].
  case_match; [|by intros ?%not_elem_of_nil].
  by intros ->%list_elem_of_singleton.
Qed.

End kinds.

(** ** The hash window *)

Section window.

Context (c : Checker) (ep : Endpoint) (blockNumber : Z).
Hypothesis Hcount : is_int (BlockHashCount (opts c)).
Hypothesis Hheight : is_uint64 blockNumber.

(** Every iteration inserts at most one hash. *)
Lemma fetchHashes_size fuel i hashes log :
  (size (fetchHashes c ep blockNumber fuel i hashes log).1
   ≤ size hashes + fuel)%nat.
Proof.
  revert i hashes log.
  induction fuel as [|fuel IH]; intros i hashes log; simpl; [lia|].
  repeat case_match; simpl; try lia;
    (etrans; [apply IH|]); try lia.
  rewrite map_size_insert.
  destruct (hashes !! sub64 blockNumber (wrap64 i)); simpl; lia.
Qed.

(** The loop from [i] on: the hashes it leaves and the calls it issues. *)
Lemma fetchHashes_spec fuel i hashes log :
  0 ≤ i → fuel = Z.to_nat (BlockHashCount (opts c) - i) →
  (∀ key, key ≤ blockNumber - i → hashes !! key = None) →
  let out := fetchHashes c ep blockNumber fuel i hashes log in
  (∀ key,
      out.1 !! key
      = if decide (Z.max 0 (blockNumber - BlockHashCount (opts c) + 1) ≤ key
                   ≤ blockNumber - i)
        then fetched ep key else hashes !! key)
  ∧ out.2
    = log ++ ((λ k, CallGetBlock (blockNumber - k))
                <$> seqZ i (Z.min (BlockHashCount (opts c)) (blockNumber + 1) - i)).
Proof.
  destruct Hcount as [_ Hc]. destruct Hheight as [Hlo Hhi].
  revert i hashes log.
  induction fuel as [|fuel IH]; intros i hashes log Hi Hfuel Hfresh; simpl.
  { split.
    - intros key. rewrite decide_False by lia. done.
    - rewrite seqZ_nil by lia. by rewrite app_nil_r. }
  destruct (Z.ltb_spec i (BlockHashCount (opts c))) as [Hlt|]; [|lia]. simpl.
  assert (wrap64 i = i) as -> by (unfold wrap64; apply Z.mod_small; lia).
  destruct (Z.ltb_spec blockNumber i) as [Hbreak|Hgo]; simpl.
  { split.
    - intros key. rewrite decide_False by lia. done.
    - rewrite seqZ_nil by lia. by rewrite app_nil_r. }
  assert (sub64 blockNumber i = blockNumber - i) as ->
    by (unfold sub64, wrap64; apply Z.mod_small; lia).
  rewrite (seqZ_cons i) by lia. rewrite fmap_cons.
  replace (Z.pred (Z.min (BlockHashCount (opts c)) (blockNumber + 1) - i))
    with (Z.min (BlockHashCount (opts c)) (blockNumber + 1) - Z.succ i) by lia.
  assert (∀ hashes',
    (∀ key, key ≠ blockNumber - i → hashes' !! key = hashes !! key) →
    hashes' !! (blockNumber - i) = fetched ep (blockNumber - i) →
    let out := fetchHashes c ep blockNumber fuel (i + 1) hashes'
                 (log ++ [CallGetBlock (blockNumber - i)]) in
    (∀ key,
        out.1 !! key
        = if decide (Z.max 0 (blockNumber - BlockHashCount (opts c) + 1) ≤ key
                     ≤ blockNumber - i)
          then fetched ep key else hashes !! key)
    ∧ out.2
      = log ++ CallGetBlock (blockNumber - i)
          :: ((λ k, CallGetBlock (blockNumber - k))
                <$> seqZ (Z.succ i)
                      (Z.min (BlockHashCount (opts c)) (blockNumber + 1)
                       - Z.succ i))) as Hstep.
  { intros hashes' Hother Hthis.
    destruct (IH (i + 1) hashes' (log ++ [CallGetBlock (blockNumber - i)]))
      as [Hmap Hlog]; [lia|lia|..].
    { intros key Hkey. rewrite Hother by lia. apply Hfresh. lia. }
    split.
    - intros key. rewrite Hmap.
      destruct (decide (key = blockNumber - i)) as [->|Hkey].
      + rewrite decide_False, decide_True by lia. done.
      + rewrite Hother by done.
        repeat case_decide; try done; lia.
    - rewrite Hlog, <-app_assoc. replace (i + 1) with (Z.succ i) by lia. done. }
  unfold fetched in Hstep.
  destruct (eth_getBlockByNumber ep (blockNumber - i)) eqn:Hreply;
    apply Hstep; try done; try (by apply Hfresh; lia).
  - intros key Hkey. by rewrite lookup_insert_ne.
  - by rewrite lookup_insert_eq.
Qed.

End window.

(** The loop over the blocks only adds calls to the log. *)
Lemma fetchHashes_prefix c ep blockNumber fuel i hashes log :
  log `prefix_of` (fetchHashes c ep blockNumber fuel i hashes log).2.
Proof.
  revert i hashes log.
  induction fuel as [|fuel IH]; intros i hashes log; simpl; [done|].
  repeat case_match; simpl; try done;
    (etrans; [|apply IH]); by apply prefix_app_r.
Qed.

(** ** The node of a hash-mismatch record *)

Section lookup.

(** [findNode] returns the address and the chain of the first node with the
    ID, and empty strings when there is none. *)
Lemma findNode_spec nodes nodeID :
  findNode nodes nodeID
  = match list_find (λ n, NodeResult.ID n = nodeID) nodes with
    | Some (_, n) => (NodeResult.Address n, NodeResult.Chain n)
    | None => ("", "")
    end.
Proof.
  induction nodes as [|n nodes IH]; [done|]. csimpl.
  case_decide; [done|]. rewrite IH.
  by destruct (list_find _ nodes) as [[i n']|].
Qed.

(** The nodes named by the records of [checkBlockHashes] are nodes of the
    chain. *)
Lemma hashRecords_inv ro chain nodes fn :
  fn ∈ hashRecords ro chain nodes →
  ∃ blockNum hash majorityHash node,
    node ∈ nodes ∧ reports node blockNum = Some hash ∧ hash ≠ majorityHash
    ∧ fn = mismatchRecord nodes blockNum hash majorityHash (NodeResult.ID node).
Proof.
  intros [[h hm] [Hfn Hentry]]%list_elem_of_bind.
  apply (range_map_to_list ro) in Hentry.
  apply blockRecords_inv in Hfn as (hash & ids & maj & id & Hids & Hid & Hne & ->).
  simpl in *.
  rewrite (build_lookup ro chain nodes h hm hash Hentry) in Hids.
  case_decide; [done|]. injection Hids as <-.
  apply list_elem_of_fmap in Hid as (node & -> & Hnode).
  apply list_elem_of_filter in Hnode as [Hrep Hnode].
  by exists h, hash, maj, node.
Qed.

End lookup.

(** ** Loading and the entry point *)

Section loading.

Lemma seen_of_insert seen prev url :
  seen_of seen prev → seen_of (<[url := true]> seen) (prev ++ [url]).
Proof.
  intros Hseen u. specialize (Hseen u).
  rewrite elem_of_app, list_elem_of_singleton.
  destruct (decide (u = url)) as [->|Hne].
  - rewrite lookup_insert_eq. split; [by right|done].
  - rewrite lookup_insert_ne by congruence.
    split; [intros Hu; left; by apply Hseen|].
    intros [Hu|Hu]; [by apply Hseen|done].
Qed.

Lemma seen_of_empty : seen_of ∅ [].
Proof.
  intros url. rewrite lookup_empty.
  split; [done|by intros ?%not_elem_of_nil].
Qed.

Lemma NoDup_snoc_fresh (prev : list string) url :
  NoDup prev → url ∉ prev → NoDup (prev ++ [url]).
Proof.
  intros Hnd Hfresh. apply NoDup_app. split_and!; [done| |apply NoDup_singleton].
  intros u Hin ->%list_elem_of_singleton. done.
Qed.

Lemma checkConnectors_spec upstreamID seen prev cs :
  seen_of seen prev → NoDup prev →
  match checkConnectors upstreamID seen cs with
  | inr seen' =>
      seen_of seen' (prev ++ (URL <$> cs))
      ∧ ("" ∉ URL <$> cs) ∧ NoDup (prev ++ (URL <$> cs))
  | inl _ => ¬ (("" ∉ URL <$> cs) ∧ NoDup (prev ++ (URL <$> cs)))
  end.
Proof.
  revert seen prev. induction cs as [|connector cs IH]; intros seen prev Hseen Hnd.
  { simpl. rewrite app_nil_r. split_and!; [done|apply not_elem_of_nil|done]. }
  simpl. case_decide as Hempty.
  { intros [Hno _]. apply Hno. rewrite Hempty. apply list_elem_of_here. }
  destruct (default false (seen !! URL connector)) eqn:Hdup.
  { intros [_ Hnd']. apply NoDup_app in Hnd' as (_ & Hdisj & _).
    apply (Hdisj (URL connector)); [by apply Hseen|apply list_elem_of_here]. }
  assert (URL connector ∉ prev) as Hfresh.
  { intros Hin. apply Hseen in Hin. congruence. }
  specialize (IH (<[URL connector := true]> seen) (prev ++ [URL connector])).
  rewrite <-!app_assoc in IH. simpl in IH.
  destruct (checkConnectors _ _ cs) as [e|seen'].
  - intros [Hno Hnd']. apply IH; [..|split; [|done]].
    + by apply seen_of_insert.
    + by apply NoDup_snoc_fresh.
    + intros Hin. apply Hno. by apply list_elem_of_further.
  - destruct IH as (Hseen' & Hno & Hnd').
    + by apply seen_of_insert.
    + by apply NoDup_snoc_fresh.
    + split_and!; [done| |done].
      intros [?|?]%elem_of_cons; [congruence|done].
Qed.

Lemma checkUpstreams_spec seen prev us :
  seen_of seen prev → NoDup prev →
  match checkUpstreams seen us with
  | inr seen' => ("" ∉ allURLs us) ∧ NoDup (prev ++ allURLs us)
  | inl _ => ¬ (("" ∉ allURLs us) ∧ NoDup (prev ++ allURLs us))
  end.
Proof.
  revert seen prev. induction us as [|upstream us IH]; intros seen prev Hseen Hnd.
  { simpl. rewrite app_nil_r. split; [apply not_elem_of_nil|done]. }
  change (allURLs (upstream :: us))
    with ((URL <$> Connectors upstream) ++ allURLs us).
  change (checkUpstreams seen (upstream :: us))
    with (match checkConnectors (ID upstream) seen (Connectors upstream) with
          | inl err => inl err
          | inr seen' => checkUpstreams seen' us
          end).
  pose proof (checkConnectors_spec (ID upstream) seen prev
                (Connectors upstream) Hseen Hnd) as Hcs.
  destruct (checkConnectors _ _ (Connectors upstream)) as [e|seen'].
  - intros [Hno Hnd']. apply Hcs. split.
    + intros Hin. apply Hno, elem_of_app. by left.
    + rewrite app_assoc in Hnd'. by apply NoDup_app in Hnd' as (? & _ & _).
  - destruct Hcs as (Hseen' & Hno & Hnd').
    specialize (IH seen' _ Hseen' Hnd'). rewrite <-app_assoc in IH.
    destruct (checkUpstreams seen' us) as [e|seen''].
    + intros [Hno' Hnd'']. apply IH. split; [|done].
      intros Hin. apply Hno', elem_of_app. by right.
    + destruct IH as [Hno' Hnd'']. split; [|done].
      by intros [?|?]%elem_of_app.
Qed.

(** [Load] accepts the well-formed configurations, and returns them
    unchanged. *)
Lemma Load_spec file cfg :
  Load file = inr cfg ↔ file = Parsed cfg ∧ well_formed cfg.
Proof.
  unfold Load, well_formed.
  destruct file as [e|e|cfg'];
    [split; [done|by intros [? _]]..|].
  pose proof (checkUpstreams_spec ∅ [] (Upstreams (UpstreamConfig_ cfg'))) as Hus.
  simpl in Hus.
  case_decide as Hlen.
  { split; [done|]. intros [[= ->] (Hne & _)].
    destruct Hne. by apply nil_length_inv. }
  assert (Upstreams (UpstreamConfig_ cfg') ≠ []) as Hne.
  { intros Heq. by rewrite Heq in Hlen. }
  specialize (Hus seen_of_empty (NoDup_nil_2 (A := string))).
  destruct (checkUpstreams ∅ _) as [e|seen].
  - split; [done|]. intros [[= ->] (_ & Hno & Hnd)]. by destruct Hus.
  - destruct Hus as [Hno Hnd].
    split; [by intros [= ->]|by intros [[= ->] _]].
Qed.

Lemma checkAll_total c ro net result entries :
  ∃ result', checkAll c ro net result entries = Some result'.
Proof.
  revert result. induction entries as [|entry entries IH]; intros result; simpl.
  - by eexists.
  - unfold checkOne. rewrite checkChain_shape. simpl. apply IH.
Qed.

(** [Check] returns a result and no error. *)
Lemma Check_total c ro net : ∃ result, Check c ro net = Some (result, None).
Proof.
  unfold Check.
  destruct (checkAll_total c ro net (CheckResult.mk [] [] true)
              (range ro SiteChains _ (map_to_list (GetNodesByChain (cfg c)))))
    as [result ->].
  by exists result.
Qed.

End loading.

(** ** Grouping the nodes by chain *)

Section grouping.

Lemma appendNode_grouped result urls upstream connector :
  grouped result urls →
  grouped (appendNode result upstream connector) (urls ++ [URL connector]).
Proof.
  unfold grouped. intros Hres chain nodes. unfold appendNode. case_decide.
  - destruct (decide (chain = Chain upstream)) as [->|Hne].
    + rewrite lookup_insert_eq. intros [= <-]. rewrite fmap_app.
      apply sublist_app; [|done].
      destruct (result !! Chain upstream) as [nodes|] eqn:Hold; simpl.
      * by eapply Hres.
      * apply sublist_nil_l.
    + rewrite lookup_insert_ne by done. intros Hold.
      apply sublist_inserts_r. by eapply Hres.
  - intros Hold. apply sublist_inserts_r. by eapply Hres.
Qed.

Lemma connectors_grouped upstream cs result urls :
  grouped result urls →
  grouped (foldl (λ result connector, appendNode result upstream connector)
                 result cs)
          (urls ++ (URL <$> cs)).
Proof.
  revert result urls. induction cs as [|connector cs IH]; intros result urls Hres.
  - simpl. by rewrite app_nil_r.
  - simpl. rewrite cons_middle, app_assoc.
    by apply IH, appendNode_grouped.
Qed.

Lemma upstreams_grouped us result urls :
  grouped result urls →
  grouped (foldl (λ result upstream,
                    foldl (λ result connector,
                             appendNode result upstream connector)
                          result (Connectors upstream))
                 result us)
          (urls ++ allURLs us).
Proof.
  revert result urls. induction us as [|upstream us IH]; intros result urls Hres.
  - simpl. by rewrite app_nil_r.
  - change (allURLs (upstream :: us))
      with ((URL <$> Connectors upstream) ++ allURLs us).
    simpl. rewrite app_assoc. by apply IH, connectors_grouped.
Qed.

(** The nodes of one chain of a well-formed configuration have pairwise
    distinct addresses. *)
Lemma GetNodesByChain_NoDup cfg chain nodes :
  well_formed cfg →
  GetNodesByChain cfg !! chain = Some nodes →
  NoDup (NodeInfo.Address <$> nodes).
Proof.
  intros (_ & _ & Hnd) Hnodes.
  eapply sublist_NoDup; [exact Hnd|].
  eapply (upstreams_grouped _ ∅ []); [|exact Hnodes].
  intros chain' nodes'. by rewrite lookup_empty.
Qed.

End grouping.

(** * The claims *)

(** ** C1: hash reconciliation *)

(** C1. For every chain and every height [h]: if all the nodes that report a
    hash at [h] report the same one, no failure record refers to [h]; if one
    node reports [d] and all the other reporting nodes report [m], exactly
    one hash-mismatch record refers to [h], and when at least two nodes
    report [m] (so that exactly one node differs from all the others) that
    record names the node reporting [d]. *)
Theorem C1_hash_reconciliation c ro net chain nodes h :
  ∃ r, checkChain c ro net chain nodes = Some r ∧
    let at_h := filter (λ fn, isHashMismatchAt h fn) (ChainResult.FailedNodes r) in
    (∀ x0,
        (∀ n y, n ∈ ChainResult.Nodes r → reports n h = Some y → y = x0) →
        at_h = [])
    ∧ (∀ i dn d m,
        ChainResult.Nodes r !! i = Some dn → reports dn h = Some d → d ≠ m →
        (∀ j n y, ChainResult.Nodes r !! j = Some n → j ≠ i →
                  reports n h = Some y → y = m) →
        (1 ≤ length (filter (λ n, reports n h = Some m) (ChainResult.Nodes r)))%nat →
        ∃ fn, at_h = [fn]
          ∧ ((2 ≤ length (filter (λ n, reports n h = Some m)
                                 (ChainResult.Nodes r)))%nat →
             FailedNode.ID fn = NodeResult.ID dn
             ∧ FailedNode.Reason fn = hashReason h d m)).
Proof.
  eexists. split; [apply checkChain_shape|].
  cbn [ChainResult.FailedNodes ChainResult.Nodes appendFailures].
  rewrite app_nil_l, filter_app, nodeFailure_filter, app_nil_l.
  split.
  - intros x0 Hall. by eapply unanimous_records.
  - intros i dn d m Hi Hd Hdm Hrest Hone.
    assert (length (reporters (probe c net nodes) h m)
            = length (filter (λ n, reports n h = Some m) (probe c net nodes)))
      as Hlen by (unfold reporters; by rewrite length_fmap).
    destruct (reporters (probe c net nodes) h m) as [|id' [|id'' ids]] eqn:Hm.
    + simpl in Hlen. lia.
    + destruct (tie_records ro chain _ i dn d m h id' Hi Hd Hdm Hrest Hm)
        as [-> | ->]; eexists; (split; [done|]); rewrite <-Hlen; simpl; lia.
    + erewrite dissent_records; [|done..|rewrite Hm; simpl; lia].
      eexists. split; [done|]. done.
Qed.

(** Three nodes, the second with its own block 100: one record at height
    100, for the second node, and none at height 99. *)
Lemma C1_witness :
  ∃ r fn,
    checkChain checker1 inorder forkNet "eth" threeNodes = Some r
    ∧ filter (λ fn, isHashMismatchAt 100 fn) (ChainResult.FailedNodes r) = [fn]
    ∧ FailedNode.ID fn = "n2"
    ∧ filter (λ fn, isHashMismatchAt 99 fn) (ChainResult.FailedNodes r) = [].
Proof.
  destruct (C1_hash_reconciliation checker1 inorder forkNet "eth" threeNodes 100)
    as (r & Hr & _ & Hdis).
  destruct (C1_hash_reconciliation checker1 inorder forkNet "eth" threeNodes 99)
    as (r' & Hr' & Hun & _).
  rewrite Hr in Hr'. injection Hr' as <-.
  vm_compute in Hr. injection Hr as <-.
  edestruct Hdis with (i := 1%nat) (d := 1100%N) (m := 100%N)
    as (fn & Hfn & Hname).
  - reflexivity.
  - reflexivity.
  - discriminate.
  - intros j n y Hj Hne Hrep.
    destruct j as [|[|[|j]]]; try done;
      injection Hj as <-; vm_compute in Hrep; congruence.
  - vm_compute. lia.
  - eexists _, fn. split; [reflexivity|]. split; [exact Hfn|]. split.
    + destruct Hname as [-> _]; [vm_compute; lia|reflexivity].
    + apply (Hun 99%N). intros n y Hn Hrep.
      cbn [ChainResult.Nodes] in Hn. rewrite !elem_of_cons in Hn.
      destruct Hn as [->|[->|[->|Hn]]];
        [..|by apply not_elem_of_nil in Hn];
        vm_compute in Hrep; congruence.
Defined.

(** ** C2: the block gap *)

(** C2, as stated, fails: the node at "b" completed without failure and is
    100 blocks behind with a maximum gap of 10, yet it has no block-gap
    record, because its chain ID differs and that rule comes first. *)
Lemma C2_counterexample :
  ∃ r node,
    checkChain checker1 inorder strayNet "eth" twoNodes = Some r
    ∧ node ∈ ChainResult.Nodes r
    ∧ NodeResult.Error node = None
    ∧ ¬ ((∃ fn, fn ∈ ChainResult.FailedNodes r ∧ isBlockGap fn = true
                ∧ FailedNode.Address fn = NodeResult.Address node)
         ↔ ChainResult.MaxBlockNumber r - NodeResult.BlockNumber node
           > MaxBlockGap (opts checker1)).
Proof.
  eexists _, (NodeResult.mk "n2" "eth" "b" (Some 2) 0 _ true None).
  split; [vm_compute; reflexivity|].
  split; [apply list_elem_of_further, list_elem_of_here|].
  split; [reflexivity|].
  intros [_ Hgap]. destruct Hgap as (fn & Hfn & Hkind & _); [vm_compute; done|].
  cbn [ChainResult.FailedNodes] in Hfn.
  apply list_elem_of_singleton in Hfn as ->. vm_compute in Hkind. done.
Qed.

(** C2, amended. The failure records of a chain are the records of the
    validation loop, node by node in input order, followed by the
    hash-mismatch records, none of which is a block-gap record. For every
    node that completed without failure, the subtraction
    [MaxBlockNumber - BlockNumber] does not wrap around; and if moreover its
    chain ID is the expected one, a block-gap record is produced for it iff
    [MaxBlockNumber - BlockNumber > MaxBlockGap] (so a gap equal to
    [MaxBlockGap] is not recorded). When the addresses of the chain are
    pairwise distinct, as in every configuration that [Load] accepts
    ([GetNodesByChain_NoDup]), the record of a node is also the block-gap
    record that carries its address. *)
Theorem C2_block_gap c ro net chain nodes :
  (∀ n, n ∈ nodes → endpoint_uint64 (net (NodeInfo.Address n))) →
  ∃ r, checkChain c ro net chain nodes = Some r ∧
    ∃ ruleRecords,
      ChainResult.FailedNodes r
      = mjoin ruleRecords ++ hashRecords ro chain (ChainResult.Nodes r)
      ∧ Forall (λ fn, isBlockGap fn = false)
               (hashRecords ro chain (ChainResult.Nodes r))
      ∧ ∀ i node,
          ChainResult.Nodes r !! i = Some node →
          NodeResult.Error node = None →
          (0 ≤ ChainResult.MaxBlockNumber r - NodeResult.BlockNumber node
           ∧ sub64 (ChainResult.MaxBlockNumber r) (NodeResult.BlockNumber node)
             = ChainResult.MaxBlockNumber r - NodeResult.BlockNumber node)
          ∧ ∃ recs,
              ruleRecords !! i = Some recs
              ∧ (∀ fn, fn ∈ recs →
                   FailedNode.ID fn = NodeResult.ID node
                   ∧ FailedNode.Address fn = NodeResult.Address node)
              ∧ (NodeResult.ChainID node = ChainResult.ExpectedChainID r →
                 ((∃ fn, fn ∈ recs ∧ isBlockGap fn = true)
                  ↔ ChainResult.MaxBlockNumber r - NodeResult.BlockNumber node
                    > MaxBlockGap (opts c)))
              ∧ (NodeResult.ChainID node = ChainResult.ExpectedChainID r →
                 NoDup (NodeInfo.Address <$> nodes) →
                 ((∃ fn, fn ∈ ChainResult.FailedNodes r ∧ isBlockGap fn = true
                         ∧ FailedNode.Address fn = NodeResult.Address node)
                  ↔ ChainResult.MaxBlockNumber r - NodeResult.BlockNumber node
                    > MaxBlockGap (opts c))).
Proof.
  intros Hnet. eexists. split; [apply checkChain_shape|].
  cbn [ChainResult.FailedNodes ChainResult.Nodes ChainResult.MaxBlockNumber
       ChainResult.ExpectedChainID appendFailures].
  exists (nodeFailure c (expectedChainID (probe c net nodes))
                      (maxBlockNumber (probe c net nodes))
            <$> probe c net nodes).
  split; [by rewrite list_join_bind, list_fmap_bind|].
  assert (∀ fn, fn ∈ hashRecords ro chain (probe c net nodes) →
                isBlockGap fn = false) as Hhash.
  { intros fn Hfn%hashRecords_kind.
    destruct (isBlockGap fn) eqn:Hkind; [|done].
    by destruct (isBlockGap_not_hash fn). }
  split; [by apply Forall_forall|].
  intros i node Hi Hok.
  assert (node ∈ probe c net nodes) as Hin by (by eapply list_elem_of_lookup_2).
  destruct (gap_exact c net nodes node Hnet Hin Hok) as [Hnn Hsub].
  split; [done|].
  exists (nodeFailure c (expectedChainID (probe c net nodes))
                      (maxBlockNumber (probe c net nodes)) node).
  split; [by rewrite list_lookup_fmap, Hi|].
  split; [intros fn Hfn; by apply nodeFailure_kind in Hfn as (_ & ? & _ & ?)|].
  assert (NodeResult.ChainID node = expectedChainID (probe c net nodes) →
    (∃ fn, fn ∈ nodeFailure c (expectedChainID (probe c net nodes))
                            (maxBlockNumber (probe c net nodes)) node
           ∧ isBlockGap fn = true)
    ↔ maxBlockNumber (probe c net nodes) - NodeResult.BlockNumber node
      > MaxBlockGap (opts c)) as Hrule.
  { intros Hcid.
    assert (nodeFailure c (expectedChainID (probe c net nodes))
                        (maxBlockNumber (probe c net nodes)) node
            = gapDebugFailure c (maxBlockNumber (probe c net nodes)) node) as ->.
    { unfold nodeFailure. rewrite Hok, <-Hcid.
      destruct (NodeResult.ChainID node); [by rewrite Z.eqb_refl|done]. }
    split.
    - intros (fn & Hfn & Hgap).
      pose proof (gapDebugFailure_gap _ _ _ _ Hfn Hgap). lia.
    - intros Hgt.
      exists (failureOf node
                (blockGapReason
                   (sub64 (maxBlockNumber (probe c net nodes))
                          (NodeResult.BlockNumber node))
                   (MaxBlockGap (opts c)))).
      split; [|apply prefix_app_intro].
      unfold gapDebugFailure.
      destruct (Z.ltb_spec (MaxBlockGap (opts c))
                  (sub64 (maxBlockNumber (probe c net nodes))
                         (NodeResult.BlockNumber node))); [|lia].
      apply list_elem_of_here. }
  split; [exact Hrule|].
  intros Hcid Hnd. rewrite <-(Hrule Hcid), app_nil_l. split.
  - intros (fn & Hfn & Hgap & Haddr).
    apply elem_of_app in Hfn as [Hfn|Hfn];
      [|rewrite (Hhash fn Hfn) in Hgap; done].
    apply list_elem_of_bind in Hfn as (n' & Hfn & Hn').
    pose proof (nodeFailure_kind _ _ _ _ _ Hfn) as (_ & _ & _ & Ha).
    assert (n' = node) as ->; [|by exists fn].
    apply (NoDup_fmap_eq NodeResult.Address (probe c net nodes));
      [by rewrite probe_addresses|done..|congruence].
  - intros (fn & Hfn & Hgap). exists fn.
    split; [|split; [done|by apply nodeFailure_kind in Hfn as (_ & _ & _ & ?)]].
    apply elem_of_app. left. apply list_elem_of_bind. by exists node.
Qed.

(** Three nodes with the same chain ID, the second 20 blocks behind with a
    maximum gap of 10: it has a block-gap record. *)
Lemma C2_witness :
  ∃ r fn,
    checkChain checker1 inorder lagNet "eth" threeNodes = Some r
    ∧ fn ∈ ChainResult.FailedNodes r ∧ isBlockGap fn = true
    ∧ FailedNode.Address fn = "b".
Proof.
  destruct (C2_block_gap checker1 inorder lagNet "eth" threeNodes)
    as (r & Hr & recs & _ & _ & Hnodes).
  - intros n _ bn. unfold lagNet. case_decide; simpl; intros [= <-];
      unfold is_uint64; lia.
  - pose proof Hr as Hr0. vm_compute in Hr. injection Hr as <-.
    edestruct (Hnodes 1%nat) as (_ & recs1 & _ & _ & _ & Hiff);
      [reflexivity|reflexivity|].
    destruct (Hiff eq_refl) as [_ Hback].
    { apply (bool_decide_unpack _). vm_compute. exact I. }
    destruct Hback as (fn & Hfn & Hkind & Haddr); [vm_compute; done|].
    eexists _, fn. split; [exact Hr0|done].
Defined.

(** ** C3: the baselines *)



(** ** C4: first match wins *)

Section classification.

Context (c : Checker) (net : string → Endpoint) (nodes : list NodeInfo.t).
Hypothesis Hnet : ∀ n, n ∈ nodes → endpoint_uint64 (net (NodeInfo.Address n)).

(** One iteration of the validation loop records the first rule, in the
    order a, b, c, d, that the node fails, and nothing else. *)
Lemma nodeFailure_first_rule node :
  node ∈ probe c net nodes →
  let recs := nodeFailure c (expectedChainID (probe c net nodes))
                          (maxBlockNumber (probe c net nodes)) node in
  match spec_first_rule c (expectedChainID (probe c net nodes))
                        (maxBlockNumber (probe c net nodes)) node with
  | None => recs = []
  | Some rule => ∃ fn, recs = [fn] ∧ spec_record rule node fn
  end.
Proof.
  intros Hin. unfold spec_first_rule. simpl.
  destruct (NodeResult.Error node) as [err|] eqn:He.
  { assert (spec_rule_a node = true) as ->.
    { unfold spec_rule_a. apply bool_decide_eq_true_2. congruence. }
    unfold nodeFailure. rewrite He. eexists. split; [done|].
    split_and!; try done. apply prefix_app_intro. }
  assert (spec_rule_a node = false) as ->.
  { unfold spec_rule_a. apply bool_decide_eq_false_2. by intros []. }
  unfold nodeFailure. rewrite He.
  assert (is_Some (NodeResult.ChainID node)) as [chainID Hcid].
  { pose proof (probe_ok c net nodes) as Hok.
    rewrite Forall_forall in Hok. by apply Hok. }
  destruct (gap_exact c net nodes node Hnet Hin He) as [_ Hsub].
  assert (match spec_rule_c c (maxBlockNumber (probe c net nodes)) node,
                spec_rule_d c node with
          | true, _ =>
              ∃ fn, gapDebugFailure c (maxBlockNumber (probe c net nodes)) node
                    = [fn] ∧ spec_record RuleC node fn
          | false, true =>
              ∃ fn, gapDebugFailure c (maxBlockNumber (probe c net nodes)) node
                    = [fn] ∧ spec_record RuleD node fn
          | false, false =>
              gapDebugFailure c (maxBlockNumber (probe c net nodes)) node = []
          end) as Hgd.
  { unfold spec_rule_c, spec_rule_d, gapDebugFailure. rewrite Hsub.
    destruct (Z.ltb_spec (MaxBlockGap (opts c))
                (maxBlockNumber (probe c net nodes)
                 - NodeResult.BlockNumber node)).
    - rewrite bool_decide_eq_true_2 by lia. eexists. split; [done|].
      split_and!; try done. apply prefix_app_intro.
    - rewrite bool_decide_eq_false_2 by lia.
      destruct (CheckDebugMode (opts c) && negb (NodeResult.DebugOK node));
        [|done].
      eexists. split; [done|]. by split_and!. }
  rewrite Hcid. unfold spec_rule_b.
  destruct (expectedChainID (probe c net nodes)) as [expected|].
  - destruct (Z.eqb_spec chainID expected) as [->|Hne]; simpl.
    + rewrite bool_decide_eq_false_2 by (by intros []).
      by repeat case_match.
    + rewrite bool_decide_eq_true_2 by congruence.
      eexists. split; [done|]. by split_and!.
  - by repeat case_match.
Qed.

End classification.

(** C4. The validation loop records, for every node in input order, the
    first of the rules (a) failure present, (b) chain ID differs from the
    expected one, (c) block gap exceeds the maximum, (d) debug mode required
    and missing, that the node fails, and at most one record per node; the
    hash-mismatch records follow, computed from the probed nodes alone; and
    a node can have a rule record and a hash-mismatch record. *)
Theorem C4_first_match :
  (∀ c ro net chain nodes,
     (∀ n, n ∈ nodes → endpoint_uint64 (net (NodeInfo.Address n))) →
     ∃ r, checkChain c ro net chain nodes = Some r ∧
       ∃ ruleRecords,
         ChainResult.FailedNodes r
         = mjoin ruleRecords ++ hashRecords ro chain (ChainResult.Nodes r)
         ∧ Forall2
             (λ node recs,
                (length recs ≤ 1)%nat
                ∧ match spec_first_rule c (ChainResult.ExpectedChainID r)
                          (ChainResult.MaxBlockNumber r) node with
                  | None => recs = []
                  | Some rule => ∃ fn, recs = [fn] ∧ spec_record rule node fn
                  end)
             (ChainResult.Nodes r) ruleRecords
         ∧ Forall (λ fn, isHashMismatch fn = true)
                  (hashRecords ro chain (ChainResult.Nodes r)))
  ∧ (∃ c ro net chain nodes r fn1 fn2,
       checkChain c ro net chain nodes = Some r
       ∧ fn1 ∈ ChainResult.FailedNodes r ∧ fn2 ∈ ChainResult.FailedNodes r
       ∧ FailedNode.Address fn1 = FailedNode.Address fn2
       ∧ isDebug fn1 = true ∧ isHashMismatch fn2 = true).
Proof.
  split.
  - intros c ro net chain nodes Hnet.
    eexists. split; [apply checkChain_shape|].
    cbn [ChainResult.FailedNodes ChainResult.Nodes ChainResult.MaxBlockNumber
         ChainResult.ExpectedChainID appendFailures].
    exists (nodeFailure c (expectedChainID (probe c net nodes))
                        (maxBlockNumber (probe c net nodes))
              <$> probe c net nodes).
    split; [by rewrite list_join_bind, list_fmap_bind|].
    split; [|apply Forall_forall; intros fn; apply hashRecords_kind].
    apply Forall2_fmap_r, Forall_Forall2_diag, Forall_forall.
    intros node Hin.
    pose proof (nodeFailure_first_rule c net nodes Hnet node Hin) as Hrule.
    simpl in Hrule. split; [|exact Hrule].
    destruct (spec_first_rule _ _ _ _); [destruct Hrule as (fn & -> & _)|
      rewrite Hrule]; simpl; lia.
  - exists checker1, inorder, forkNoDebugNet, "eth", threeNodes.
    eexists _, (FailedNode.mk "n2" "eth" "b" debugReason),
      (FailedNode.mk "n2" "eth" "b" (hashReason 100 1100 100)).
    split; [vm_compute; reflexivity|].
    split; [apply list_elem_of_here|].
    split; [apply list_elem_of_further, list_elem_of_here|].
    done.
Qed.

(** Three nodes that answer with heights below 2^64; the second one lacks
    the debug API and has its own block 100: it has one rule record and one
    hash-mismatch record. *)
Lemma C4_witness :
  ∃ r, checkChain checker1 inorder forkNoDebugNet "eth" threeNodes = Some r
    ∧ length (ChainResult.FailedNodes r) = 2%nat.
Proof.
  destruct C4_first_match as [Hall _].
  destruct (Hall checker1 inorder forkNoDebugNet "eth" threeNodes)
    as (r & Hr & recs & Hfailed & _).
  - intros n _ bn. unfold forkNoDebugNet. case_decide; simpl; intros [= <-];
      unfold is_uint64; lia.
  - exists r. split; [exact Hr|].
    vm_compute in Hr. injection Hr as <-. reflexivity.
Defined.

(** ** C5: the verdict of a chain *)

(** C5. The failure records of a chain are the rule records followed by the
    hash-mismatch records; if there is any hash-mismatch record, [Passed] is
    false, whatever the rule records; and [Passed] is true iff there is
    neither a rule record nor a hash-mismatch record. *)
Theorem C5_passed c ro net chain nodes :
  ∃ r, checkChain c ro net chain nodes = Some r ∧
    ∃ ruleRecs hashRecs,
      ChainResult.FailedNodes r = ruleRecs ++ hashRecs
      ∧ Forall (λ fn, isHashMismatch fn = false) ruleRecs
      ∧ Forall (λ fn, isHashMismatch fn = true) hashRecs
      ∧ (hashRecs ≠ [] → ChainResult.Passed r = false)
      ∧ (ChainResult.Passed r = true ↔ ruleRecs = [] ∧ hashRecs = []).
Proof.
  eexists. split; [apply checkChain_shape|].
  cbn [ChainResult.FailedNodes ChainResult.Passed appendFailures].
  eexists _, _. split; [by rewrite app_nil_l|].
  split.
  { apply Forall_forall. intros fn (node & Hfn & _)%list_elem_of_bind.
    by apply nodeFailure_kind in Hfn as [? _]. }
  split; [apply Forall_forall; intros fn; apply hashRecords_kind|].
  destruct (probe c net nodes ≫= _) as [|fn1 l1];
    destruct (hashRecords ro chain (probe c net nodes)) as [|fn2 l2];
    simpl; split; try done; split; try done; by intros [? ?].
Qed.

(** Three nodes that pass every rule, the second with its own block 100:
    the only record is a hash mismatch, and the chain does not pass. *)
Lemma C5_witness :
  ∃ r fn, checkChain checker1 inorder forkNet "eth" threeNodes = Some r
    ∧ ChainResult.FailedNodes r = [fn] ∧ isHashMismatch fn = true
    ∧ ChainResult.Passed r = false.
Proof.
  destruct (C5_passed checker1 inorder forkNet "eth" threeNodes)
    as (r & Hr & ruleRecs & hashRecs & Hfailed & _ & Hkind & Hforce & _).
  pose proof Hr as Hr0. vm_compute in Hr. injection Hr as <-.
  cbn [ChainResult.FailedNodes] in Hfailed.
  destruct ruleRecs as [|fn1 ruleRecs]; simpl in Hfailed.
  - subst hashRecs. eexists _, _. split; [exact Hr0|]. split; [reflexivity|].
    split; [by apply Forall_cons in Hkind as [? _]|]. by apply Hforce.
  - eexists _, _. split; [exact Hr0|]. by split_and!.
Defined.

(** ** C6: failed nodes *)

(** C6, as stated, fails: the node at "b" refuses the connection, and no
    record of the chain has a reason beginning "connection/query error:". *)
Lemma C6_counterexample :
  ∃ r node,
    checkChain checker1 inorder downNet "eth" threeNodes = Some r
    ∧ node ∈ ChainResult.Nodes r
    ∧ NodeResult.Error node = Some "failed to connect: connection refused"
    ∧ ∀ fn, fn ∈ ChainResult.FailedNodes r →
        String.prefix "connection/query error:" (FailedNode.Reason fn) = false.
Proof.
  eexists _, (NodeResult.mk "n2" "eth" "b" None 0 ∅ false _).
  split; [vm_compute; reflexivity|].
  split; [apply list_elem_of_further, list_elem_of_here|].
  split; [reflexivity|].
  intros fn Hfn. cbn [ChainResult.FailedNodes] in Hfn.
  by apply list_elem_of_singleton in Hfn as ->.
Qed.

Section exclusion.

Lemma filter_delete {A} (P : A → Prop) `{∀ x, Decision (P x)}
    (l : list A) (i : nat) x :
  l !! i = Some x → ¬P x → filter P (delete i l) = filter P l.
Proof.
  revert i. induction l as [|a l IH]; intros [|i]; simpl; try done.
  - intros [= ->] Hx. by rewrite filter_cons_False.
  - intros Hi Hx. rewrite !filter_cons, (IH i) by done. done.
Qed.

Lemma expectedChainID_delete (nodes : list NodeResult.t) (i : nat) node :
  nodes !! i = Some node → NodeResult.Error node ≠ None →
  expectedChainID (delete i nodes) = expectedChainID nodes.
Proof.
  revert i. induction nodes as [|a l IH]; intros [|i]; simpl; try done.
  - intros [= ->] Hx. by destruct (NodeResult.Error node).
  - intros Hi Hx. by rewrite (IH i).
Qed.

Lemma maxBlockNumber_delete (nodes : list NodeResult.t) (i : nat) node :
  nodes !! i = Some node → NodeResult.Error node ≠ None →
  maxBlockNumber (delete i nodes) = maxBlockNumber nodes.
Proof.
  intros Hi Hx. rewrite !maxBlockNumber_spec. unfold spec_maxHeight.
  by rewrite (filter_delete _ _ _ _ Hi).
Qed.

Lemma reporters_delete (nodes : list NodeResult.t) (i : nat) node h x :
  nodes !! i = Some node → NodeResult.Error node ≠ None →
  reporters (delete i nodes) h x = reporters nodes h x.
Proof.
  intros Hi Hx. unfold reporters. rewrite (filter_delete _ _ _ _ Hi); [done|].
  unfold reports. by destruct (NodeResult.Error node).
Qed.

End exclusion.

(** C6, amended. For every node whose probe ended in failure, the record
    of the validation loop for it is the single record with the reason
    "connection error: " followed by the cause; and the expected chain ID,
    the maximum block number and the nodes stored under every height and
    hash are those of the chain without this node. *)
Theorem C6_failed_nodes c ro net chain nodes :
  ∃ r, checkChain c ro net chain nodes = Some r ∧
    ∃ ruleRecords,
      ChainResult.FailedNodes r
      = mjoin ruleRecords ++ hashRecords ro chain (ChainResult.Nodes r)
      ∧ ∀ i node err,
          ChainResult.Nodes r !! i = Some node →
          NodeResult.Error node = Some err →
          (∃ fn, ruleRecords !! i = Some [fn]
             ∧ fn = failureOf node ("connection error: " +:+ err)
             ∧ fn ∈ ChainResult.FailedNodes r
             ∧ isConnection fn = true)
          ∧ ChainResult.ExpectedChainID r
            = expectedChainID (delete i (ChainResult.Nodes r))
          ∧ ChainResult.MaxBlockNumber r
            = maxBlockNumber (delete i (ChainResult.Nodes r))
          ∧ ∀ ro' h x,
              voters (buildBlockHashNodes ro chain 0 (ChainResult.Nodes r) ∅) h x
              = voters (buildBlockHashNodes ro' chain 0
                          (delete i (ChainResult.Nodes r)) ∅) h x.
Proof.
  eexists. split; [apply checkChain_shape|].
  cbn [ChainResult.FailedNodes ChainResult.Nodes ChainResult.MaxBlockNumber
       ChainResult.ExpectedChainID appendFailures].
  exists (nodeFailure c (expectedChainID (probe c net nodes))
                      (maxBlockNumber (probe c net nodes))
            <$> probe c net nodes).
  split; [by rewrite list_join_bind, list_fmap_bind|].
  intros i node err Hi He.
  assert (NodeResult.Error node ≠ None) as Hne by congruence.
  split_and!.
  - exists (failureOf node ("connection error: " +:+ err)).
    assert (nodeFailure c (expectedChainID (probe c net nodes))
              (maxBlockNumber (probe c net nodes)) node
            = [failureOf node ("connection error: " +:+ err)]) as Hrec
      by (unfold nodeFailure; by rewrite He).
    split_and!.
    + by rewrite list_lookup_fmap, Hi, <-Hrec.
    + done.
    + rewrite app_nil_l. apply elem_of_app. left. apply list_elem_of_bind.
      exists node. split; [simpl; rewrite Hrec; apply list_elem_of_here|].
      by eapply list_elem_of_lookup_2.
    + apply prefix_app_intro.
  - symmetry. by eapply expectedChainID_delete.
  - symmetry. by eapply maxBlockNumber_delete.
  - intros ro' h x. rewrite !build_voters. f_equal. symmetry.
    by eapply reporters_delete.
Qed.

(** The node at "b" refuses the connection: its record starts with
    "connection error: ", and the baselines are those of the two others. *)
Lemma C6_witness :
  ∃ r fn,
    checkChain checker1 inorder downNet "eth" threeNodes = Some r
    ∧ fn ∈ ChainResult.FailedNodes r
    ∧ FailedNode.Reason fn
      = "connection error: failed to connect: connection refused"
    ∧ ChainResult.MaxBlockNumber r
      = maxBlockNumber (delete 1%nat (ChainResult.Nodes r)).
Proof.
  destruct (C6_failed_nodes checker1 inorder downNet "eth" threeNodes)
    as (r & Hr & recs & _ & Hfailed).
  pose proof Hr as Hr0. vm_compute in Hr. injection Hr as <-.
  edestruct (Hfailed 1%nat) as ((fn & _ & -> & Hfn & _) & _ & Hmax & _);
    [reflexivity..|].
  eexists _, _. split; [exact Hr0|]. split; [exact Hfn|].
  split; [reflexivity|exact Hmax].
Defined.

(** ** C7: the hash window *)



(** ** C8: failure and the other fields *)

(** C8, as stated, fails: the node answers the chain ID and then fails the
    block-number query; the outcome carries the failure and, as chain ID,
    the identity that the node reported. *)
Lemma C8_counterexample :
  let res := (checkNode checker1 stalling (NodeInfo.mk "n1" "eth" "a")).1 in
  NodeResult.Error res = Some "failed to get block number: timeout"
  ∧ eth_chainId stalling = inr 5
  ∧ NodeResult.ChainID res = Some 5.
Proof. by split_and!. Qed.

(** C8, amended. A probe ends in exactly one of four ways. A failed
    connection, chain-ID query or block-number query ends it at once: no
    later call is issued, and the outcome has height 0, no block hashes and
    no debug capability; its chain ID is absent, except after a failed
    block-number query, where it is the chain ID the node reported.
    Otherwise the outcome has no failure and carries the reported chain ID
    and height. *)
Theorem C8_short_circuit c ep n :
  let res := (checkNode c ep n).1 in
  let log := (checkNode c ep n).2 in
  match NodeResult.Error res with
  | Some err =>
      NodeResult.BlockNumber res = 0
      ∧ NodeResult.BlockHashes res = ∅
      ∧ NodeResult.DebugOK res = false
      ∧ (∀ target, (CallGetBlock target ∉ log) ∧ (CallTrace target ∉ log))
      ∧ ((∃ e, dial ep = Some e ∧ err = "failed to connect: " +:+ e
               ∧ NodeResult.ChainID res = None ∧ log = [CallDial])
         ∨ (∃ e, dial ep = None ∧ eth_chainId ep = inl e
                 ∧ err = "failed to get chain ID: " +:+ e
                 ∧ NodeResult.ChainID res = None
                 ∧ log = [CallDial; CallChainID; CallClose])
         ∨ (∃ e chainID, dial ep = None ∧ eth_chainId ep = inr chainID
                 ∧ eth_blockNumber ep = inl e
                 ∧ err = "failed to get block number: " +:+ e
                 ∧ NodeResult.ChainID res = Some chainID
                 ∧ log = [CallDial; CallChainID; CallBlockNumber; CallClose]))
  | None =>
      ∃ chainID blockNumber,
        dial ep = None ∧ eth_chainId ep = inr chainID
        ∧ eth_blockNumber ep = inr blockNumber
        ∧ NodeResult.ChainID res = Some chainID
        ∧ NodeResult.BlockNumber res = blockNumber
        ∧ NodeResult.DebugOK res
          = (if CheckDebugMode (opts c)
             then bool_decide (debug_traceBlockByNumber ep blockNumber = None)
             else true)
        ∧ [CallDial; CallChainID; CallBlockNumber] `prefix_of` log
  end.
Proof.
  unfold checkNode.
  destruct (dial ep) as [e|] eqn:Hdial; simpl.
  { split_and!; try done.
    - intros target. split; intros Hin;
        repeat (apply elem_of_cons in Hin as [?|Hin]; [done|]);
        by apply not_elem_of_nil in Hin.
    - left. by exists e. }
  destruct (eth_chainId ep) as [e|chainID] eqn:Hcid; simpl.
  { split_and!; try done.
    - intros target. split; intros Hin;
        repeat (apply elem_of_cons in Hin as [?|Hin]; [done|]);
        by apply not_elem_of_nil in Hin.
    - right. left. by exists e. }
  destruct (eth_blockNumber ep) as [e|blockNumber] eqn:Hbn; simpl.
  { split_and!; try done.
    - intros target. split; intros Hin;
        repeat (apply elem_of_cons in Hin as [?|Hin]; [done|]);
        by apply not_elem_of_nil in Hin.
    - right. right. by exists e, chainID. }
  pose proof (fetchHashes_prefix c ep blockNumber
                (Z.to_nat (BlockHashCount (opts c))) 0 ∅
                [CallDial; CallChainID; CallBlockNumber]) as Hpre.
  destruct (fetchHashes _ _ _ _ _ _ _) as [hashes log]. simpl in Hpre.
  destruct (CheckDebugMode (opts c));
    [destruct (debug_traceBlockByNumber ep blockNumber) eqn:Htrace|];
    simpl; exists chainID, blockNumber;
    rewrite ?Htrace; split_and!; try done; by apply prefix_app_r.
Qed.

(** ** C10: the address of a hash-mismatch record *)

(** C10. The chain and the address of every hash-mismatch record are those
    of the first node of the chain, in input order, whose ID is the ID of
    the record; so if two nodes share an ID, a hash-mismatch record with
    that ID carries the address of the earlier node, also when it is the
    later one that reported the dissenting hash. *)
Theorem C10_mismatch_address c ro net chain nodes :
  ∃ r, checkChain c ro net chain nodes = Some r
    ∧ (∀ fn, fn ∈ ChainResult.FailedNodes r → isHashMismatch fn = true →
         ∃ i first,
           list_find (λ n, NodeResult.ID n = FailedNode.ID fn)
                     (ChainResult.Nodes r) = Some (i, first)
           ∧ FailedNode.Chain fn = NodeResult.Chain first
           ∧ FailedNode.Address fn = NodeResult.Address first)
    ∧ (∀ i j ni nj fn,
         (i < j)%nat →
         ChainResult.Nodes r !! i = Some ni →
         ChainResult.Nodes r !! j = Some nj →
         NodeResult.ID ni = NodeResult.ID nj →
         (∀ k nk, (k < i)%nat → ChainResult.Nodes r !! k = Some nk →
                  NodeResult.ID nk ≠ NodeResult.ID ni) →
         fn ∈ ChainResult.FailedNodes r → isHashMismatch fn = true →
         FailedNode.ID fn = NodeResult.ID nj →
         FailedNode.Address fn = NodeResult.Address ni).
Proof.
  eexists. split; [apply checkChain_shape|].
  cbn [ChainResult.FailedNodes ChainResult.Nodes appendFailures].
  rewrite app_nil_l.
  assert (∀ fn,
    fn ∈ (probe c net nodes
            ≫= nodeFailure c (expectedChainID (probe c net nodes))
                             (maxBlockNumber (probe c net nodes)))
         ++ hashRecords ro chain (probe c net nodes) →
    isHashMismatch fn = true →
    ∃ i first,
      list_find (λ n, NodeResult.ID n = FailedNode.ID fn) (probe c net nodes)
      = Some (i, first)
      ∧ FailedNode.Chain fn = NodeResult.Chain first
      ∧ FailedNode.Address fn = NodeResult.Address first) as Hfirst.
  { intros fn [Hfn|Hfn]%elem_of_app Hkind.
    { apply list_elem_of_bind in Hfn as (node & Hfn & _).
      apply nodeFailure_kind in Hfn as [? _]. congruence. }
    apply hashRecords_inv in Hfn as (h & hash & maj & node & Hin & _ & _ & ->).
    destruct (list_find_elem_of (λ n, NodeResult.ID n = NodeResult.ID node)
                (probe c net nodes) node Hin eq_refl) as [[i first] Hfind].
    exists i, first. split; [exact Hfind|].
    unfold mismatchRecord. simpl. rewrite findNode_spec, Hfind. done. }
  split; [exact Hfirst|].
  intros i j ni nj fn Hij Hi Hj Hid Hmin Hfn Hkind Hname.
  destruct (Hfirst fn Hfn Hkind) as (i' & first & Hfind & _ & ->).
  apply list_find_Some in Hfind as (Hi' & Hp & Hleast).
  destruct (lt_eq_lt_dec i' i) as [[Hlt | ->] | Hgt].
  - destruct (Hmin i' first Hlt Hi'). congruence.
  - congruence.
  - destruct (Hleast i ni Hi Hgt). congruence.
Qed.

(** One upstream "u1" with the connectors "a" and "b", and the upstream
    "u2": the node at "b" has its own block 100, and the record of this
    mismatch carries the address "a". *)
Lemma C10_witness :
  ∃ r fn nj,
    checkChain checker1 inorder forkNet "eth"
               (default [] (GetNodesByChain sharedID !! "eth")) = Some r
    ∧ ChainResult.FailedNodes r = [fn]
    ∧ isHashMismatchAt 100 fn = true
    ∧ ChainResult.Nodes r !! 1%nat = Some nj
    ∧ reports nj 100 = Some 1100%N
    ∧ NodeResult.Address nj = "b"
    ∧ FailedNode.ID fn = NodeResult.ID nj
    ∧ FailedNode.Address fn = "a".
Proof.
  destruct (C10_mismatch_address checker1 inorder forkNet "eth"
              (default [] (GetNodesByChain sharedID !! "eth")))
    as (r & Hr & _ & Hshared).
  pose proof Hr as Hr0. vm_compute in Hr. injection Hr as <-.
  cbn [ChainResult.FailedNodes ChainResult.Nodes] in Hshared.
  eexists _, _, _. split; [exact Hr0|]. split; [reflexivity|].
  split; [reflexivity|]. split; [reflexivity|]. split; [reflexivity|].
  split; [reflexivity|]. split; [reflexivity|].
  eapply eq_trans;
    [eapply (Hshared 0%nat 1%nat);
       [lia|reflexivity|reflexivity|reflexivity|intros; lia
       |apply list_elem_of_here|reflexivity|reflexivity]
    |reflexivity].
Defined.

(** ** C9: the entry point *)

(** C9, as stated, fails: [Check] on a configuration without any upstream
    returns a passing report and no error; and a configuration whose only
    connector is not of type "json-rpc" is accepted by [Load] and has no
    chain at all, so that the run ends without error, with an empty report
    that passes. *)
Lemma C9_counterexample :
  Check (New emptyConfig DefaultOptions) inorder deadNet
  = Some (CheckResult.mk [] [] true, None)
  ∧ Load (Parsed websocketOnly) = inr websocketOnly
  ∧ GetNodesByChain websocketOnly = ∅
  ∧ run inorder deadNet (Parsed websocketOnly) defaultFlags
    = Some {| report := Some (CheckResult.mk [] [] true); err := None |}.
Proof. split_and!; vm_compute; reflexivity. Qed.

(** C9, amended. [Check] always returns a result and never an error. A run
    produces no report exactly when [Load] rejects the configuration, and
    then its outcome does not depend on the nodes: nothing was probed.
    [Load] accepts a file exactly when it can be read and parsed, has at
    least one upstream, and its connector URLs are non-empty and pairwise
    distinct; in particular a configuration without upstreams is
    rejected. *)
Theorem C9_entry_point :
  (∀ c ro net, ∃ result, Check c ro net = Some (result, None))
  ∧ (∀ ro net file flags,
       ∃ o, run ro net file flags = Some o
         ∧ (report o = None ↔ ∃ e, Load file = inl e)
         ∧ (report o = None →
            ∀ ro' net', run ro' net' file flags = Some o))
  ∧ (∀ file cfg, Load file = inr cfg ↔ file = Parsed cfg ∧ well_formed cfg)
  ∧ (∀ cfg, Upstreams (UpstreamConfig_ cfg) = [] →
       Load (Parsed cfg) = inl "no upstreams configured in config file").
Proof.
  split_and!.
  - apply Check_total.
  - intros ro net file flags. unfold run.
    destruct (Load file) as [e|cfg] eqn:Hload.
    + eexists. split; [done|]. split; [|done]. split; [by exists e|done].
    + destruct (Check_total
                  (New cfg {| MaxBlockGap := wrap64 (max_block_gap flags);
                              BlockHashCount := block_hash_count flags;
                              CheckDebugMode := negb (skip_debug_check flags) |})
                  ro net) as [result ->].
      simpl. destruct (CheckResult.Passed result); simpl;
        (eexists; split; [done|]; split; [|done];
         split; [done|by intros [? ?]]).
  - apply Load_spec.
  - intros cfg Hempty. unfold Load. by rewrite Hempty.
Qed.

(** A configuration without upstreams: the run fails before any probe. *)
Lemma C9_witness :
  ∃ o, run inorder deadNet (Parsed emptyConfig) defaultFlags = Some o
    ∧ report o = None
    ∧ run backwards forkNet (Parsed emptyConfig) defaultFlags = Some o.
Proof.
  destruct C9_entry_point as (_ & Hrun & _ & Hempty).
  destruct (Hrun inorder deadNet (Parsed emptyConfig) defaultFlags)
    as (o & Ho & Hnone & Hsame).
  assert (report o = None) as Hreport.
  { apply Hnone. eexists. apply Hempty. reflexivity. }
  exists o. split; [exact Ho|]. split; [exact Hreport|].
  by apply Hsame.
Defined.

(** * Further properties *)

(** ** The configuration *)

Section flattening.

Lemma connectors_flat upstream cs result :
  foldl (λ result connector,
           if decide (Type_ connector = "json-rpc")
           then result ++ [NodeInfo.mk (ID upstream) (Chain upstream)
                                       (URL connector)]
           else result) result cs
  = result ++ ((λ connector,
                  NodeInfo.mk (ID upstream) (Chain upstream) (URL connector))
                 <$> filter (λ connector, Type_ connector = "json-rpc") cs).
Proof.
  revert result. induction cs as [|connector cs IH]; intros result.
  - simpl. by rewrite app_nil_r.
  - simpl. rewrite IH, filter_cons. case_decide.
    + by rewrite fmap_cons, <-app_assoc.
    + done.
Qed.

Lemma upstreams_flat us result :
  foldl (λ result upstream,
           foldl (λ result connector,
                    if decide (Type_ connector = "json-rpc")
                    then result ++ [NodeInfo.mk (ID upstream) (Chain upstream)
                                                (URL connector)]
                    else result) result (Connectors upstream)) result us
  = result ++ jsonRpcNodes us.
Proof.
  revert result. induction us as [|upstream us IH]; intros result.
  - simpl. by rewrite app_nil_r.
  - simpl. rewrite IH, connectors_flat, <-app_assoc. done.
Qed.

Lemma GetAllNodes_flat cfg :
  GetAllNodes cfg = jsonRpcNodes (Upstreams (UpstreamConfig_ cfg)).
Proof. unfold GetAllNodes. by rewrite upstreams_flat. Qed.

End flattening.

Section grouping_nodes.

Lemma groups_empty : groups ∅ [].
Proof. intros chain. by rewrite lookup_empty. Qed.

Lemma groups_snoc result nodes n :
  groups result nodes →
  groups (<[NodeInfo.Chain n :=
              default [] (result !! NodeInfo.Chain n) ++ [n]]> result)
         (nodes ++ [n]).
Proof.
  intros Hres chain. unfold ofChain. rewrite filter_app.
  destruct (decide (chain = NodeInfo.Chain n)) as [->|Hne].
  - rewrite lookup_insert_eq, filter_cons_True by done.
    rewrite decide_False by (by destruct (filter _ nodes)).
    rewrite (Hres (NodeInfo.Chain n)). unfold ofChain.
    case_decide as Hnone; [by rewrite Hnone|done].
  - rewrite lookup_insert_ne by done.
    rewrite filter_cons_False, filter_nil, app_nil_r by done. apply Hres.
Qed.

Lemma appendNode_groups result nodes upstream connector :
  groups result nodes →
  groups (appendNode result upstream connector)
         (nodes ++ ((λ connector,
                       NodeInfo.mk (ID upstream) (Chain upstream) (URL connector))
                      <$> filter (λ connector, Type_ connector = "json-rpc")
                                 [connector])).
Proof.
  intros Hres. unfold appendNode. rewrite filter_cons, filter_nil.
  case_decide.
  - apply (groups_snoc result nodes
             (NodeInfo.mk (ID upstream) (Chain upstream) (URL connector)) Hres).
  - by rewrite app_nil_r.
Qed.

Lemma connectors_groups upstream cs result nodes :
  groups result nodes →
  groups (foldl (λ result connector, appendNode result upstream connector)
                result cs)
         (nodes ++ ((λ connector,
                       NodeInfo.mk (ID upstream) (Chain upstream) (URL connector))
                      <$> filter (λ connector, Type_ connector = "json-rpc") cs)).
Proof.
  revert result nodes. induction cs as [|connector cs IH]; intros result nodes Hres.
  - simpl. by rewrite app_nil_r.
  - simpl. apply (appendNode_groups _ _ upstream connector), IH in Hres.
    rewrite <-app_assoc, <-fmap_app, <-filter_app in Hres. exact Hres.
Qed.

Lemma upstreams_groups us result nodes :
  groups result nodes →
  groups (foldl (λ result upstream,
                   foldl (λ result connector,
                            appendNode result upstream connector)
                         result (Connectors upstream))
                result us)
         (nodes ++ jsonRpcNodes us).
Proof.
  revert result nodes. induction us as [|upstream us IH]; intros result nodes Hres.
  - simpl. by rewrite app_nil_r.
  - simpl. apply (connectors_groups upstream (Connectors upstream)), IH in Hres.
    by rewrite <-app_assoc in Hres.
Qed.

End grouping_nodes.

Lemma GetNodesByChain_lookup cfg chain :
  GetNodesByChain cfg !! chain = None
  ∨ (ofChain chain (GetAllNodes cfg) ≠ []
     ∧ GetNodesByChain cfg !! chain = Some (ofChain chain (GetAllNodes cfg))).
Proof.
  rewrite GetAllNodes_flat.
  pose proof (upstreams_groups (Upstreams (UpstreamConfig_ cfg)) ∅ []
                groups_empty chain) as Hgroup.
  unfold GetNodesByChain. rewrite Hgroup. simpl.
  destruct (decide (ofChain chain
                      (jsonRpcNodes (Upstreams (UpstreamConfig_ cfg))) = []));
    [by left|by right].
Qed.

(** X1. [GetAllNodes] lists one node per connector of type "json-rpc", in
    the order of the file, and [GetNodesByChain] holds under every chain
    name exactly the nodes of [GetAllNodes] with this chain, in the same
    order; a chain without such a node is no key of the map. *)
Theorem X1_nodes_by_chain cfg :
  GetAllNodes cfg = jsonRpcNodes (Upstreams (UpstreamConfig_ cfg))
  ∧ ∀ chain,
      GetNodesByChain cfg !! chain
      = if decide (ofChain chain (GetAllNodes cfg) = []) then None
        else Some (ofChain chain (GetAllNodes cfg)).
Proof.
  split; [apply GetAllNodes_flat|].
  rewrite GetAllNodes_flat.
  apply (upstreams_groups (Upstreams (UpstreamConfig_ cfg)) ∅ [] groups_empty).
Qed.

Section addresses.

Lemma jsonRpcNodes_addresses us :
  NodeInfo.Address <$> jsonRpcNodes us `sublist_of` allURLs us.
Proof.
  induction us as [|upstream us IH]; [done|].
  change (jsonRpcNodes (upstream :: us))
    with (((λ connector,
              NodeInfo.mk (ID upstream) (Chain upstream) (URL connector))
             <$> filter (λ connector, Type_ connector = "json-rpc")
                        (Connectors upstream)) ++ jsonRpcNodes us).
  change (allURLs (upstream :: us))
    with ((URL <$> Connectors upstream) ++ allURLs us).
  rewrite fmap_app. apply sublist_app; [|done].
  rewrite <-list_fmap_compose. apply (fmap_sublist URL), sublist_filter.
Qed.

End addresses.

(** X2. In every configuration that [Load] accepts, the addresses of the
    nodes are non-empty and pairwise distinct, over the whole configuration
    and within each chain; and the nodes listed under a chain are at least
    one and all carry the name of this chain. *)
Theorem X2_loaded_addresses file cfg :
  Load file = inr cfg →
  NoDup (NodeInfo.Address <$> GetAllNodes cfg)
  ∧ ("" ∉ NodeInfo.Address <$> GetAllNodes cfg)
  ∧ ∀ chain nodes,
      GetNodesByChain cfg !! chain = Some nodes →
      nodes ≠ []
      ∧ NoDup (NodeInfo.Address <$> nodes)
      ∧ Forall (λ n, NodeInfo.Chain n = chain) nodes.
Proof.
  intros (_ & _ & Hno & Hnd)%Load_spec.
  pose proof (jsonRpcNodes_addresses (Upstreams (UpstreamConfig_ cfg))) as Hsub.
  rewrite <-GetAllNodes_flat in Hsub.
  split_and!.
  - by eapply sublist_NoDup.
  - intros Hin. apply Hno. by eapply elem_of_sublist.
  - intros chain nodes.
    destruct (GetNodesByChain_lookup cfg chain) as [-> | (Hne & ->)];
      [done|]. intros [= <-]. split_and!; [done| |].
    + eapply sublist_NoDup; [by eapply sublist_NoDup|].
      apply fmap_sublist, sublist_filter.
    + apply Forall_forall. intros n Hn.
      by apply list_elem_of_filter in Hn as [? _].
Qed.

(** An accepted configuration with three nodes of one chain. *)
Lemma X2_witness :
  NoDup (NodeInfo.Address <$> GetAllNodes sharedID)
  ∧ ∃ nodes, GetNodesByChain sharedID !! "eth" = Some nodes
             ∧ NoDup (NodeInfo.Address <$> nodes).
Proof.
  destruct (X2_loaded_addresses (Parsed sharedID) sharedID)
    as (Hall & _ & Hchain); [reflexivity|].
  split; [exact Hall|].
  destruct (GetNodesByChain sharedID !! "eth") as [nodes|] eqn:Hnodes;
    [|by vm_compute in Hnodes].
  exists nodes. split; [reflexivity|]. by apply (Hchain "eth" nodes Hnodes).
Defined.

Section load_errors.

Lemma twice_split url prev rest :
  url ∈ prev → twice url (prev ++ url :: rest).
Proof.
  intros (l1 & l2 & ->)%list_elem_of_split.
  exists l1, l2, rest. by rewrite <-app_assoc.
Qed.

Lemma checkConnectors_error upstreamID seen prev cs e :
  seen_of seen prev →
  checkConnectors upstreamID seen cs = inl e →
  ("" ∈ URL <$> cs
   ∧ e = "upstream " +:+ upstreamID +:+ " has empty connector URL")
  ∨ (∃ url, url ≠ "" ∧ twice url (prev ++ (URL <$> cs))
            ∧ e = "duplicate connector URL: " +:+ url).
Proof.
  revert seen prev. induction cs as [|connector cs IH]; intros seen prev Hseen;
    [done|].
  simpl. case_decide as Hempty.
  { intros [= <-]. left. split; [|done]. rewrite Hempty. apply list_elem_of_here. }
  destruct (default false (seen !! URL connector)) eqn:Hdup.
  { intros [= <-]. right. exists (URL connector). split; [done|].
    split; [|done]. apply twice_split. by apply Hseen. }
  intros He.
  apply (IH _ (prev ++ [URL connector])) in He; [|by apply seen_of_insert].
  destruct He as [[Hin ->]|(url & Hurl & Htwice & ->)].
  - left. split; [|done]. by apply list_elem_of_further.
  - right. exists url. rewrite <-app_assoc in Htwice. by split_and!.
Qed.

Lemma checkUpstreams_error seen prev us e :
  seen_of seen prev → NoDup prev →
  checkUpstreams seen us = inl e →
  (∃ upstream, upstream ∈ us ∧ "" ∈ URL <$> Connectors upstream
     ∧ e = "upstream " +:+ ID upstream +:+ " has empty connector URL")
  ∨ (∃ url, url ≠ "" ∧ twice url (prev ++ allURLs us)
            ∧ e = "duplicate connector URL: " +:+ url).
Proof.
  revert seen prev. induction us as [|upstream us IH]; intros seen prev Hseen Hnd;
    [done|].
  change (allURLs (upstream :: us))
    with ((URL <$> Connectors upstream) ++ allURLs us).
  change (checkUpstreams seen (upstream :: us))
    with (match checkConnectors (ID upstream) seen (Connectors upstream) with
          | inl err => inl err
          | inr seen' => checkUpstreams seen' us
          end).
  pose proof (checkConnectors_spec (ID upstream) seen prev
                (Connectors upstream) Hseen Hnd) as Hcs.
  pose proof (checkConnectors_error (ID upstream) seen prev
                (Connectors upstream)) as Herr.
  destruct (checkConnectors _ _ (Connectors upstream)) as [e'|seen'].
  - intros [= <-].
    destruct (Herr e' Hseen eq_refl) as [[Hin ->]|(url & Hurl & Htwice & ->)].
    + left. exists upstream. split_and!; [apply list_elem_of_here|done..].
    + right. exists url. split_and!; [done| |done].
      destruct Htwice as (l1 & l2 & l3 & Heq).
      exists l1, l2, (l3 ++ allURLs us).
      rewrite app_assoc, Heq, <-app_assoc. simpl. by rewrite <-app_assoc.
  - destruct Hcs as (Hseen' & _ & Hnd'). intros He.
    apply (IH _ _ Hseen' Hnd') in He
      as [(u & Hu & Hin & ->)|(url & Hurl & Htwice & ->)].
    + left. exists u. split_and!; [by apply list_elem_of_further|done..].
    + right. exists url. rewrite <-app_assoc in Htwice. by split_and!.
Qed.

End load_errors.

(** X3. Every error of [Load] names its cause: the file could not be read
    or parsed; it has no upstream; the named upstream has a connector with
    an empty URL; or the named URL, which is not empty, occurs twice among
    the connectors of the whole file, whatever their upstream, chain or
    type. *)
Theorem X3_load_errors file e :
  Load file = inl e →
  (∃ err, file = ReadFailure err ∧ e = "failed to read config file: " +:+ err)
  ∨ (∃ err, file = ParseFailure err
            ∧ e = "failed to parse config file: " +:+ err)
  ∨ ∃ cfg, file = Parsed cfg ∧
      ((Upstreams (UpstreamConfig_ cfg) = []
        ∧ e = "no upstreams configured in config file")
       ∨ (∃ upstream,
            upstream ∈ Upstreams (UpstreamConfig_ cfg)
            ∧ "" ∈ URL <$> Connectors upstream
            ∧ e = "upstream " +:+ ID upstream +:+ " has empty connector URL")
       ∨ (∃ url,
            url ≠ "" ∧ twice url (allURLs (Upstreams (UpstreamConfig_ cfg)))
            ∧ e = "duplicate connector URL: " +:+ url)).
Proof.
  destruct file as [err|err|cfg]; simpl.
  - intros [= <-]. left. by exists err.
  - intros [= <-]. right. left. by exists err.
  - intros He. right. right. exists cfg. split; [done|].
    case_decide as Hlen.
    { injection He as <-. left. split; [by apply nil_length_inv|done]. }
    right.
    pose proof (checkUpstreams_error ∅ [] (Upstreams (UpstreamConfig_ cfg)))
      as Herr.
    destruct (checkUpstreams ∅ _) as [e'|seen]; [|done].
    injection He as <-.
    apply (Herr e' seen_of_empty (NoDup_nil_2 (A := string)) eq_refl).
Qed.

(** A "json-rpc" connector and a "ws" connector of two chains with the same
    URL: the file is rejected for the duplicate. *)
Lemma X3_witness :
  Load (Parsed repeatedURL) = inl "duplicate connector URL: a"
  ∧ twice "a" (allURLs (Upstreams (UpstreamConfig_ repeatedURL))).
Proof.
  split; [reflexivity|].
  destruct (X3_load_errors (Parsed repeatedURL) "duplicate connector URL: a")
    as [(err & [=] & _)|[(err & [=] & _)|(cfg & [= <-] & Hcause)]];
    [reflexivity|].
  destruct Hcause as [[[=] _]|[(u & _ & _ & [=])|(url & _ & Htwice & Heq)]].
  cbv [String.append] in Heq. injection Heq as <-. exact Htwice.
Defined.

(** ** The nodes and the records of a chain *)

Section chain_records.

Lemma findNode_found nodes node :
  node ∈ nodes →
  ∃ first, first ∈ nodes ∧ NodeResult.ID first = NodeResult.ID node
    ∧ findNode nodes (NodeResult.ID node)
      = (NodeResult.Address first, NodeResult.Chain first).
Proof.
  intros Hin.
  destruct (list_find_elem_of (λ n, NodeResult.ID n = NodeResult.ID node)
              nodes node Hin eq_refl) as [[i first] Hfind].
  rewrite findNode_spec, Hfind.
  apply list_find_Some in Hfind as (Hi & Hid & _).
  exists first. split_and!; [by eapply list_elem_of_lookup_2|done..].
Qed.

End chain_records.

(** X4. The result of [checkChain] keeps the chain name and has one node
    result per node, in input order, each with the ID, chain and address of
    its node. Every failure record carries the ID, chain and address of one
    and the same node of the chain; the records of the validation loop come
    first, in input order of their nodes. *)
Theorem X4_chain_nodes c ro net chain nodes :
  ∃ r, checkChain c ro net chain nodes = Some r
    ∧ ChainResult.Chain r = chain
    ∧ Forall2 (λ n node,
                 NodeResult.ID node = NodeInfo.ID n
                 ∧ NodeResult.Chain node = NodeInfo.Chain n
                 ∧ NodeResult.Address node = NodeInfo.Address n)
              nodes (ChainResult.Nodes r)
    ∧ (∀ fn, fn ∈ ChainResult.FailedNodes r →
         ∃ node, node ∈ ChainResult.Nodes r
           ∧ FailedNode.ID fn = NodeResult.ID node
           ∧ FailedNode.Chain fn = NodeResult.Chain node
           ∧ FailedNode.Address fn = NodeResult.Address node)
    ∧ ∃ ruleRecs hashRecs,
        ChainResult.FailedNodes r = ruleRecs ++ hashRecs
        ∧ Forall (λ fn, isHashMismatch fn = false) ruleRecs
        ∧ Forall (λ fn, isHashMismatch fn = true) hashRecs
        ∧ (FailedNode.Address <$> ruleRecs)
            `sublist_of` (NodeInfo.Address <$> nodes).
Proof.
  eexists. split; [apply checkChain_shape|].
  cbn [ChainResult.FailedNodes ChainResult.Nodes ChainResult.Chain
       appendFailures].
  rewrite app_nil_l. split; [done|]. split.
  { unfold probe. apply Forall2_fmap_r, Forall_Forall2_diag, Forall_forall.
    intros n _. apply checkNode_descriptor. }
  split.
  { intros fn [Hfn|Hfn]%elem_of_app.
    - apply list_elem_of_bind in Hfn as (node & Hfn & Hin).
      exists node. by apply nodeFailure_kind in Hfn as (_ & ? & ? & ?).
    - apply hashRecords_inv in Hfn as (h & hash & maj & node & Hin & _ & _ & ->).
      destruct (findNode_found _ node Hin) as (first & Hfirst & Hid & Hfind).
      exists first. unfold mismatchRecord. simpl. by rewrite Hfind. }
  eexists _, _. split; [done|]. split.
  { apply Forall_forall. intros fn (node & Hfn & _)%list_elem_of_bind.
    by apply nodeFailure_kind in Hfn as [? _]. }
  split; [apply Forall_forall; intros fn; apply hashRecords_kind|].
  rewrite <-(probe_addresses c net nodes).
  generalize (expectedChainID (probe c net nodes))
             (maxBlockNumber (probe c net nodes)).
  intros expected maxBlock.
  induction (probe c net nodes) as [|node l IH]; [done|].
  rewrite bind_cons, fmap_app, fmap_cons.
  change (NodeResult.Address node :: (NodeResult.Address <$> l))
    with ([NodeResult.Address node] ++ (NodeResult.Address <$> l)).
  apply sublist_app; [|exact IH].
  pose proof (nodeFailure_kind c expected maxBlock node) as Hkind.
  destruct (nodeFailure _ _ _ node) as [|fn [|fn' recs]] eqn:Hrecs.
  - apply sublist_nil_l.
  - destruct (Hkind fn) as (_ & _ & _ & Haddr); [apply list_elem_of_here|].
    simpl. by rewrite Haddr.
  - exfalso. revert Hrecs. unfold nodeFailure, gapDebugFailure.
    by repeat case_match.
Qed.

(** ** The report *)

Section aggregation.

Context (c : Checker) (ro : RangeOrder) (net : string → Endpoint).

(** The loop of [Check] over the chains. *)
Lemma checkAll_shape entries result :
  ∃ chainResults,
    Forall2 (λ entry chainResult,
               checkChain c ro net entry.1 entry.2 = Some chainResult)
            entries chainResults
    ∧ checkAll c ro net result entries
      = Some (CheckResult.mk
                (CheckResult.ChainResults result ++ chainResults)
                (CheckResult.FailedNodes result
                   ++ (chainResults ≫= ChainResult.FailedNodes))
                (CheckResult.Passed result
                   && forallb ChainResult.Passed chainResults)).
Proof.
  revert result. induction entries as [|entry entries IH]; intros result.
  - exists []. split; [constructor|]. simpl.
    rewrite !app_nil_r, andb_true_r. by destruct result.
  - destruct (checkChain c ro net entry.1 entry.2) as [chainResult|] eqn:Hchain;
      [|by rewrite checkChain_shape in Hchain].
    destruct (IH (CheckResult.mk
                    (CheckResult.ChainResults result ++ [chainResult])
                    (CheckResult.FailedNodes result
                       ++ ChainResult.FailedNodes chainResult)
                    (if negb (ChainResult.Passed chainResult) then false
                     else CheckResult.Passed result)))
      as (chainResults & Hall & Hrest).
    exists (chainResult :: chainResults). split; [by constructor|].
    simpl. unfold checkOne. rewrite Hchain. simpl. rewrite Hrest. simpl.
    rewrite <-!app_assoc. simpl.
    by destruct (ChainResult.Passed chainResult), (CheckResult.Passed result).
Qed.

(** The records of a chain are empty exactly when it passed. *)
Lemma checkChain_passed chain nodes r :
  checkChain c ro net chain nodes = Some r →
  ChainResult.Passed r = true ↔ ChainResult.FailedNodes r = [].
Proof.
  rewrite checkChain_shape. intros [= <-]. simpl.
  destruct (_ ++ _) as [|fn l]; split; done.
Qed.

(** The chain results pass exactly when none lists a failed node. *)
Lemma checkAll_verdict entries chainResults :
  Forall2 (λ entry chainResult,
             checkChain c ro net entry.1 entry.2 = Some chainResult)
          entries chainResults →
  (forallb ChainResult.Passed chainResults = true
   ↔ chainResults ≫= ChainResult.FailedNodes = [])
  ∧ (forallb ChainResult.Passed chainResults = true
     ↔ ∀ chainResult, chainResult ∈ chainResults →
         ChainResult.FailedNodes chainResult = []).
Proof.
  intros Hall.
  assert (forallb ChainResult.Passed chainResults = true
          ↔ ∀ chainResult, chainResult ∈ chainResults →
              ChainResult.FailedNodes chainResult = []) as Hpassed.
  { clear -Hall. induction Hall as [|entry cr entries crs Hcr _ IH]; simpl.
    - split; [by intros _ cr ?%not_elem_of_nil|done].
    - rewrite andb_true_iff, IH, (checkChain_passed _ _ _ Hcr).
      split.
      + intros [Hcr0 Hrest] cr' [->|Hin]%elem_of_cons; auto.
      + intros Hcrs. split; [apply Hcrs, list_elem_of_here|].
        intros cr' Hin. by apply Hcrs, list_elem_of_further. }
  split; [|exact Hpassed]. rewrite Hpassed. split.
  - intros Hnone. clear -Hnone.
    induction chainResults as [|cr crs IH]; [done|].
    rewrite bind_cons, (Hnone cr), IH; [done| |apply list_elem_of_here].
    intros cr' Hin. by apply Hnone, list_elem_of_further.
  - intros Hnil cr Hin.
    destruct (ChainResult.FailedNodes cr) as [|fn l] eqn:Hcr; [done|].
    assert (fn ∈ chainResults ≫= ChainResult.FailedNodes) as Hfn.
    { apply list_elem_of_bind. exists cr. split; [|done].
      rewrite Hcr. apply list_elem_of_here. }
    rewrite Hnil in Hfn. by apply not_elem_of_nil in Hfn.
Qed.

End aggregation.

(** X5. [Check] returns, with a nil error, one chain result for every chain
    of [GetNodesByChain], each chain exactly once and in the order the map
    is visited, and each the result of [checkChain] on the nodes of this
    chain. Its failed nodes are those of the chain results, concatenated in
    that order, and it passes iff every chain result passes. *)
Theorem X5_check_report c ro net :
  ∃ result entries,
    Check c ro net = Some (result, None)
    ∧ entries ≡ₚ map_to_list (GetNodesByChain (cfg c))
    ∧ Forall2 (λ entry chainResult,
                 checkChain c ro net entry.1 entry.2 = Some chainResult
                 ∧ ChainResult.Chain chainResult = entry.1)
              entries (CheckResult.ChainResults result)
    ∧ CheckResult.FailedNodes result
      = CheckResult.ChainResults result ≫= ChainResult.FailedNodes
    ∧ CheckResult.Passed result
      = forallb ChainResult.Passed (CheckResult.ChainResults result).
Proof.
  unfold Check.
  destruct (checkAll_shape c ro net
              (range ro SiteChains _ (map_to_list (GetNodesByChain (cfg c))))
              (CheckResult.mk [] [] true))
    as (chainResults & Hall & ->).
  eexists _, _. split; [done|]. split; [apply range_perm|]. simpl.
  split; [|done].
  eapply Forall2_impl; [exact Hall|]. intros entry cr Hcr. simpl in Hcr.
  split; [done|]. rewrite checkChain_shape in Hcr. by injection Hcr as <-.
Qed.

(** X6. The report of [Check] passes exactly when it lists no failed node,
    and exactly when no chain result lists one. *)
Theorem X6_report_passed c ro net :
  ∃ result,
    Check c ro net = Some (result, None)
    ∧ (CheckResult.Passed result = true ↔ CheckResult.FailedNodes result = [])
    ∧ (CheckResult.Passed result = true
       ↔ ∀ chainResult, chainResult ∈ CheckResult.ChainResults result →
           ChainResult.FailedNodes chainResult = []).
Proof.
  unfold Check.
  destruct (checkAll_shape c ro net
              (range ro SiteChains _ (map_to_list (GetNodesByChain (cfg c))))
              (CheckResult.mk [] [] true))
    as (chainResults & Hall & ->).
  eexists. split; [done|]. simpl.
  by apply (checkAll_verdict c ro net) in Hall.
Qed.

(** ** The vote *)

Section majority.

(** The loop that finds the majority hash keeps the greatest count seen and
    a hash that has it. *)
Lemma findMajority_foldl (l : list (Hash * list string)) (acc : Hash * Z) :
  let out :=
    foldl (λ acc entry,
             if acc.2 <? Z.of_nat (length entry.2)
             then (entry.1, Z.of_nat (length entry.2)) else acc) acc l in
  acc.2 ≤ out.2
  ∧ (∀ x ids, (x, ids) ∈ l → Z.of_nat (length ids) ≤ out.2)
  ∧ (out = acc ∨ ∃ ids, (out.1, ids) ∈ l ∧ out.2 = Z.of_nat (length ids)).
Proof.
  revert acc. induction l as [|[x ids] l IH]; intros acc; simpl.
  { split; [lia|]. split; [by intros ?? ?%not_elem_of_nil|by left]. }
  destruct (Z.ltb_spec acc.2 (Z.of_nat (length ids))) as [Hlt|Hge].
  - destruct (IH (x, Z.of_nat (length ids))) as (Hle & Hall & Hout).
    simpl in *. split; [lia|]. split.
    + intros y ids' [[= -> ->]|Hin]%elem_of_cons; [done|by eapply Hall].
    + right. destruct Hout as [->|(ids' & Hin & Hlen)].
      * exists ids. split; [apply list_elem_of_here|done].
      * exists ids'. split; [by apply list_elem_of_further|done].
  - destruct (IH acc) as (Hle & Hall & Hout). split; [done|]. split.
    + intros y ids' [[= -> ->]|Hin]%elem_of_cons; [lia|by eapply Hall].
    + destruct Hout as [->|(ids' & Hin & Hlen)]; [by left|].
      right. exists ids'. split; [by apply list_elem_of_further|done].
Qed.

Lemma findMajority_spec (l : list (Hash * list string)) x0 ids0 :
  (x0, ids0) ∈ l → ids0 ≠ [] →
  (∀ x ids, (x, ids) ∈ l →
            (length ids ≤ Z.to_nat (findMajority l).2)%nat)
  ∧ ∃ ids, ((findMajority l).1, ids) ∈ l
           ∧ (findMajority l).2 = Z.of_nat (length ids).
Proof.
  intros Hin Hne. unfold findMajority.
  destruct (findMajority_foldl l (0%N, 0)) as (_ & Hall & Hout).
  split; [intros x ids Hx; specialize (Hall x ids Hx); lia|].
  destruct Hout as [Hout|Hout]; [|done].
  specialize (Hall x0 ids0 Hin). rewrite Hout in Hall. simpl in Hall.
  destruct ids0; [done|]. simpl in Hall. lia.
Qed.

Lemma bind_ext_elem {A B} (f g : A → list B) l :
  (∀ x, x ∈ l → f x = g x) → l ≫= f = l ≫= g.
Proof. intros Hfg. by apply Forall_bind_ext, Forall_forall. Qed.

Lemma reporters_elem nodes node h x :
  node ∈ nodes → reports node h = Some x →
  NodeResult.ID node ∈ reporters nodes h x.
Proof.
  intros Hin Hrep. unfold reporters. apply list_elem_of_fmap.
  exists node. split; [done|]. by apply list_elem_of_filter.
Qed.

(** A height that is no key of [blockHashNodes] has no reporter. *)
Lemma build_lookup_None ro chain nodes h x :
  buildBlockHashNodes ro chain 0 nodes ∅ !! h = None →
  reporters nodes h x = [].
Proof.
  intros HM. pose proof (build_voters ro chain nodes 0 ∅ h x) as Hv.
  unfold voters in Hv. rewrite HM in Hv. simpl in Hv.
  by rewrite lookup_empty in Hv.
Qed.

Lemma build_lookup_Some ro chain nodes h hm x ids :
  buildBlockHashNodes ro chain 0 nodes ∅ !! h = Some hm →
  hm !! x = Some ids ↔ ids = reporters nodes h x ∧ ids ≠ [].
Proof.
  intros HM. rewrite (build_lookup ro chain nodes h hm x HM).
  case_decide as Hr; split; try done.
  - intros [-> ?]. done.
  - by intros [= <-].
  - by intros [-> _].
Qed.

(** The records of one height, for any list of probed nodes. *)
Lemma vote_records ro chain nodes h :
  ∃ hashes,
    NoDup hashes
    ∧ (∀ x, x ∈ hashes ↔ reporters nodes h x ≠ [])
    ∧ let at_h := filter (λ fn, isHashMismatchAt h fn)
                         (hashRecords ro chain nodes) in
      if decide (length hashes ≤ 1)%nat then at_h = []
      else
        ∃ majorityHash,
          majorityHash ∈ hashes
          ∧ (∀ x, (length (reporters nodes h x)
                   ≤ length (reporters nodes h majorityHash))%nat)
          ∧ at_h
            = hashes ≫= λ x,
                if decide (x = majorityHash) then []
                else mismatchRecord nodes h x majorityHash
                       <$> reporters nodes h x.
Proof.
  pose proof (hashRecords_filter ro chain nodes h) as Hat.
  destruct (buildBlockHashNodes ro chain 0 nodes ∅ !! h) as [hm|] eqn:HM.
  - destruct (range_map_to_list ro (SiteReport chain h) hm) as [Hnd Hin].
    destruct (range_map_to_list ro (SiteMajority chain h) hm) as [_ Hin1].
    pose proof (λ x ids, build_lookup_Some ro chain nodes h hm x ids HM)
      as Hlk.
    exists (range ro (SiteReport chain h) _ (map_to_list hm)).*1.
    split; [done|].
    assert (∀ x, x ∈ (range ro (SiteReport chain h) _ (map_to_list hm)).*1
                 ↔ reporters nodes h x ≠ []) as Hkeys.
    { intros x. rewrite list_elem_of_fmap. split.
      - intros ([x' ids] & -> & He). apply Hin in He.
        by apply Hlk in He as [-> ?].
      - intros Hne. exists (x, reporters nodes h x).
        split; [done|]. apply Hin. by apply Hlk. }
    split; [done|]. simpl. rewrite Hat.
    unfold blockRecords. simpl.
    assert (length (range ro (SiteReport chain h) _ (map_to_list hm)).*1
            = size hm) as ->.
    { rewrite length_fmap, <-length_map_to_list.
      apply Permutation_length, range_perm. }
    case_decide as Hsize; [done|].
    destruct (map_to_list hm) as [|[x0 ids0] l] eqn:Hlist.
    { rewrite <-length_map_to_list, Hlist in Hsize. simpl in Hsize. lia. }
    assert (hm !! x0 = Some ids0) as Hx0.
    { apply elem_of_map_to_list. rewrite Hlist. apply list_elem_of_here. }
    rewrite <-Hlist in *.
    destruct (findMajority_spec
                (range ro (SiteMajority chain h) _ (map_to_list hm)) x0 ids0)
      as (Hmax & idsm & Hmaj & Hcount).
    { by apply Hin1. }
    { by apply Hlk in Hx0 as [_ ?]. }
    set (maj := (findMajority
                   (range ro (SiteMajority chain h) _ (map_to_list hm))).1) in *.
    apply Hin1 in Hmaj.
    pose proof Hmaj as Hmaj'.
    apply Hlk in Hmaj' as [-> Hmne].
    exists maj. split; [by apply Hkeys|]. split.
    + intros x. rewrite Hcount, Nat2Z.id in Hmax.
      destruct (decide (reporters nodes h x = [])) as [->|Hne];
        [simpl; lia|].
      apply (Hmax x). apply Hin1. by apply Hlk.
    + rewrite list_fmap_bind. apply bind_ext_elem. intros [x ids] He.
      apply Hin in He.
      apply Hlk in He as [-> _].
      done.
  - exists []. split; [apply NoDup_nil_2|]. split; [|by simpl; rewrite Hat].
    intros x. split; [by intros ?%not_elem_of_nil|].
    intros Hne. by rewrite (build_lookup_None ro chain _ h x HM) in Hne.
Qed.

(** A hash has a reporter exactly when a node reports it. *)
Lemma reporters_iff nodes h x :
  reporters nodes h x ≠ [] ↔ ∃ node, node ∈ nodes ∧ reports node h = Some x.
Proof.
  split; [apply reporters_nonempty|].
  intros (node & Hnode & Hrep) Hnil.
  pose proof (reporters_elem _ node h x Hnode Hrep) as Hid.
  rewrite Hnil in Hid. by apply not_elem_of_nil in Hid.
Qed.

End majority.

(** X7. For every chain and every height [h], let [hashes] be the distinct
    hashes that nodes without failure report at [h]. With at most one such
    hash no record refers to [h]. Otherwise the majority hash is one of
    them, no hash has more reporting nodes than it, and the records for [h]
    are exactly one record for every node reporting another hash: hash by
    hash in the order the map is visited, and for one hash in input order of
    the nodes. *)
Theorem X7_majority_vote c ro net chain nodes h :
  ∃ r hashes,
    checkChain c ro net chain nodes = Some r
    ∧ NoDup hashes
    ∧ (∀ x, x ∈ hashes
            ↔ ∃ node, node ∈ ChainResult.Nodes r ∧ reports node h = Some x)
    ∧ let at_h := filter (λ fn, isHashMismatchAt h fn)
                         (ChainResult.FailedNodes r) in
      if decide (length hashes ≤ 1)%nat then at_h = []
      else
        ∃ majorityHash,
          majorityHash ∈ hashes
          ∧ (∀ x, (length (reporters (ChainResult.Nodes r) h x)
                   ≤ length (reporters (ChainResult.Nodes r) h majorityHash))%nat)
          ∧ at_h
            = hashes ≫= λ x,
                if decide (x = majorityHash) then []
                else mismatchRecord (ChainResult.Nodes r) h x majorityHash
                       <$> reporters (ChainResult.Nodes r) h x.
Proof.
  destruct (vote_records ro chain (probe c net nodes) h)
    as (hashes & Hnd & Hkeys & Hat).
  eexists _, hashes. split; [apply checkChain_shape|].
  cbn [ChainResult.FailedNodes ChainResult.Nodes appendFailures].
  rewrite app_nil_l, filter_app, nodeFailure_filter, app_nil_l.
  split; [done|]. split; [|done].
  intros x. by rewrite Hkeys, reporters_iff.
Qed.

(** ** Disagreement and the order of iteration *)

Section agreement.

Context (chain : string) (nodes : list NodeResult.t).

(** A height has hash-mismatch records exactly when two nodes disagree at
    it. *)
Lemma vote_disagree ro h :
  filter (λ fn, isHashMismatchAt h fn) (hashRecords ro chain nodes) ≠ []
  ↔ disagree nodes h.
Proof.
  destruct (vote_records ro chain nodes h) as (hashes & Hnd & Hkeys & Hat).
  simpl in Hat. unfold disagree.
  destruct (decide (length hashes ≤ 1)%nat) as [Hlen|Hlen].
  - rewrite Hat. split; [done|].
    intros (n1 & n2 & x & y & Hn1 & Hn2 & Hx & Hy & Hxy).
    assert (x ∈ hashes) as Hxin by (apply Hkeys, reporters_iff; eauto).
    assert (y ∈ hashes) as Hyin by (apply Hkeys, reporters_iff; eauto).
    destruct hashes as [|a [|b l]]; simpl in Hlen; [..|lia].
    + by apply not_elem_of_nil in Hxin.
    + apply list_elem_of_singleton in Hxin, Hyin. congruence.
  - destruct Hat as (maj & Hmaj & _ & ->).
    destruct hashes as [|a [|b l]]; simpl in Hlen; [lia|lia|].
    assert (a ≠ b) as Hab.
    { apply NoDup_cons in Hnd as [Hfresh _]. intros ->.
      apply Hfresh, list_elem_of_here. }
    split.
    + intros _.
      destruct (proj1 (reporters_iff nodes h a)) as (n1 & Hn1 & Hr1);
        [apply Hkeys, list_elem_of_here|].
      destruct (proj1 (reporters_iff nodes h b)) as (n2 & Hn2 & Hr2);
        [apply Hkeys, list_elem_of_further, list_elem_of_here|].
      by exists n1, n2, a, b.
    + intros _.
      assert (∃ z, z ∈ a :: b :: l ∧ z ≠ maj) as (z & Hz & Hzm).
      { destruct (decide (a = maj)) as [<-|Ha].
        - exists b. split; [apply list_elem_of_further, list_elem_of_here|].
          congruence.
        - exists a. split; [apply list_elem_of_here|done]. }
      destruct (reporters nodes h z) as [|id ids] eqn:Hrep;
        [apply Hkeys in Hz; congruence|].
      intros Hnil.
      eapply (not_elem_of_nil (mismatchRecord nodes h z maj id)).
      rewrite <-Hnil. apply list_elem_of_bind. exists z. split; [|done].
      rewrite decide_False by done. rewrite Hrep. apply list_elem_of_here.
Qed.

Lemma bind_length_sum {A B} (f : A → list B) (w : A → nat) l :
  (∀ x, x ∈ l → length (f x) = w x) →
  length (l ≫= f) = sum_list_with w l.
Proof.
  induction l as [|a l IH]; intros Hw; [done|].
  rewrite bind_cons, length_app. simpl. rewrite Hw, IH; [done|..].
  - intros x Hx. apply Hw. by apply list_elem_of_further.
  - apply list_elem_of_here.
Qed.

Lemma bind_length_except {A B} `{EqDecision A} (f : A → list B) (w : A → nat)
    l m :
  NoDup l → m ∈ l → f m = [] →
  (∀ x, x ∈ l → x ≠ m → length (f x) = w x) →
  (length (l ≫= f) + w m = sum_list_with w l)%nat.
Proof.
  induction l as [|a l IH]; intros Hnd Hm Hfm Hw;
    [by apply not_elem_of_nil in Hm|].
  apply NoDup_cons in Hnd as [Hfresh Hnd].
  rewrite bind_cons, length_app. simpl.
  destruct (decide (a = m)) as [->|Ha].
  - rewrite Hfm. simpl. rewrite (bind_length_sum f w l); [lia|].
    intros x Hx. apply Hw; [by apply list_elem_of_further|]. by intros ->.
  - apply elem_of_cons in Hm as [->|Hm]; [done|].
    rewrite (Hw a) by (done || apply list_elem_of_here).
    rewrite <-IH; [lia|done..|].
    intros x Hx. apply Hw. by apply list_elem_of_further.
Qed.

Lemma sum_list_with_ext_elem {A} (w1 w2 : A → nat) l :
  (∀ x, x ∈ l → w1 x = w2 x) → sum_list_with w1 l = sum_list_with w2 l.
Proof.
  induction l as [|a l IH]; intros Hw; [done|]. simpl.
  rewrite Hw, IH; [done|..].
  - intros x Hx. apply Hw. by apply list_elem_of_further.
  - apply list_elem_of_here.
Qed.

(** The number of records of a height does not depend on the order in
    which the maps are visited. *)
Lemma vote_length ro1 ro2 h :
  length (filter (λ fn, isHashMismatchAt h fn) (hashRecords ro1 chain nodes))
  = length (filter (λ fn, isHashMismatchAt h fn) (hashRecords ro2 chain nodes)).
Proof.
  destruct (vote_records ro1 chain nodes h) as (hashes1 & Hnd1 & Hkeys1 & Hat1).
  destruct (vote_records ro2 chain nodes h) as (hashes2 & Hnd2 & Hkeys2 & Hat2).
  simpl in Hat1, Hat2.
  assert (hashes1 ≡ₚ hashes2) as Hperm.
  { apply NoDup_Permutation; [done..|]. intros x. by rewrite Hkeys1, Hkeys2. }
  assert (length hashes1 = length hashes2) as Hlen by (by rewrite Hperm).
  set (w := λ x, length (reporters nodes h x)).
  assert (sum_list_with w hashes1 = sum_list_with w hashes2) as Hsums
    by (by rewrite Hperm).
  destruct (decide (length hashes1 ≤ 1)%nat) as [H1|H1];
    destruct (decide (length hashes2 ≤ 1)%nat) as [H2|H2]; try lia.
  { by rewrite Hat1, Hat2. }
  destruct Hat1 as (maj1 & Hmaj1 & Hmax1 & ->).
  destruct Hat2 as (maj2 & Hmaj2 & Hmax2 & ->).
  assert (∀ hashes maj, NoDup hashes → maj ∈ hashes →
            (length (hashes ≫= λ x,
                       if decide (x = maj) then []
                       else mismatchRecord nodes h x maj
                              <$> reporters nodes h x)
             + w maj = sum_list_with w hashes)%nat) as Hsum.
  { intros hashes maj Hnd Hmaj.
    apply bind_length_except; [done|done|by rewrite decide_True|].
    intros x _ Hx. rewrite decide_False by done.
    unfold w. by rewrite length_fmap. }
  pose proof (Hsum hashes1 maj1 Hnd1 Hmaj1) as Hs1.
  pose proof (Hsum hashes2 maj2 Hnd2 Hmaj2) as Hs2.
  pose proof (Hmax1 maj2). pose proof (Hmax2 maj1). unfold w in *. lia.
Qed.

Lemma addHash_inhabited id M entry :
  votes_inhabited M → votes_inhabited (addHash id M entry).
Proof.
  intros Hwf h hm. unfold addHash.
  destruct (decide (entry.1 = h)) as [<-|Hh].
  - rewrite lookup_insert_eq. intros [= <-]. apply insert_non_empty.
  - rewrite lookup_insert_ne by done. apply Hwf.
Qed.

Lemma foldl_addHash_inhabited id l M :
  votes_inhabited M → votes_inhabited (foldl (addHash id) M l).
Proof.
  revert M. induction l as [|e l IH]; intros M HM; simpl; [done|].
  by apply IH, addHash_inhabited.
Qed.

Lemma build_inhabited ro idx ns M :
  votes_inhabited M → votes_inhabited (buildBlockHashNodes ro chain idx ns M).
Proof.
  revert idx M. induction ns as [|node ns IH]; intros idx M HM; simpl.
  - done.
  - apply IH. case_match; [done|]. by apply foldl_addHash_inhabited.
Qed.

(** The map of votes does not depend on the order in which the hashes of a
    node are visited. *)
Lemma build_order ro1 ro2 :
  buildBlockHashNodes ro1 chain 0 nodes ∅
  = buildBlockHashNodes ro2 chain 0 nodes ∅.
Proof.
  assert (∀ ro ro' h hm,
            buildBlockHashNodes ro chain 0 nodes ∅ !! h = Some hm →
            buildBlockHashNodes ro' chain 0 nodes ∅ !! h = Some hm) as Hone.
  { intros ro ro' h hm HM.
    destruct (buildBlockHashNodes ro' chain 0 nodes ∅ !! h) as [hm'|] eqn:HM'.
    - f_equal. apply map_eq. intros x.
      by rewrite (build_lookup ro' chain nodes h hm' x HM'),
                 (build_lookup ro chain nodes h hm x HM).
    - exfalso.
      assert (hm ≠ ∅) as Hne.
      { eapply (build_inhabited ro 0 nodes ∅); [|exact HM].
        intros ??. by rewrite lookup_empty. }
      apply map_choose in Hne as (x & ids & Hx).
      rewrite (build_lookup ro chain nodes h hm x HM) in Hx.
      case_decide as Hr; [done|].
      by rewrite (build_lookup_None ro' chain nodes h x HM') in Hr. }
  apply map_eq. intros h.
  destruct (buildBlockHashNodes ro1 chain 0 nodes ∅ !! h) as [hm|] eqn:H1.
  - symmetry. by eapply Hone.
  - destruct (buildBlockHashNodes ro2 chain 0 nodes ∅ !! h) as [hm|] eqn:H2;
      [|done].
    apply (Hone ro2 ro1) in H2. congruence.
Qed.

(** Nor does the number of hash-mismatch records. *)
Lemma hashRecords_length ro1 ro2 :
  length (hashRecords ro1 chain nodes) = length (hashRecords ro2 chain nodes).
Proof.
  assert (∀ ro,
            length (hashRecords ro chain nodes)
            = sum_list_with
                (λ e, length (filter (λ fn, isHashMismatchAt e.1 fn)
                                     (hashRecords ro chain nodes)))
                (map_to_list (buildBlockHashNodes ro1 chain 0 nodes ∅)))
    as Hsum.
  { intros ro. unfold hashRecords at 1.
    rewrite (build_order ro ro1).
    rewrite (bind_length_sum _
               (λ e, length (filter (λ fn, isHashMismatchAt e.1 fn)
                                    (hashRecords ro chain nodes)))).
    - by rewrite (range_perm ro (SiteBlocks chain)).
    - intros [h hm] He. apply (range_map_to_list ro) in He.
      cbn beta. cbn [fst].
      rewrite hashRecords_filter, (build_order ro ro1), He. done. }
  rewrite (Hsum ro1), (Hsum ro2).
  apply sum_list_with_ext_elem. intros e _. apply vote_length.
Qed.

End agreement.

(** X8. Hash-mismatch records refer to a height exactly when two nodes
    without failure report different hashes at this height; so a chain has
    a hash-mismatch record exactly when two such nodes disagree at some
    height, whatever the order in which the maps are visited. *)
Theorem X8_disagreement c ro net chain nodes :
  ∃ r, checkChain c ro net chain nodes = Some r
    ∧ (∀ h, filter (λ fn, isHashMismatchAt h fn) (ChainResult.FailedNodes r)
            ≠ []
            ↔ disagree (ChainResult.Nodes r) h)
    ∧ ((∃ fn, fn ∈ ChainResult.FailedNodes r ∧ isHashMismatch fn = true)
       ↔ ∃ h, disagree (ChainResult.Nodes r) h).
Proof.
  eexists. split; [apply checkChain_shape|].
  cbn [ChainResult.FailedNodes ChainResult.Nodes appendFailures].
  rewrite app_nil_l.
  assert (∀ h, filter (λ fn, isHashMismatchAt h fn)
                 ((probe c net nodes
                     ≫= nodeFailure c (expectedChainID (probe c net nodes))
                          (maxBlockNumber (probe c net nodes)))
                  ++ hashRecords ro chain (probe c net nodes)) ≠ []
               ↔ disagree (probe c net nodes) h) as Hat.
  { intros h. rewrite filter_app, nodeFailure_filter, app_nil_l.
    apply vote_disagree. }
  split; [exact Hat|]. split.
  - intros (fn & [Hfn|Hfn]%elem_of_app & Hkind).
    + apply list_elem_of_bind in Hfn as (node & Hfn & _).
      apply nodeFailure_kind in Hfn as [? _]. congruence.
    + pose proof Hfn as Hfn'.
      apply hashRecords_inv in Hfn' as (h & hash & maj & node & _ & _ & _ & ->).
      exists h. apply (vote_disagree chain (probe c net nodes) ro h).
      intros Hnil.
      eapply (not_elem_of_nil
                (mismatchRecord (probe c net nodes) h hash maj
                                (NodeResult.ID node))).
      rewrite <-Hnil. apply list_elem_of_filter. split; [|done].
      rewrite (hashReason_at h h hash maj) by reflexivity.
      by rewrite bool_decide_eq_true_2.
  - intros [h Hdis]. apply Hat in Hdis.
    destruct (filter _ _) as [|fn l] eqn:Hf; [done|].
    assert (fn ∈ fn :: l) as Hfn by apply list_elem_of_here.
    rewrite <-Hf in Hfn. apply list_elem_of_filter in Hfn as [Hkind Hfn].
    exists fn. split; [done|].
    by apply Is_true_true, isHashMismatchAt_weaken in Hkind.
Qed.

Section report_order.

Context (c : Checker) (net : string → Endpoint).

(** What of a chain result does not depend on the order in which the maps
    are visited. *)
Lemma checkChain_order ro1 ro2 chain nodes r1 r2 :
  checkChain c ro1 net chain nodes = Some r1 →
  checkChain c ro2 net chain nodes = Some r2 →
  ChainResult.Chain r1 = ChainResult.Chain r2
  ∧ ChainResult.Nodes r1 = ChainResult.Nodes r2
  ∧ ChainResult.ExpectedChainID r1 = ChainResult.ExpectedChainID r2
  ∧ ChainResult.MaxBlockNumber r1 = ChainResult.MaxBlockNumber r2
  ∧ ChainResult.Passed r1 = ChainResult.Passed r2
  ∧ filter (λ fn, isHashMismatch fn = false) (ChainResult.FailedNodes r1)
    = filter (λ fn, isHashMismatch fn = false) (ChainResult.FailedNodes r2)
  ∧ length (ChainResult.FailedNodes r1) = length (ChainResult.FailedNodes r2)
  ∧ ∀ h, length (filter (λ fn, isHashMismatchAt h fn)
                        (ChainResult.FailedNodes r1))
         = length (filter (λ fn, isHashMismatchAt h fn)
                          (ChainResult.FailedNodes r2)).
Proof.
  rewrite !checkChain_shape. intros [= <-] [= <-].
  cbn [ChainResult.FailedNodes ChainResult.Nodes ChainResult.Passed
       ChainResult.Chain ChainResult.ExpectedChainID
       ChainResult.MaxBlockNumber appendFailures].
  rewrite !app_nil_l.
  pose proof (hashRecords_length chain (probe c net nodes) ro1 ro2) as Hlen.
  split_and!; try done.
  - destruct (probe c net nodes ≫= _) as [|fn l]; simpl; [|done].
    destruct (hashRecords ro1 chain (probe c net nodes)),
      (hashRecords ro2 chain (probe c net nodes)); done.
  - rewrite !filter_app. f_equal.
    rewrite !filter_Forall_none; [done|..];
      apply Forall_forall; intros fn Hfn%hashRecords_kind; congruence.
  - by rewrite !length_app, Hlen.
  - intros h.
    by rewrite !filter_app, !length_app, (vote_length chain _ ro1 ro2).
Qed.

Lemma forallb_Permutation {A} (p : A → bool) l1 l2 :
  l1 ≡ₚ l2 → forallb p l1 = forallb p l2.
Proof.
  induction 1 as [|x l l' _ IH|x y l|l l' l'' _ IH1 _ IH2]; simpl.
  - done.
  - by f_equal.
  - by destruct (p x), (p y).
  - congruence.
Qed.

Lemma forallb_fmap_Permutation {A B} (p : B → bool) (f g : A → B) l1 l2 :
  l1 ≡ₚ l2 → (∀ a, p (f a) = p (g a)) →
  forallb p (f <$> l1) = forallb p (g <$> l2).
Proof.
  intros Hperm Hfg. trans (forallb p (f <$> l2)).
  { apply forallb_Permutation. by rewrite Hperm. }
  induction l2 as [|a l IH] in |- *; [done|].
  rewrite !fmap_cons. simpl. by rewrite Hfg, IH.
Qed.

(** What of the report does not depend on the order in which the maps are
    visited. *)
Lemma Check_order ro1 ro2 :
  ∃ result1 result2,
    Check c ro1 net = Some (result1, None)
    ∧ Check c ro2 net = Some (result2, None)
    ∧ CheckResult.Passed result1 = CheckResult.Passed result2
    ∧ length (CheckResult.FailedNodes result1)
      = length (CheckResult.FailedNodes result2)
    ∧ ChainResult.Chain <$> CheckResult.ChainResults result1
      ≡ₚ ChainResult.Chain <$> CheckResult.ChainResults result2.
Proof.
  unfold Check.
  destruct (checkAll_shape c ro1 net
              (range ro1 SiteChains _ (map_to_list (GetNodesByChain (cfg c))))
              (CheckResult.mk [] [] true))
    as (crs1 & Hall1 & ->).
  destruct (checkAll_shape c ro2 net
              (range ro2 SiteChains _ (map_to_list (GetNodesByChain (cfg c))))
              (CheckResult.mk [] [] true))
    as (crs2 & Hall2 & ->).
  eexists _, _. split; [done|]. split; [done|]. simpl.
  set (F := λ ro (e : string * list NodeInfo.t),
              default (ChainResult.mk "" [] None 0 [] true)
                      (checkChain c ro net e.1 e.2)).
  assert (∀ ro entries crs,
            Forall2 (λ entry cr, checkChain c ro net entry.1 entry.2 = Some cr)
                    entries crs →
            crs = F ro <$> entries) as Hfmap.
  { intros ro entries crs Hall.
    induction Hall as [|e cr es crs' He _ IH]; [done|].
    rewrite fmap_cons. unfold F at 1. rewrite He. simpl. by f_equal. }
  rewrite (Hfmap _ _ _ Hall1), (Hfmap _ _ _ Hall2). clear Hall1 Hall2 Hfmap.
  assert (∀ e,
            ChainResult.Chain (F ro1 e) = e.1
            ∧ ChainResult.Chain (F ro2 e) = e.1
            ∧ ChainResult.Passed (F ro1 e) = ChainResult.Passed (F ro2 e)
            ∧ length (ChainResult.FailedNodes (F ro1 e))
              = length (ChainResult.FailedNodes (F ro2 e))) as Hpt.
  { intros e.
    pose proof (checkChain_shape ro1 c net e.1 e.2) as H1.
    pose proof (checkChain_shape ro2 c net e.1 e.2) as H2.
    destruct (checkChain_order ro1 ro2 e.1 e.2 _ _ H1 H2)
      as (_ & _ & _ & _ & Hp & _ & Hl & _).
    unfold F. rewrite H1, H2. by split_and!. }
  assert (range ro1 SiteChains _ (map_to_list (GetNodesByChain (cfg c)))
          ≡ₚ range ro2 SiteChains _ (map_to_list (GetNodesByChain (cfg c))))
    as Hperm by (by rewrite !range_perm).
  split_and!.
  - apply forallb_fmap_Permutation; [done|]. intros e. apply Hpt.
  - rewrite !list_fmap_bind.
    rewrite (bind_length_sum _
               (λ e, length (ChainResult.FailedNodes (F ro1 e)))) by done.
    rewrite (bind_length_sum _
               (λ e, length (ChainResult.FailedNodes (F ro1 e)))).
    + by rewrite Hperm.
    + intros e _. simpl. symmetry. apply Hpt.
  - rewrite <-!list_fmap_compose.
    rewrite (list_fmap_ext (ChainResult.Chain ∘ F ro1) fst),
            (list_fmap_ext (ChainResult.Chain ∘ F ro2) fst).
    + by rewrite Hperm.
    + intros i e _. apply Hpt.
    + intros i e _. apply Hpt.
Qed.

End report_order.

(** X9. The order in which the maps are visited changes neither the
    verdict of a chain, nor its nodes and baselines, nor the records of the
    validation loop, nor the number of its records, overall and for every
    height. It can change the node that is reported: of two nodes that
    disagree at a height, the one with the hash visited second. *)
Theorem X9_iteration_order :
  (∀ c ro1 ro2 net chain nodes,
     ∃ r1 r2,
       checkChain c ro1 net chain nodes = Some r1
       ∧ checkChain c ro2 net chain nodes = Some r2
       ∧ ChainResult.Nodes r1 = ChainResult.Nodes r2
       ∧ ChainResult.ExpectedChainID r1 = ChainResult.ExpectedChainID r2
       ∧ ChainResult.MaxBlockNumber r1 = ChainResult.MaxBlockNumber r2
       ∧ ChainResult.Passed r1 = ChainResult.Passed r2
       ∧ filter (λ fn, isHashMismatch fn = false) (ChainResult.FailedNodes r1)
         = filter (λ fn, isHashMismatch fn = false)
                  (ChainResult.FailedNodes r2)
       ∧ length (ChainResult.FailedNodes r1)
         = length (ChainResult.FailedNodes r2)
       ∧ ∀ h, length (filter (λ fn, isHashMismatchAt h fn)
                             (ChainResult.FailedNodes r1))
              = length (filter (λ fn, isHashMismatchAt h fn)
                               (ChainResult.FailedNodes r2)))
  ∧ (∃ r1 r2,
       checkChain checker1 inorder forkNet "eth" twoNodes = Some r1
       ∧ checkChain checker1 backwards forkNet "eth" twoNodes = Some r2
       ∧ FailedNode.ID <$> ChainResult.FailedNodes r1 = ["n1"]
       ∧ FailedNode.ID <$> ChainResult.FailedNodes r2 = ["n2"]).
Proof.
  split.
  - intros c ro1 ro2 net chain nodes.
    eexists _, _. split; [apply checkChain_shape|].
    split; [apply checkChain_shape|].
    by edestruct (checkChain_order c net ro1 ro2 chain nodes)
      as (_ & ? & ? & ? & ? & ? & ? & ?); [apply checkChain_shape..|].
  - eexists _, _. split; [vm_compute; reflexivity|].
    split; [vm_compute; reflexivity|]. done.
Qed.

(** X10. Whatever the order in which the maps are visited, the report of
    [Check] has the same verdict, the same number of failed nodes and the
    same chains. *)
Theorem X10_report_order c ro1 ro2 net :
  ∃ result1 result2,
    Check c ro1 net = Some (result1, None)
    ∧ Check c ro2 net = Some (result2, None)
    ∧ CheckResult.Passed result1 = CheckResult.Passed result2
    ∧ length (CheckResult.FailedNodes result1)
      = length (CheckResult.FailedNodes result2)
    ∧ ChainResult.Chain <$> CheckResult.ChainResults result1
      ≡ₚ ChainResult.Chain <$> CheckResult.ChainResults result2.
Proof. apply Check_order. Qed.

(** X11. A run ends without error exactly when the configuration was
    loaded and the report lists no failed node. Its error is otherwise
    that of [Load], wrapped, or "some nodes failed checks" with a report
    that lists a failed node; the error of [Check] is never reported. The
    error does not depend on the order in which the maps are visited. *)
Theorem X11_exit_status ro net file flags :
  ∃ o, run ro net file flags = Some o
    ∧ (err o = None
       ↔ ∃ result, report o = Some result
                   ∧ CheckResult.FailedNodes result = [])
    ∧ (∀ e, err o = Some e →
         (∃ cause, Load file = inl cause ∧ report o = None
                   ∧ e = "failed to load config: " +:+ cause)
         ∨ (e = "some nodes failed checks"
            ∧ ∃ result, report o = Some result
                        ∧ CheckResult.FailedNodes result ≠ []))
    ∧ (∀ ro', ∃ o', run ro' net file flags = Some o' ∧ err o' = err o).
Proof.
  unfold run. destruct (Load file) as [cause|loaded] eqn:Hload.
  { eexists. split; [done|]. simpl. split_and!.
    - split; [done|]. by intros (? & ? & _).
    - intros e [= <-]. left. by exists cause.
    - intros ro'. by eexists. }
  set (c := New loaded _).
  assert (∀ ro, ∃ result,
            Check c ro net = Some (result, None)
            ∧ (CheckResult.Passed result = true
               ↔ CheckResult.FailedNodes result = [])) as Hcheck.
  { intros ro0. unfold Check.
    destruct (checkAll_shape c ro0 net
                (range ro0 SiteChains _ (map_to_list (GetNodesByChain (cfg c))))
                (CheckResult.mk [] [] true))
      as (chainResults & Hall & ->).
    eexists. split; [done|]. simpl.
    by apply (checkAll_verdict c ro0 net) in Hall as [? _]. }
  assert (∀ ro', ∃ result result',
            Check c ro net = Some (result, None)
            ∧ Check c ro' net = Some (result', None)
            ∧ CheckResult.Passed result = CheckResult.Passed result')
    as Horder.
  { intros ro'.
    destruct (Check_order c net ro ro') as (r1 & r2 & ? & ? & ? & _).
    by exists r1, r2. }
  destruct (Hcheck ro) as (result & Hres & Hverdict).
  rewrite Hres. simpl.
  destruct (CheckResult.Passed result) eqn:Hp; simpl;
    (eexists; split; [done|]); simpl; split_and!.
  - split; [|done]. intros _. exists result. split; [done|]. by apply Hverdict.
  - done.
  - intros ro'. destruct (Horder ro') as (r1 & r2 & H1 & H2 & Heq).
    rewrite H2. simpl. rewrite Hres in H1. injection H1 as <-.
    rewrite <-Heq, Hp. simpl. by eexists.
  - split; [done|]. intros (r & [= <-] & Hnil).
    apply Hverdict in Hnil. congruence.
  - intros e [= <-]. right. split; [done|]. exists result. split; [done|].
    intros Hnil. apply Hverdict in Hnil. congruence.
  - intros ro'. destruct (Horder ro') as (r1 & r2 & H1 & H2 & Heq).
    rewrite H2. simpl. rewrite Hres in H1. injection H1 as <-.
    rewrite <-Heq, Hp. simpl. by eexists.
Qed.

(** ** Probes without a window *)

Section no_window.

Context (c : Checker).
Hypothesis Hcount : BlockHashCount (opts c) ≤ 0.

(** With a count of zero or less the loop over the blocks is not entered. *)
Lemma checkNode_no_window ep n :
  NodeResult.BlockHashes (checkNode c ep n).1 = ∅
  ∧ ∀ target, CallGetBlock target ∉ (checkNode c ep n).2.
Proof.
  unfold checkNode.
  replace (Z.to_nat (BlockHashCount (opts c))) with 0%nat by lia.
  cbn [fetchHashes].
  repeat case_match; simpl; (split; [done|]); intros target Hin;
    repeat (apply elem_of_cons in Hin as [Hin|Hin]; [discriminate|]);
    by apply not_elem_of_nil in Hin.
Qed.

Lemma hashRecords_no_window ro net chain nodes :
  hashRecords ro chain (probe c net nodes) = [].
Proof.
  destruct (hashRecords ro chain (probe c net nodes)) as [|fn l] eqn:Hrecs;
    [done|].
  assert (fn ∈ hashRecords ro chain (probe c net nodes)) as Hfn
    by (rewrite Hrecs; apply list_elem_of_here).
  apply hashRecords_inv in Hfn as (h & hash & maj & node & Hnode & Hrep & _).
  apply list_elem_of_fmap in Hnode as (n & -> & _).
  unfold reports in Hrep.
  destruct (checkNode_no_window (net (NodeInfo.Address n)) n) as [Hempty _].
  rewrite Hempty, lookup_empty in Hrep. by case_match.
Qed.

End no_window.

(** X12. With a block-hash count of zero or less no block is fetched, no
    node has a block hash, and the result of a chain has no hash-mismatch
    record and does not depend on the order in which the maps are
    visited. *)
Theorem X12_no_window c ro net chain nodes :
  BlockHashCount (opts c) ≤ 0 →
  ∃ r, checkChain c ro net chain nodes = Some r
    ∧ Forall (λ node, NodeResult.BlockHashes node = ∅) (ChainResult.Nodes r)
    ∧ (∀ n target,
         CallGetBlock target ∉ (checkNode c (net (NodeInfo.Address n)) n).2)
    ∧ Forall (λ fn, isHashMismatch fn = false) (ChainResult.FailedNodes r)
    ∧ ∀ ro', checkChain c ro' net chain nodes = Some r.
Proof.
  intros Hcount. eexists. split; [apply checkChain_shape|].
  rewrite hashRecords_no_window by done.
  cbn [ChainResult.FailedNodes ChainResult.Nodes appendFailures].
  rewrite app_nil_l, app_nil_r. split_and!.
  - apply Forall_forall. intros node (n & -> & _)%list_elem_of_fmap.
    by apply checkNode_no_window.
  - intros n. by apply checkNode_no_window.
  - apply Forall_forall. intros fn (node & Hfn & _)%list_elem_of_bind.
    by apply nodeFailure_kind in Hfn as [? _].
  - intros ro'. rewrite checkChain_shape.
    by rewrite hashRecords_no_window, app_nil_r by done.
Qed.

(** Three nodes, the second on a fork at height 100: with a count of 0 the
    chain passes. *)
Lemma X12_witness :
  ∃ r, checkChain (New emptyConfig (mkOptions 10 0 true)) inorder forkNet
                  "eth" threeNodes = Some r
    ∧ ChainResult.FailedNodes r = [].
Proof.
  destruct (X12_no_window (New emptyConfig (mkOptions 10 0 true)) inorder
              forkNet "eth" threeNodes) as (r & Hr & _); [simpl; lia|].
  exists r. split; [exact Hr|].
  vm_compute in Hr. injection Hr as <-. reflexivity.
Defined.

(** ** The calls of a probe *)

Section calls.

Context (c : Checker) (ep : Endpoint) (blockNumber : Z).

(** The loop over the blocks issues at most one fetch per iteration, and
    stores under a height only what a fetch of this height returned. *)
Lemma fetchHashes_calls fuel i hashes log :
  let out := fetchHashes c ep blockNumber fuel i hashes log in
  ∃ targets,
    out.2 = log ++ (CallGetBlock <$> targets)
    ∧ (length targets ≤ fuel)%nat
    ∧ ∀ key hash,
        out.1 !! key = Some hash →
        hashes !! key = Some hash
        ∨ (key ∈ targets ∧ eth_getBlockByNumber ep key = BlockHeader hash).
Proof.
  revert i hashes log.
  induction fuel as [|fuel IH]; intros i hashes log; simpl.
  { exists []. rewrite app_nil_r. split_and!; [done|done|by left]. }
  destruct (negb (i <? BlockHashCount (opts c))).
  { exists []. rewrite app_nil_r. simpl. split_and!; [done|lia|by left]. }
  destruct (blockNumber <? wrap64 i).
  { exists []. rewrite app_nil_r. simpl. split_and!; [done|lia|by left]. }
  set (target := sub64 blockNumber (wrap64 i)).
  assert (∀ hashes',
            (∀ key hash, hashes' !! key = Some hash →
               hashes !! key = Some hash
               ∨ (key = target
                  ∧ eth_getBlockByNumber ep key = BlockHeader hash)) →
            let out := fetchHashes c ep blockNumber fuel (i + 1) hashes'
                         (log ++ [CallGetBlock target]) in
            ∃ targets,
              out.2 = log ++ (CallGetBlock <$> targets)
              ∧ (length targets ≤ S fuel)%nat
              ∧ ∀ key hash,
                  out.1 !! key = Some hash →
                  hashes !! key = Some hash
                  ∨ (key ∈ targets
                     ∧ eth_getBlockByNumber ep key = BlockHeader hash))
    as Hstep.
  { intros hashes' Hnew.
    destruct (IH (i + 1) hashes' (log ++ [CallGetBlock target]))
      as (targets & Hlog & Hlen & Hmap).
    exists (target :: targets). split_and!.
    - by rewrite Hlog, <-app_assoc.
    - simpl. lia.
    - intros key hash Hkey.
      destruct (Hmap key hash Hkey) as [Hold|[Hin Hfetch]].
      + destruct (Hnew key hash Hold) as [?|[-> ?]]; [by left|].
        right. split; [apply list_elem_of_here|done].
      + right. split; [by apply list_elem_of_further|done]. }
  destruct (eth_getBlockByNumber ep target) as [e| |e|hash0] eqn:Hreply;
    apply Hstep; try (by intros; left).
  intros key hash.
  destruct (decide (key = target)) as [->|Hkey].
  - rewrite lookup_insert_eq. intros [= <-]. by right.
  - rewrite lookup_insert_ne by done. by left.
Qed.

End calls.


(** ** The printed report *)

Section printing.

Lemma inFailedList_spec failedNodes address :
  inFailedList failedNodes address = true
  ↔ ∃ fn, fn ∈ failedNodes ∧ FailedNode.Address fn = address.
Proof.
  induction failedNodes as [|fn l IH]; simpl.
  - split; [done|]. by intros (? & ?%not_elem_of_nil & _).
  - case_decide as Hfn.
    + split; [|done]. intros _. exists fn. split; [apply list_elem_of_here|done].
    + rewrite IH. split.
      * intros (fn' & Hin & Haddr). exists fn'.
        split; [by apply list_elem_of_further|done].
      * intros (fn' & [->|Hin]%elem_of_cons & Haddr); [done|by exists fn'].
Qed.

(** A node whose probe failed has a record in the result of its chain. *)
Lemma checkChain_connection c ro net chain nodes r node e :
  checkChain c ro net chain nodes = Some r →
  node ∈ ChainResult.Nodes r → NodeResult.Error node = Some e →
  ∃ fn, fn ∈ ChainResult.FailedNodes r
        ∧ FailedNode.Address fn = NodeResult.Address node.
Proof.
  rewrite checkChain_shape. intros [= <-].
  cbn [ChainResult.FailedNodes ChainResult.Nodes appendFailures].
  intros Hnode He. exists (failureOf node (connectionReason e)).
  split; [|done]. rewrite app_nil_l. apply elem_of_app. left.
  apply list_elem_of_bind. exists node. split; [|done].
  unfold nodeFailure. rewrite He. apply list_elem_of_here.
Qed.

Lemma printed_failures result fn :
  fn ∈ CheckResult.FailedNodes result →
  printFailed fn ∈ printResults result.
Proof.
  intros Hfn. unfold printResults. apply elem_of_app. right.
  destruct (CheckResult.FailedNodes result) as [|fn0 l] eqn:Hl;
    [by apply not_elem_of_nil in Hfn|].
  replace (0 <? Z.of_nat (length (fn0 :: l))) with true
    by (symmetry; apply Z.ltb_lt; simpl; lia).
  apply list_elem_of_further, list_elem_of_fmap. by exists fn.
Qed.

End printing.

(** X14. What [printResults] logs for the report of [Check]. Every probed
    node is accounted for, by a "node OK" line with its ID, chain, height
    and debug flag or by a "node FAILED" line with its address. When the
    report passed, the lines are, chain by chain, the "chain results" line
    with no failed node followed by one "node OK" line per node, in the
    order of the nodes. When it did not, the lines end with "failed nodes
    detected" and one "node FAILED" line per failed node, in the order of
    the report. *)
Theorem X14_printed_report c ro net :
  ∃ result,
    Check c ro net = Some (result, None)
    ∧ (∀ chainResult node,
         chainResult ∈ CheckResult.ChainResults result →
         node ∈ ChainResult.Nodes chainResult →
         NodeOKLine (NodeResult.ID node) (NodeResult.Chain node)
                    (NodeResult.BlockNumber node) (NodeResult.DebugOK node)
           ∈ printResults result
         ∨ ∃ id chain reason,
             NodeFailedLine id chain (NodeResult.Address node) reason
               ∈ printResults result)
    ∧ (CheckResult.Passed result = true →
       printResults result
       = CheckResult.ChainResults result ≫= λ chainResult,
           ChainResultsLine (ChainResult.Chain chainResult)
                            (ChainResult.ExpectedChainID chainResult)
                            (ChainResult.MaxBlockNumber chainResult)
                            (Z.of_nat (length (ChainResult.Nodes chainResult)))
                            0
           :: ((λ node, NodeOKLine (NodeResult.ID node) (NodeResult.Chain node)
                                   (NodeResult.BlockNumber node)
                                   (NodeResult.DebugOK node))
                 <$> ChainResult.Nodes chainResult))
    ∧ (CheckResult.Passed result = false →
       CheckResult.FailedNodes result ≠ []
       ∧ printResults result
         = (CheckResult.ChainResults result ≫= printChain)
             ++ FailedNodesDetectedLine
             :: (printFailed <$> CheckResult.FailedNodes result)).
Proof.
  unfold Check.
  destruct (checkAll_shape c ro net
              (range ro SiteChains _ (map_to_list (GetNodesByChain (cfg c))))
              (CheckResult.mk [] [] true))
    as (chainResults & Hall & ->).
  eexists. split; [done|].
  destruct (checkAll_verdict c ro net _ _ Hall) as [Hnil Hnone].
  set (result := CheckResult.mk _ _ _).
  assert (CheckResult.ChainResults result = chainResults) as Hcrs by done.
  assert (CheckResult.FailedNodes result
          = chainResults ≫= ChainResult.FailedNodes) as Hfailed by done.
  assert (CheckResult.Passed result
          = forallb ChainResult.Passed chainResults) as Hpassed by done.
  clearbody result.
  assert (∀ cr, cr ∈ chainResults →
            ∃ entry, checkChain c ro net entry.1 entry.2 = Some cr) as Hsrc.
  { intros cr Hcr. apply list_elem_of_lookup in Hcr as [i Hi].
    destruct (Forall2_lookup_r _ _ _ _ _ Hall Hi) as (entry & _ & He).
    by exists entry. }
  split_and!.
  - intros cr node Hcr Hnode. rewrite Hcrs in Hcr.
    assert ((∃ fn, fn ∈ ChainResult.FailedNodes cr
                   ∧ FailedNode.Address fn = NodeResult.Address node)
            → ∃ id chain reason,
                NodeFailedLine id chain (NodeResult.Address node) reason
                  ∈ printResults result) as Hrec.
    { intros (fn & Hfn & Haddr).
      exists (FailedNode.ID fn), (FailedNode.Chain fn), (FailedNode.Reason fn).
      rewrite <-Haddr. apply (printed_failures result fn).
      rewrite Hfailed. apply list_elem_of_bind. by exists cr. }
    destruct (NodeResult.Error node) as [e|] eqn:He.
    { right. apply Hrec. destruct (Hsrc cr Hcr) as [entry Hentry].
      by eapply checkChain_connection. }
    destruct (inFailedList (ChainResult.FailedNodes cr)
                           (NodeResult.Address node)) eqn:Hlist.
    { right. by apply Hrec, inFailedList_spec. }
    left. unfold printResults. apply elem_of_app. left. rewrite Hcrs.
    apply list_elem_of_bind. exists cr. split; [|done].
    unfold printChain. apply list_elem_of_further, list_elem_of_bind.
    exists node. split; [|done].
    unfold printNode. rewrite He, Hlist. apply list_elem_of_here.
  - rewrite Hpassed. intros Hp. unfold printResults.
    rewrite Hfailed, (proj1 Hnil Hp), Hcrs. simpl. rewrite app_nil_r.
    apply bind_ext_elem. intros cr Hcr. unfold printChain.
    rewrite (proj1 Hnone Hp cr Hcr). simpl. f_equal.
    destruct (Hsrc cr Hcr) as [entry Hentry].
    assert (∀ node, node ∈ ChainResult.Nodes cr →
              NodeResult.Error node = None) as Hok.
    { intros node Hnode. destruct (NodeResult.Error node) as [e|] eqn:He;
        [|done].
      destruct (checkChain_connection _ _ _ _ _ _ node e Hentry Hnode He)
        as (fn & Hfn & _).
      rewrite (proj1 Hnone Hp cr Hcr) in Hfn. by apply not_elem_of_nil in Hfn. }
    revert Hok. generalize (ChainResult.Nodes cr). intros l Hok.
    induction l as [|node l IH]; [done|].
    rewrite bind_cons, fmap_cons, IH
      by (intros; apply Hok; by apply list_elem_of_further).
    unfold printNode at 1. rewrite (proj1 Hnone Hp cr Hcr).
    by rewrite (Hok node) by apply list_elem_of_here.
  - rewrite Hpassed. intros Hp.
    assert (CheckResult.FailedNodes result ≠ []) as Hne.
    { rewrite Hfailed. intros Hn. apply Hnil in Hn. congruence. }
    split; [done|]. unfold printResults. rewrite Hcrs.
    destruct (CheckResult.FailedNodes result) as [|fn l]; [done|].
    by replace (0 <? Z.of_nat (length (fn :: l))) with true
      by (symmetry; apply Z.ltb_lt; simpl; lia).
Qed.

(** ** Every node is probed *)

Section coverage.

(** The lists of a grouping, put together, are the nodes that were
    grouped. *)
Lemma groups_flatten result nodes :
  groups result nodes → map_to_list result ≫= snd ≡ₚ nodes.
Proof.
  revert nodes.
  induction result as [|k v m Hk IH] using map_ind; intros nodes Hg.
  - rewrite map_to_list_empty.
    destruct nodes as [|n l]; [done|].
    specialize (Hg (NodeInfo.Chain n)). rewrite lookup_empty in Hg.
    unfold ofChain in Hg. rewrite filter_cons_True in Hg by done.
    by case_decide.
  - rewrite map_to_list_insert by done. rewrite bind_cons. simpl.
    assert (v = ofChain k nodes) as ->.
    { specialize (Hg k). rewrite lookup_insert_eq in Hg.
      case_decide; congruence. }
    rewrite (IH (filter (λ n, ¬ NodeInfo.Chain n = k) nodes)).
    + apply filter_app_complement.
    + intros chain. unfold ofChain.
      destruct (decide (chain = k)) as [->|Hne].
      * rewrite Hk. rewrite decide_True; [done|].
        apply filter_Forall_none, Forall_forall.
        by intros n [Hn _]%list_elem_of_filter.
      * specialize (Hg chain). rewrite lookup_insert_ne in Hg by done.
        rewrite list_filter_filter_l; [exact Hg|]. by intros n ->.
Qed.

Lemma checkAll_nodes c ro net entries chainResults :
  Forall2 (λ entry chainResult,
             checkChain c ro net entry.1 entry.2 = Some chainResult)
          entries chainResults →
  chainResults ≫= ChainResult.Nodes = probe c net (entries ≫= snd).
Proof.
  induction 1 as [|e cr es crs He _ IH]; [done|].
  rewrite !bind_cons, IH. unfold probe. rewrite fmap_app. f_equal.
  rewrite checkChain_shape in He. by injection He as <-.
Qed.

End coverage.

(** X15. [Check] probes every node of [GetAllNodes] once: the nodes of the
    chain results, taken together, are the results of probing the nodes of
    the configuration, up to their order. *)
Theorem X15_every_node_probed c ro net :
  ∃ result,
    Check c ro net = Some (result, None)
    ∧ CheckResult.ChainResults result ≫= ChainResult.Nodes
      ≡ₚ (λ n, (checkNode c (net (NodeInfo.Address n)) n).1)
           <$> GetAllNodes (cfg c).
Proof.
  unfold Check.
  destruct (checkAll_shape c ro net
              (range ro SiteChains _ (map_to_list (GetNodesByChain (cfg c))))
              (CheckResult.mk [] [] true))
    as (chainResults & Hall & ->).
  eexists. split; [done|]. simpl.
  rewrite (checkAll_nodes _ _ _ _ _ Hall). unfold probe.
  rewrite (range_perm ro SiteChains), GetAllNodes_flat.
  rewrite (groups_flatten _ (jsonRpcNodes (Upstreams (UpstreamConfig_ (cfg c)))));
    [done|].
  apply (upstreams_groups _ ∅ [] groups_empty).
Qed.

(** ** Nothing to check *)

Section vacuous.

Lemma GetNodesByChain_empty cfg :
  GetAllNodes cfg = [] → GetNodesByChain cfg = ∅.
Proof.
  rewrite GetAllNodes_flat. intros Hnone.
  pose proof (upstreams_groups (Upstreams (UpstreamConfig_ cfg)) ∅ []
                groups_empty) as Hgroup.
  simpl in Hgroup. rewrite Hnone in Hgroup.
  apply map_eq. intros chain. rewrite lookup_empty. apply Hgroup.
Qed.

End vacuous.

(** X16. A configuration that loads and has no connector of type
    "json-rpc" is checked without any probe: the report has no chain
    result and no failed node, it passes, and the run ends without
    error. *)
Theorem X16_nothing_to_check ro net file flags loaded :
  Load file = inr loaded → GetAllNodes loaded = [] →
  run ro net file flags
  = Some {| report := Some (CheckResult.mk [] [] true); err := None |}.
Proof.
  intros Hload Hnone. unfold run, Check. rewrite Hload.
  cbn [cfg New]. rewrite (GetNodesByChain_empty _ Hnone), map_to_list_empty.
  pose proof (range_perm ro SiteChains _ (@nil (string * list NodeInfo.t)))
    as Hperm.
  apply Permutation_nil_r in Hperm. rewrite Hperm. done.
Qed.

(** An upstream whose only connector is a websocket. *)
Lemma X16_witness :
  run inorder deadNet (Parsed websocketOnly) defaultFlags
  = Some {| report := Some (CheckResult.mk [] [] true); err := None |}.
Proof.
  apply (X16_nothing_to_check inorder deadNet (Parsed websocketOnly)
           defaultFlags websocketOnly); reflexivity.
Defined.
